(** * Chebyshev filter approximation ([pygsp/filters/approximations.py])

    A shallow embedding of the [Chebyshev] class: its constructor, the scalar
    entry point [_evaluate], the operator entry point [_filter] and the two
    evaluators [_evaluate_direct] and [_evaluate_recursive], together with the
    part of NumPy they rely on (shapes, broadcasting, [dot], views).

    The class is embedded twice.  In the first embedding arrays are values,
    exceptions are outcomes, and the entry points log their warnings and the
    evaluator they invoke.  In the second, [Store], arrays are objects of a
    store, so that views, aliases and in-place updates are what they are in
    NumPy; it is proved to compute the values of the first.

    Numbers are real numbers: neither the rounding nor the overflow of
    float64 is modelled, and arrays of an integer dtype are not modelled.
    What is kept from floating point is the one non-numeric value the code
    produces without overflow, the [nan] that [numpy.arccos] returns outside
    of [-1, 1].  A statement about values is therefore a statement in exact
    arithmetic, and is made only where the values stay bounded.

    The graph Fourier transform, [gft] and [igft] of
    [pygsp/operators/transforms.py], is embedded in [Transforms], on the same
    arrays. *)

From Stdlib Require Import String.
From Stdlib Require Import Reals Lra Lia ZArith Bool Arith PeanoNat List.
Import ListNotations.

Open Scope R_scope.

(** ** Numbers *)

Module Num.

(** A float64 as far as this development looks at it: a real number, or the
    value that is not a number.  A division by zero, which in IEEE arithmetic
    gives an infinity or [nan], is folded into [NaN] as well: every operation
    used here maps a non-finite operand to a non-finite result.  The
    operations on real numbers are exact and unbounded: they do not round,
    and they do not overflow to an infinity as those of float64 do on large
    operands. *)
Inductive num : Type :=
| Fin (r : R)
| NaN.

Definition is_finite (a : num) : Prop :=
  match a with Fin _ => True | NaN => False end.

Definition lift2 (f : R -> R -> R) (a b : num) : num :=
  match a, b with
  | Fin u, Fin v => Fin (f u v)
  | _, _ => NaN
  end.

Definition add : num -> num -> num := lift2 Rplus.
Definition sub : num -> num -> num := lift2 Rminus.
Definition mul : num -> num -> num := lift2 Rmult.

Definition div (a b : num) : num :=
  match a, b with
  | Fin u, Fin v => if Req_dec_T v 0 then NaN else Fin (u / v)
  | _, _ => NaN
  end.

(** [numpy.cos] *)
Definition cos (a : num) : num :=
  match a with Fin u => Fin (Rtrigo_def.cos u) | NaN => NaN end.

(** [numpy.arccos]: [nan] (and a RuntimeWarning, which is not an exception)
    outside of [-1, 1]. *)
Definition arccos (a : num) : num :=
  match a with
  | Fin u =>
      if Rle_dec (-1) u then if Rle_dec u 1 then Fin (acos u) else NaN
      else NaN
  | NaN => NaN
  end.

(** Comparisons with [nan] are false. *)
Definition ltb (a b : num) : bool :=
  match a, b with
  | Fin u, Fin v => if Rlt_dec u v then true else false
  | _, _ => false
  end.

(** One step of a [min] / [max] reduction: [nan] propagates. *)
Definition min (a b : num) : num :=
  match a, b with
  | Fin u, Fin v => Fin (Rmin u v)
  | _, _ => NaN
  end.

Definition max (a b : num) : num :=
  match a, b with
  | Fin u, Fin v => Fin (Rmax u v)
  | _, _ => NaN
  end.

Definition of_nat (k : nat) : num := Fin (INR k).

End Num.

Import Num.

(** ** Exceptions and outcomes *)

(** The built-in exceptions the modelled code can raise. *)
Inductive exn : Type :=
| IndexError
| ValueError
| AttributeError (attr : string)
| UnboundLocalError (var : string).

Definition exn_name (e : exn) : string :=
  match e with
  | IndexError => "IndexError"
  | ValueError => "ValueError"
  | AttributeError _ => "AttributeError"
  | UnboundLocalError _ => "UnboundLocalError"
  end.

(** [isinstance(e, cls)] for the classes that matter here: every exception is
    an instance of its own class, and [UnboundLocalError] derives from
    [NameError]. *)
Definition exn_isinstance (e : exn) (cls : string) : bool :=
  String.eqb (exn_name e) cls
  || match e with
     | UnboundLocalError _ => String.eqb cls "NameError"
     | _ => false
     end.

Inductive outcome (A : Type) : Type :=
| Ok (a : A)
| Raise (e : exn).

Arguments Ok {A} a.
Arguments Raise {A} e.

Definition obind {A B : Type} (m : outcome A) (k : A -> outcome B) : outcome B :=
  match m with
  | Ok a => k a
  | Raise e => Raise e
  end.

Declare Scope outcome_scope.
Delimit Scope outcome_scope with outcome.
Notation "x <- m ;; k" := (obind m (fun x => k))
  (at level 61, m at next level, right associativity) : outcome_scope.
Notation "' p <- m ;; k" := (obind m (fun p => k))
  (at level 61, p pattern, m at next level, right associativity) : outcome_scope.

(** ** Arrays *)

(** A NumPy array: its shape and its elements in row-major order. *)
Record ndarray : Type := mk_ndarray {
  shape : list nat;
  data : list num
}.

Definition ndim (a : ndarray) : nat := length (shape a).

(** Number of elements of an array of shape [sh]. *)
Definition size (sh : list nat) : nat := fold_right Nat.mul 1%nat sh.

(** Row-major position of a multi-index, and back. *)
Fixpoint ravel (sh idx : list nat) : nat :=
  match sh, idx with
  | _ :: sh', i :: idx' => (i * size sh' + ravel sh' idx')%nat
  | _, _ => 0%nat
  end.

Fixpoint unravel (sh : list nat) (i : nat) : list nat :=
  match sh with
  | [] => []
  | _ :: sh' => (i / size sh')%nat :: unravel sh' (i mod size sh')%nat
  end.

Fixpoint in_bounds (sh idx : list nat) : Prop :=
  match sh, idx with
  | [], [] => True
  | d :: sh', i :: idx' => (i < d)%nat /\ in_bounds sh' idx'
  | _, _ => False
  end.

Definition get (a : ndarray) (idx : list nat) : num :=
  nth (ravel (shape a) idx) (data a) NaN.

(** The array of shape [sh] whose element at [idx] is [f idx]. *)
Definition tabulate (sh : list nat) (f : list nat -> num) : ndarray :=
  mk_ndarray sh (map (fun i => f (unravel sh i)) (seq 0 (size sh))).

(** A Python scalar, or a 0-d array. *)
Definition scalar (v : num) : ndarray := mk_ndarray [] [v].

(** A 1-d array. *)
Definition vector (l : list num) : ndarray := mk_ndarray [length l] l.

(** A 2-d array given by its rows, each of [ncols] elements. *)
Definition matrix (ncols : nat) (rows : list (list num)) : ndarray :=
  mk_ndarray [length rows; ncols] (concat rows).

(** The shape and the buffer agree. *)
Definition well_formed (a : ndarray) : Prop :=
  length (data a) = size (shape a).

(** *** Broadcasting *)

Definition broadcast_dim (d1 d2 : nat) : option nat :=
  if (d1 =? d2)%nat then Some d1
  else if (d1 =? 1)%nat then Some d2
  else if (d2 =? 1)%nat then Some d1
  else None.

(** Shapes are compared from their last axis; a missing axis counts as 1. *)
Fixpoint broadcast_rev (a b : list nat) : option (list nat) :=
  match a, b with
  | [], _ => Some b
  | _, [] => Some a
  | d1 :: a', d2 :: b' =>
      match broadcast_dim d1 d2, broadcast_rev a' b' with
      | Some d, Some r => Some (d :: r)
      | _, _ => None
      end
  end.

Definition broadcast_shapes (a b : list nat) : option (list nat) :=
  option_map (@rev nat) (broadcast_rev (rev a) (rev b)).

(** The index of an operand of shape [sh] that a result index reads: the
    leading axes the operand lacks are dropped, an axis of length 1 is read at
    0. *)
Fixpoint stretch (sh idx : list nat) : list nat :=
  match sh, idx with
  | d :: sh', i :: idx' => (if (d =? 1)%nat then 0%nat else i) :: stretch sh' idx'
  | _, _ => []
  end.

Definition operand_index (sh idx : list nat) : list nat :=
  stretch sh (skipn (length idx - length sh) idx).

(** An element-wise binary operation [a op b]; shapes that do not broadcast
    raise ValueError. *)
Definition elementwise (f : num -> num -> num) (a b : ndarray) : outcome ndarray :=
  match broadcast_shapes (shape a) (shape b) with
  | Some sh =>
      Ok (tabulate sh (fun idx =>
            f (get a (operand_index (shape a) idx))
              (get b (operand_index (shape b) idx))))
  | None => Raise ValueError
  end.

Definition np_add : ndarray -> ndarray -> outcome ndarray := elementwise Num.add.
Definition np_sub : ndarray -> ndarray -> outcome ndarray := elementwise Num.sub.
Definition np_mul : ndarray -> ndarray -> outcome ndarray := elementwise Num.mul.
Definition np_div : ndarray -> ndarray -> outcome ndarray := elementwise Num.div.

Fixpoint shape_eqb (a b : list nat) : bool :=
  match a, b with
  | [], [] => true
  | d1 :: a', d2 :: b' => (d1 =? d2)%nat && shape_eqb a' b'
  | _, _ => false
  end.

(** [a += b]: as [a + b], but the result has to fit the array it is written
    to. *)
Definition np_iadd (a b : ndarray) : outcome ndarray :=
  match broadcast_shapes (shape a) (shape b) with
  | Some sh =>
      if shape_eqb sh (shape a) then np_add a b else Raise ValueError
  | None => Raise ValueError
  end.

(** Element-wise unary functions. *)
Definition np_map (f : num -> num) (a : ndarray) : ndarray :=
  mk_ndarray (shape a) (map f (data a)).

Definition np_cos : ndarray -> ndarray := np_map Num.cos.
Definition np_arccos : ndarray -> ndarray := np_map Num.arccos.

(** [numpy.zeros(sh)], [numpy.ones_like(a)] *)
Definition np_zeros (sh : list nat) : ndarray :=
  mk_ndarray sh (repeat (Fin 0) (size sh)).

Definition np_ones_like (a : ndarray) : ndarray :=
  mk_ndarray (shape a) (repeat (Fin 1) (size (shape a))).

(** [a.reshape(a.shape + (1,) * n)]: the same buffer with [n] more axes of
    length 1. *)
Definition reshape_append_ones (a : ndarray) (n : nat) : ndarray :=
  mk_ndarray (shape a ++ repeat 1%nat n) (data a).

(** [a[k]] for a non-negative integer [k]: the [k]-th sub-array along the
    first axis. *)
Definition getitem (a : ndarray) (k : nat) : outcome ndarray :=
  match shape a with
  | [] => Raise IndexError
  | d :: sh' =>
      if (k <? d)%nat
      then Ok (mk_ndarray sh' (firstn (size sh') (skipn (k * size sh') (data a))))
      else Raise IndexError
  end.

(** [sh[k]] on a shape tuple. *)
Definition shape_at (sh : list nat) (k : nat) : outcome nat :=
  match nth_error sh k with
  | Some d => Ok d
  | None => Raise IndexError
  end.

(** [a.min()], [a.max()]: ValueError on an array without elements. *)
Definition np_min (a : ndarray) : outcome num :=
  match data a with
  | [] => Raise ValueError
  | v :: l => Ok (fold_left Num.min l v)
  end.

Definition np_max (a : ndarray) : outcome num :=
  match data a with
  | [] => Raise ValueError
  | v :: l => Ok (fold_left Num.max l v)
  end.

(** [a.dot(b)]: a product by a scalar when either side is 0-d; otherwise the
    sum of products over the last axis of [a] and the second-to-last axis of
    [b] (its only axis when [b] is 1-d).  Axes of different lengths raise
    ValueError. *)
Definition np_dot (a b : ndarray) : outcome ndarray :=
  match shape a, shape b with
  | [], _ | _, [] => np_mul a b
  | _, _ =>
      let n := last (shape a) 0%nat in
      let rb := ndim b in
      let lead_a := removelast (shape a) in
      let lead_b := firstn (rb - 2) (shape b) in
      let last_b := if (rb =? 1)%nat then [] else [last (shape b) 0%nat] in
      if (n =? nth (rb - 2) (shape b) 0%nat)%nat
      then Ok (tabulate (lead_a ++ lead_b ++ last_b) (fun idx =>
                 let ia := firstn (length lead_a) idx in
                 let ib := skipn (length lead_a) idx in
                 fold_left
                   (fun acc l =>
                      Num.add acc
                        (Num.mul (get a (ia ++ [l]))
                                 (get b (firstn (rb - 2) ib ++ [l] ++ skipn (rb - 2) ib))))
                   (seq 0 n) (Fin 0)))
      else Raise ValueError
  end.

(** [scipy.sparse.identity(m)], as a dense array. *)
Definition identity (m : nat) : ndarray :=
  tabulate [m; m] (fun idx =>
    if (nth 0 idx 0 =? nth 1 idx 0)%nat then Fin 1 else Fin 0).

(** ** Effects of the entry points *)

(** What a call leaves behind besides its result: the warnings sent to the
    module's logger, and, as instrumentation, the evaluators that were
    invoked. *)
Inductive event : Type :=
| Warning (msg : string) (arg : R)
| Call (method : string).

Definition M (A : Type) : Type := list event -> outcome A * list event.

Definition ret {A : Type} (a : A) : M A := fun log => (Ok a, log).

Definition bind {A B : Type} (m : M A) (k : A -> M B) : M B :=
  fun log =>
    match m log with
    | (Ok a, log') => k a log'
    | (Raise e, log') => (Raise e, log')
    end.

Definition lift {A : Type} (o : outcome A) : M A := fun log => (o, log).

Definition emit (e : event) : M unit := fun log => (Ok tt, log ++ [e]).

Declare Scope M_scope.
Delimit Scope M_scope with M.
Notation "x <- m ;; k" := (bind m (fun x => k))
  (at level 61, m at next level, right associativity) : M_scope.
Notation "m ;;; k" := (bind m (fun _ => k))
  (at level 61, right associativity) : M_scope.

(** ** The [Chebyshev] class *)

(** The graph, as far as the class looks at it: [G.lmax]. *)
Record Graph : Type := mk_Graph { lmax : R }.

(** An instance.  [_coefficients] and [Nf] are attributes that the constructor
    may or may not set. *)
Record Chebyshev : Type := mk_Chebyshev {
  G : Graph;
  order : Z;
  _coefficients : option ndarray;
  Nf : option nat
}.

(** The [filters] argument of the constructor: a [Filter] object, which has
    an attribute [Nf], or an array-like of coefficients. *)
Inductive filters_arg : Type :=
| FilterObject (nf : nat)
| ArrayLike (a : ndarray).

(** [self._coefficients]: AttributeError when the attribute was never set. *)
Definition get_coefficients (self : Chebyshev) : outcome ndarray :=
  match _coefficients self with
  | Some c => Ok c
  | None => Raise (AttributeError "_coefficients")
  end.

(** [filters.Nf] *)
Definition get_Nf (filters : filters_arg) : outcome nat :=
  match filters with
  | FilterObject nf => Ok nf
  | ArrayLike _ => Raise (AttributeError "Nf")
  end.

(** [_compute_coefficients]: its body is [pass]. *)
Definition _compute_coefficients (self : Chebyshev) (filters : filters_arg)
  : outcome Chebyshev := Ok self.

(** [try: body except: handler], with a bare [except]. *)
Definition try_except {A : Type} (body handler : outcome A) : outcome A :=
  match body with
  | Ok a => Ok a
  | Raise _ => handler
  end.

Definition default_order : Z := 30%Z.

(** [numpy.asarray(filters)]: an array is taken as it is; any other object
    becomes a 0-d array holding that object. *)
Definition np_asarray (filters : filters_arg) : ndarray :=
  match filters with
  | ArrayLike a => a
  | FilterObject _ => scalar NaN
  end.

Definition __init__ (g : Graph) (filters : filters_arg) (ord : Z)
  : outcome Chebyshev :=
  let self := mk_Chebyshev g ord None None in
  try_except
    (self1 <- _compute_coefficients self filters ;;
     nf <- get_Nf filters ;;
     Ok (mk_Chebyshev (G self1) (order self1) (_coefficients self1) (Some nf)))%outcome
    (let self1 := mk_Chebyshev g ord (Some (np_asarray filters)) None in
     c <- get_coefficients self1 ;;
     nf <- shape_at (shape c) 1 ;;
     Ok (mk_Chebyshev (G self1) (order self1) (_coefficients self1) (Some nf)))%outcome.

(** [K, F = sh] *)
Definition unpack2 (sh : list nat) : outcome (nat * nat) :=
  match sh with
  | [k; f] => Ok (k, f)
  | _ => Raise ValueError
  end.

(** [for k in ks: state = body(k, state)], stopping at the first exception. *)
Fixpoint for_each {S : Type} (ks : list nat) (body : nat -> S -> outcome S)
  (st : S) : outcome S :=
  match ks with
  | [] => Ok st
  | k :: ks' => (st' <- body k st ;; for_each ks' body st')%outcome
  end.

(** [range(a, b)] *)
Definition range (a b : nat) : list nat := seq a (b - a).

Definition _evaluate_direct (self : Chebyshev) (x s : ndarray) : outcome ndarray :=
  (coefficients <- get_coefficients self ;;
   '(K, F) <- unpack2 (shape coefficients) ;;
   let c := reshape_append_ones coefficients (ndim x) in
   n <- shape_at (shape x) 0 ;;
   let result := np_zeros [F; n] in
   let x_arccos := np_arccos x in
   for_each (range 0 K)
     (fun k result =>
        ck <- getitem c k ;;
        kx <- np_mul (scalar (Num.of_nat k)) x_arccos ;;
        t <- np_dot (np_cos kx) s ;;
        term <- np_mul ck t ;;
        np_iadd result term)
     result)%outcome.

(** The locals of the recurrence: [x0], [x1] (bound only when [K > 1]) and
    [result]. *)
Record recurrence : Type := mk_recurrence {
  x0 : ndarray;
  x1 : option ndarray;
  result : ndarray
}.

Definition load_x1 (st : recurrence) : outcome ndarray :=
  match x1 st with
  | Some a => Ok a
  | None => Raise (UnboundLocalError "x1")
  end.

(** The body of the loop over [k in range(2, K)]. *)
Definition recurrence_step (c x s : ndarray) (k : nat) (st : recurrence)
  : outcome recurrence :=
  (xs <- np_dot x s ;;
   two_xs <- np_mul (scalar (Fin 2)) xs ;;
   x1v <- load_x1 st ;;
   p <- np_mul two_xs x1v ;;
   x2 <- np_sub p (x0 st) ;;
   ck <- getitem c k ;;
   term <- np_mul ck x2 ;;
   result' <- np_iadd (result st) term ;;
   Ok (mk_recurrence x1v (Some x2) result'))%outcome.

(** The locals when the loop is entered. *)
Definition recurrence_init (c x s : ndarray) (K : nat) : outcome recurrence :=
  (let x0 := np_ones_like x in
   c0 <- getitem c 0 ;;
   x0s <- np_dot x0 s ;;
   result <- np_mul c0 x0s ;;
   if (1 <? K)%nat
   then (c1 <- getitem c 1 ;;
         term <- np_mul c1 x ;;
         result' <- np_iadd result term ;;
         Ok (mk_recurrence x0 (Some x) result'))
   else Ok (mk_recurrence x0 None result))%outcome.

Definition _evaluate_recursive (self : Chebyshev) (x s : ndarray) : outcome ndarray :=
  (coefficients <- get_coefficients self ;;
   K <- shape_at (shape coefficients) 0 ;;
   let c := reshape_append_ones coefficients (ndim x) in
   st <- recurrence_init c x s K ;;
   st' <- for_each (range 2 K) (recurrence_step c x s) st ;;
   Ok (result st'))%outcome.

(** The default value of the parameter [s] of both evaluators. *)
Definition default_s : ndarray := scalar (Fin 1).

(** What NumPy arithmetic returns: an array or, when the result has no axis,
    a NumPy scalar.  A scalar has the attributes of an array ([ndim],
    [shape]) and can be an operand of arithmetic, but it has no method
    [dot]. *)
Inductive npvalue (A : Type) : Type :=
| NdArray (a : A)
| NpScalar (a : A).

Arguments NdArray {A} a.
Arguments NpScalar {A} a.

Definition array_of {A : Type} (v : npvalue A) : A :=
  match v with
  | NdArray a => a
  | NpScalar a => a
  end.

Definition ufunc_result (a : ndarray) : npvalue ndarray :=
  if (ndim a =? 0)%nat then NpScalar a else NdArray a.

(** [_evaluate_recursive] when [x] is a NumPy scalar, held here as a 0-d
    array: the statements before the loop run as on a 0-d array
    ([np.ones_like(x)] is an array), and [x.dot(s)], in the loop, raises
    AttributeError. *)
Definition _evaluate_recursive_scalar (self : Chebyshev) (x s : ndarray)
  : outcome ndarray :=
  (coefficients <- get_coefficients self ;;
   K <- shape_at (shape coefficients) 0 ;;
   let c := reshape_append_ones coefficients (ndim x) in
   st <- recurrence_init c x s K ;;
   st' <- for_each (range 2 K)
            (fun _ _ => Raise (AttributeError "dot")) st ;;
   Ok (result st'))%outcome.

(** [getattr(self, name)] where [name] starts with [_evaluate_]: the bound
    method, which logs its invocation, or AttributeError.  On a NumPy scalar
    the direct evaluator does what it does on a 0-d array: it raises at
    [x.shape[0]], before it uses [x]. *)
Definition invoke (name : string) (body : outcome ndarray) : M ndarray :=
  (emit (Call name) ;;; lift body)%M.

Definition evaluate_recursive_on (self : Chebyshev) (x : npvalue ndarray)
  (s : ndarray) : outcome ndarray :=
  match x with
  | NdArray a => _evaluate_recursive self a s
  | NpScalar a => _evaluate_recursive_scalar self a s
  end.

Definition evaluate_direct_on (self : Chebyshev) (x : npvalue ndarray)
  (s : ndarray) : outcome ndarray :=
  _evaluate_direct self (array_of x) s.

Definition getattr_evaluate (self : Chebyshev) (name : string)
  : outcome (npvalue ndarray -> ndarray -> M ndarray) :=
  if String.eqb name "_evaluate_direct"
  then Ok (fun x s => invoke name (evaluate_direct_on self x s))
  else if String.eqb name "_evaluate_recursive"
  then Ok (fun x s => invoke name (evaluate_recursive_on self x s))
  else Raise (AttributeError name).

Definition domain_warning : string :=
  "You are trying to evaluate Chebyshev polynomials outside of their orthonormal domain [0, {:.2f}].".

(** [x.min() < 0 or x.max() > self.G.lmax] *)
Definition outside_domain (self : Chebyshev) (x : ndarray) : outcome bool :=
  (lo <- np_min x ;;
   if Num.ltb lo (Fin 0) then Ok true
   else (hi <- np_max x ;; Ok (Num.ltb (Fin (lmax (G self))) hi)))%outcome.

(** [2 * x / self.G.lmax - 1], as an array.  Of a 0-d [x] NumPy returns it
    as a scalar: [_evaluate] passes on [ufunc_result] of it. *)
Definition rescale (self : Chebyshev) (x : ndarray) : outcome ndarray :=
  (a <- np_mul (scalar (Fin 2)) x ;;
   b <- np_div a (scalar (Fin (lmax (G self)))) ;;
   np_sub b (scalar (Fin 1)))%outcome.

Definition _evaluate (self : Chebyshev) (x : ndarray) (method : option string)
  : M ndarray :=
  (out <- lift (outside_domain self x) ;;
   (if out : bool then emit (Warning domain_warning (lmax (G self))) else ret tt) ;;;
   x' <- lift (rescale self x) ;;
   let method := match method with None => "recursive"%string | Some m => m end in
   f <- lift (getattr_evaluate self ("_evaluate_" ++ method)) ;;
   f (ufunc_result x') default_s)%M.

(** *** Local variables *)

(** The frame of a call: the local variables that are bound, with their
    values. *)
Definition frame (V : Type) : Type := list (string * V).

Fixpoint lookup {V : Type} (fr : frame V) (name : string) : option V :=
  match fr with
  | [] => None
  | (n, v) :: fr' => if String.eqb n name then Some v else lookup fr' name
  end.

(** Reading a local variable that no assignment has bound yet. *)
Definition load_fast {V : Type} (fr : frame V) (name : string) : outcome V :=
  match lookup fr name with
  | Some v => Ok v
  | None => Raise (UnboundLocalError name)
  end.

Definition store_fast {V : Type} (fr : frame V) (name : string) (v : V)
  : frame V :=
  (name, v) :: fr.

(** The values the locals of [_filter] can hold. *)
Inductive pyval : Type :=
| VArray (a : ndarray)
| VInt (n : nat)
| VStr (s : string)
| VNone
| VSelf (c : Chebyshev).

Definition as_array (v : pyval) : outcome ndarray :=
  match v with
  | VArray a => Ok a
  | _ => Raise (AttributeError "shape")
  end.

Definition method_value (method : option string) : pyval :=
  match method with
  | Some m => VStr m
  | None => VNone
  end.

(** The right-hand side of line 71: [2 * L - self.G.lmax / 2 - I]. *)
Definition filter_rescale (self : Chebyshev) (L I : ndarray) : outcome ndarray :=
  (a <- np_mul (scalar (Fin 2)) L ;;
   b <- np_sub a (scalar (Fin (lmax (G self) / 2))) ;;
   np_sub b I)%outcome.

Definition as_self (v : pyval) : outcome Chebyshev :=
  match v with
  | VSelf c => Ok c
  | _ => Raise (AttributeError "G")
  end.

Definition as_int (v : pyval) : outcome nat :=
  match v with
  | VInt m => Ok m
  | _ => Raise ValueError
  end.

(** The body of [_filter], run in the frame of the call. *)
Definition _filter_body (fr : frame pyval) : M ndarray :=
  (* M, M = L.shape *)
  (vL <- lift (load_fast fr "L") ;;
   L <- lift (as_array vL) ;;
   mm <- lift (unpack2 (shape L)) ;;
   let fr := store_fast (store_fast fr "M" (VInt (fst mm))) "M" (VInt (snd mm)) in
   (* I = sparse.identity(M, format='csr', dtype=L.dtype) *)
   vM <- lift (load_fast fr "M") ;;
   m <- lift (as_int vM) ;;
   vL <- lift (load_fast fr "L") ;;
   let fr := store_fast fr "I" (VArray (identity m)) in
   (* L = 2 * L - self.G.lmax / 2 - I *)
   vL <- lift (load_fast fr "L") ;;
   L <- lift (as_array vL) ;;
   vself <- lift (load_fast fr "self") ;;
   self <- lift (as_self vself) ;;
   vI <- lift (load_fast fr "I") ;;
   I <- lift (as_array vI) ;;
   L' <- lift (filter_rescale self L I) ;;
   let fr := store_fast fr "L" (VArray L') in
   (* return self._evaluate_direct(L, s) *)
   vself <- lift (load_fast fr "self") ;;
   self <- lift (as_self vself) ;;
   vL <- lift (load_fast fr "L") ;;
   L <- lift (as_array vL) ;;
   vs <- lift (load_fast fr "s") ;;
   s <- lift (as_array vs) ;;
   invoke "_evaluate_direct" (_evaluate_direct self L s))%M.

(** [_filter(self, s, method, _)].  The parameters are bound on entry; [M],
    [I] and [L] are assigned in the body, hence local, and unbound on
    entry. *)
Definition filter_frame (self : Chebyshev) (s : ndarray)
  (method : option string) (unused : pyval) : frame pyval :=
  [("self", VSelf self); ("s", VArray s);
   ("method", method_value method); ("_", unused)]%string.

Definition _filter (self : Chebyshev) (s : ndarray) (method : option string)
  (unused : pyval) : M ndarray :=
  _filter_body (filter_frame self s method unused).

(** * The class over a store

    The same methods once more, with the arrays as objects of a store: an
    array is a window on a buffer, a view shares the buffer of the array it
    is taken from, an arithmetic operation allocates its result, and [+=]
    writes into the buffer of its left operand.  The attributes of the
    instance are part of the state. *)

Module Store.

(** An array object: the buffer it lives in, where its elements start, and
    its shape. *)
Record array : Type := mk_array {
  base : nat;
  offset : nat;
  ashape : list nat
}.

Record instance : Type := mk_instance {
  G : Graph;
  order : Z;
  _coefficients : option array;
  Nf : option nat
}.

Record state : Type := mk_state {
  attrs : instance;
  buffers : list (list num);
  logged : list event
}.

Definition St (A : Type) : Type := state -> outcome A * state.

Definition ret {A : Type} (a : A) : St A := fun st => (Ok a, st).

Definition bind {A B : Type} (m : St A) (k : A -> St B) : St B :=
  fun st =>
    match m st with
    | (Ok a, st') => k a st'
    | (Raise e, st') => (Raise e, st')
    end.

Definition lift {A : Type} (o : outcome A) : St A := fun st => (o, st).

Declare Scope store_scope.
Delimit Scope store_scope with store.
Notation "x <- m ;; k" := (bind m (fun x => k))
  (at level 61, m at next level, right associativity) : store_scope.
Notation "m ;;; k" := (bind m (fun _ => k))
  (at level 61, right associativity) : store_scope.

(** The array a window shows. *)
Definition deref (h : list (list num)) (a : array) : ndarray :=
  mk_ndarray (ashape a)
    (firstn (size (ashape a)) (skipn (offset a) (nth (base a) h []))).

Definition read (a : array) : St ndarray :=
  fun st => (Ok (deref (buffers st) a), st).

(** A new array, in a buffer of its own. *)
Definition alloc (v : ndarray) : St array :=
  fun st =>
    (Ok (mk_array (length (buffers st)) 0 (shape v)),
     mk_state (attrs st) (buffers st ++ [data v]) (logged st)).

Fixpoint set_nth {A : Type} (l : list A) (n : nat) (x : A) : list A :=
  match l, n with
  | [], _ => []
  | _ :: l', O => x :: l'
  | y :: l', S n' => y :: set_nth l' n' x
  end.

(** Writing the elements of [v] through the window [a]. *)
Definition write (a : array) (v : ndarray) : St unit :=
  fun st =>
    let buf := nth (base a) (buffers st) [] in
    let buf' := firstn (offset a) buf ++ data v
                ++ skipn (offset a + length (data v)) buf in
    (Ok tt, mk_state (attrs st) (set_nth (buffers st) (base a) buf') (logged st)).

Definition emit (e : event) : St unit :=
  fun st => (Ok tt, mk_state (attrs st) (buffers st) (logged st ++ [e])).

Definition setattr (f : instance -> instance) : St unit :=
  fun st => (Ok tt, mk_state (f (attrs st)) (buffers st) (logged st)).

Definition getattr_G : St Graph := fun st => (Ok (G (attrs st)), st).

Definition getattr_coefficients : St array :=
  fun st =>
    (match _coefficients (attrs st) with
     | Some c => Ok c
     | None => Raise (AttributeError "_coefficients")
     end, st).

(** [a.reshape(a.shape + (1,) * n)] and [a[k]] are views. *)
Definition view_reshape_append_ones (a : array) (n : nat) : array :=
  mk_array (base a) (offset a) (ashape a ++ repeat 1%nat n).

Definition view_getitem (a : array) (k : nat) : outcome array :=
  match ashape a with
  | [] => Raise IndexError
  | d :: sh' =>
      if (k <? d)%nat
      then Ok (mk_array (base a) (offset a + k * size sh') sh')
      else Raise IndexError
  end.

(** Operations that allocate their result. *)
Definition binop (f : ndarray -> ndarray -> outcome ndarray) (a b : array)
  : St array :=
  (va <- read a ;; vb <- read b ;; v <- lift (f va vb) ;; alloc v)%store.

Definition unop (f : ndarray -> ndarray) (a : array) : St array :=
  (va <- read a ;; alloc (f va))%store.

Definition const (v : num) : St array := alloc (scalar v).

(** [a += b] *)
Definition iadd (a b : array) : St unit :=
  (va <- read a ;; vb <- read b ;; v <- lift (np_iadd va vb) ;; write a v)%store.

Definition reduce (f : ndarray -> outcome num) (a : array) : St num :=
  (va <- read a ;; lift (f va))%store.

Fixpoint for_each {T : Type} (ks : list nat) (body : nat -> T -> St T) (t : T)
  : St T :=
  match ks with
  | [] => ret t
  | k :: ks' => (t' <- body k t ;; for_each ks' body t')%store
  end.

(** The [filters] argument of the constructor: a [Filter] object, an array
    of the store, or a list of rows. *)
Inductive filters_arg : Type :=
| FilterObject (nf : nat)
| ArrayLike (a : array)
| ListLike (v : ndarray).

Definition get_Nf (filters : filters_arg) : outcome nat :=
  match filters with
  | FilterObject nf => Ok nf
  | _ => Raise (AttributeError "Nf")
  end.

(** [numpy.asarray] returns an array as it is, the same object, and makes a
    new array of anything else. *)
Definition np_asarray (filters : filters_arg) : St array :=
  match filters with
  | ArrayLike a => ret a
  | ListLike v => alloc v
  | FilterObject _ => alloc (scalar NaN)
  end.

Definition try_except {A : Type} (body handler : St A) : St A :=
  fun st =>
    match body st with
    | (Ok a, st') => (Ok a, st')
    | (Raise _, st') => handler st'
    end.

Definition _compute_coefficients (filters : filters_arg) : St unit := ret tt.

Definition set_coefficients (c : array) (i : instance) : instance :=
  mk_instance (G i) (order i) (Some c) (Nf i).

Definition set_Nf (nf : nat) (i : instance) : instance :=
  mk_instance (G i) (order i) (_coefficients i) (Some nf).

Definition __init__ (g : Graph) (filters : filters_arg) (ord : Z) : St unit :=
  (setattr (fun _ => mk_instance g ord None None) ;;;
   try_except
     (_compute_coefficients filters ;;;
      nf <- lift (get_Nf filters) ;;
      setattr (set_Nf nf))
     (a <- np_asarray filters ;;
      setattr (set_coefficients a) ;;;
      c <- getattr_coefficients ;;
      nf <- lift (shape_at (ashape c) 1) ;;
      setattr (set_Nf nf)))%store.

Definition _evaluate_direct (x s : array) : St array :=
  (coefficients <- getattr_coefficients ;;
   kf <- lift (unpack2 (ashape coefficients)) ;;
   let c := view_reshape_append_ones coefficients (length (ashape x)) in
   n <- lift (shape_at (ashape x) 0) ;;
   result <- alloc (np_zeros [snd kf; n]) ;;
   x_arccos <- unop np_arccos x ;;
   for_each (range 0 (fst kf))
     (fun k (_ : unit) =>
        ck <- lift (view_getitem c k) ;;
        kk <- const (Num.of_nat k) ;;
        kx <- binop np_mul kk x_arccos ;;
        cs <- unop np_cos kx ;;
        t <- binop np_dot cs s ;;
        term <- binop np_mul ck t ;;
        iadd result term)
     tt ;;;
   ret result)%store.

(** The body of the loop of [_evaluate_recursive]; its state is the pair
    ([x0], [x1]). *)
Definition recurrence_step (c x s result : array) (k : nat)
  (st : array * option array) : St (array * option array) :=
  (xs <- binop np_dot x s ;;
   two <- const (Fin 2) ;;
   two_xs <- binop np_mul two xs ;;
   x1 <- lift (match snd st with
               | Some a => Ok a
               | None => Raise (UnboundLocalError "x1")
               end) ;;
   p <- binop np_mul two_xs x1 ;;
   x2 <- binop np_sub p (fst st) ;;
   ck <- lift (view_getitem c k) ;;
   term <- binop np_mul ck x2 ;;
   iadd result term ;;;
   ret (x1, Some x2))%store.

Definition _evaluate_recursive (x s : array) : St array :=
  (coefficients <- getattr_coefficients ;;
   K <- lift (shape_at (ashape coefficients) 0) ;;
   let c := view_reshape_append_ones coefficients (length (ashape x)) in
   x0 <- unop np_ones_like x ;;
   c0 <- lift (view_getitem c 0) ;;
   x0s <- binop np_dot x0 s ;;
   result <- binop np_mul c0 x0s ;;
   x1 <- (if (1 <? K)%nat
          then (c1 <- lift (view_getitem c 1) ;;
                term <- binop np_mul c1 x ;;
                iadd result term ;;;
                ret (Some x))
          else ret None) ;;
   for_each (range 2 K) (recurrence_step c x s result) (x0, x1) ;;;
   ret result)%store.

(** [_evaluate_recursive] when [x] is a NumPy scalar: [x.dot(s)], in the
    loop, raises AttributeError. *)
Definition _evaluate_recursive_scalar (x s : array) : St array :=
  (coefficients <- getattr_coefficients ;;
   K <- lift (shape_at (ashape coefficients) 0) ;;
   let c := view_reshape_append_ones coefficients (length (ashape x)) in
   x0 <- unop np_ones_like x ;;
   c0 <- lift (view_getitem c 0) ;;
   x0s <- binop np_dot x0 s ;;
   result <- binop np_mul c0 x0s ;;
   x1 <- (if (1 <? K)%nat
          then (c1 <- lift (view_getitem c 1) ;;
                term <- binop np_mul c1 x ;;
                iadd result term ;;;
                ret (Some x))
          else ret None) ;;
   for_each (range 2 K)
     (fun _ (_ : array * option array) => lift (Raise (AttributeError "dot")))
     (x0, x1) ;;;
   ret result)%store.

Definition invoke (name : string) (body : St array) : St array :=
  (emit (Call name) ;;; body)%store.

Definition ufunc_result (a : array) : npvalue array :=
  if (length (ashape a) =? 0)%nat then NpScalar a else NdArray a.

Definition evaluate_recursive_on (x : npvalue array) (s : array) : St array :=
  match x with
  | NdArray a => _evaluate_recursive a s
  | NpScalar a => _evaluate_recursive_scalar a s
  end.

Definition evaluate_direct_on (x : npvalue array) (s : array) : St array :=
  _evaluate_direct (array_of x) s.

Definition getattr_evaluate (name : string)
  : outcome (npvalue array -> array -> St array) :=
  if String.eqb name "_evaluate_direct"
  then Ok (fun x s => invoke name (evaluate_direct_on x s))
  else if String.eqb name "_evaluate_recursive"
  then Ok (fun x s => invoke name (evaluate_recursive_on x s))
  else Raise (AttributeError name).

Definition _evaluate (x : array) (method : option string) : St array :=
  (lo <- reduce np_min x ;;
   g <- getattr_G ;;
   out <- (if Num.ltb lo (Fin 0) then ret true
           else (hi <- reduce np_max x ;; ret (Num.ltb (Fin (lmax g)) hi))) ;;
   (if out : bool then emit (Warning domain_warning (lmax g)) else ret tt) ;;;
   two <- const (Fin 2) ;;
   a <- binop np_mul two x ;;
   l <- const (Fin (lmax g)) ;;
   b <- binop np_div a l ;;
   one <- const (Fin 1) ;;
   x' <- binop np_sub b one ;;
   let method := match method with None => "recursive"%string | Some m => m end in
   f <- lift (getattr_evaluate ("_evaluate_" ++ method)) ;;
   s <- const (Fin 1) ;;
   f (ufunc_result x') s)%store.

(** The values of the locals of [_filter]. *)
Inductive value : Type :=
| VArray (a : array)
| VInt (n : nat)
| VStr (s : string)
| VNone.

Definition as_array (v : value) : outcome array :=
  match v with
  | VArray a => Ok a
  | _ => Raise (AttributeError "shape")
  end.

Definition as_int (v : value) : outcome nat :=
  match v with
  | VInt m => Ok m
  | _ => Raise ValueError
  end.

Definition _filter (s : array) (method : option string) (unused : value)
  : St array :=
  let fr := [("s", VArray s);
             ("method", match method with Some m => VStr m | None => VNone end);
             ("_", unused)]%string in
  (* M, M = L.shape *)
  (vL <- lift (load_fast fr "L") ;;
   L <- lift (as_array vL) ;;
   mm <- lift (unpack2 (ashape L)) ;;
   let fr := store_fast (store_fast fr "M" (VInt (fst mm))) "M" (VInt (snd mm)) in
   (* I = sparse.identity(M, format='csr', dtype=L.dtype) *)
   vM <- lift (load_fast fr "M") ;;
   m <- lift (as_int vM) ;;
   vL <- lift (load_fast fr "L") ;;
   I <- alloc (identity m) ;;
   let fr := store_fast fr "I" (VArray I) in
   (* L = 2 * L - self.G.lmax / 2 - I *)
   two <- const (Fin 2) ;;
   vL <- lift (load_fast fr "L") ;;
   L <- lift (as_array vL) ;;
   a <- binop np_mul two L ;;
   g <- getattr_G ;;
   half <- const (Fin (lmax g / 2)) ;;
   b <- binop np_sub a half ;;
   vI <- lift (load_fast fr "I") ;;
   I <- lift (as_array vI) ;;
   L' <- binop np_sub b I ;;
   let fr := store_fast fr "L" (VArray L') in
   (* return self._evaluate_direct(L, s) *)
   vL <- lift (load_fast fr "L") ;;
   L <- lift (as_array vL) ;;
   vs <- lift (load_fast fr "s") ;;
   s <- lift (as_array vs) ;;
   invoke "_evaluate_direct" (_evaluate_direct L s))%store.

(** What a caller does with a constructed object: create an array, evaluate,
    filter. *)
Inductive action : Type :=
| Allocate (v : ndarray)
| Evaluate (x : array) (method : option string)
| Filter (s : array) (method : option string) (unused : value).

Definition run_action (a : action) (st : state) : state :=
  match a with
  | Allocate v => snd (alloc v st)
  | Evaluate x method => snd (_evaluate x method st)
  | Filter s method unused => snd (_filter s method unused st)
  end.

Definition run_actions (acts : list action) (st : state) : state :=
  fold_left (fun st a => run_action a st) acts st.

(** The coefficients an observer reads from the instance. *)
Definition observed_coefficients (st : state) : option ndarray :=
  option_map (deref (buffers st)) (_coefficients (attrs st)).

(** The array a call returns, read from the store the call leaves. *)
Definition value_of (m : St array) (st : state) : outcome ndarray :=
  match m st with
  | (Ok r, st') => Ok (deref (buffers st') r)
  | (Raise e, _) => Raise e
  end.

(** [st'] comes after [st]: the attributes are the same, the buffers of
    [st] are unchanged, and new buffers may follow them. *)
Definition extends (st st' : state) : Prop :=
  attrs st' = attrs st /\ exists new, buffers st' = buffers st ++ new.

(** An array allocated after [st0]. *)
Definition fresh (st0 : state) (a : array) : Prop :=
  (length (buffers st0) <= base a)%nat.

(** [m], run in any state that comes after [st0], ends in a state that comes
    after [st0], and its result satisfies [P]. *)
Definition frames {A : Type} (st0 : state) (m : St A) (P : A -> Prop) : Prop :=
  forall st,
    extends st0 st ->
    extends st0 (snd (m st)) /\ forall a, fst (m st) = Ok a -> P a.

(** The array attribute of the instance, if set, lives in the store. *)
Definition valid (st : state) : Prop :=
  forall c, _coefficients (attrs st) = Some c ->
            (base c < length (buffers st))%nat.

End Store.

(** * Closed forms, the specification's polynomials, examples *)

(** ** Arrays by their elements *)

(** The arrays the scalar entry point works on: a 1-d array of [N] elements,
    a 2-d array of shape (F, N), and a 2-d array of shape (F, 1). *)
Definition vec (N : nat) (g : nat -> num) : ndarray :=
  tabulate [N] (fun idx => g (nth 0 idx 0%nat)).

Definition mat (F N : nat) (g : nat -> nat -> num) : ndarray :=
  tabulate [F; N] (fun idx => g (nth 0 idx 0%nat) (nth 1 idx 0%nat)).

Definition col (F : nat) (g : nat -> num) : ndarray :=
  tabulate [F; 1%nat] (fun idx => g (nth 0 idx 0%nat)).

(** An array of finite evaluation points. *)
Definition points (rs : list R) : ndarray := vector (map Fin rs).

(** ** The evaluators at one point *)

(** What the recurrence of [_evaluate_recursive] holds at one evaluation
    point [xv] for a scalar signal [sv]: the pair ([x0], [x1]) after [k] turns
    of the loop. *)
Fixpoint recurrence_pair (sv xv : num) (k : nat) : num * num :=
  match k with
  | O => (Fin 1, xv)
  | S k' =>
      let '(a, b) := recurrence_pair sv xv k' in
      (b, Num.sub (Num.mul (Num.mul (Fin 2) (Num.mul xv sv)) b) a)
  end.

Definition recurrence_state (sv xv : num) (k : nat) : num :=
  fst (recurrence_pair sv xv k).

(** The value [result] holds at one point after the terms of degree below
    [k] were added, for the coefficients [c] of one filter. *)
Fixpoint recursive_sum (c : nat -> num) (sv xv : num) (k : nat) : num :=
  match k with
  | O => Fin 0
  | S k' =>
      match k' with
      | O => Num.mul (c O) (Num.mul (Fin 1) sv)
      | S _ =>
          Num.add (recursive_sum c sv xv k')
                  (Num.mul (c k') (recurrence_state sv xv k'))
      end
  end.

(** The same for [_evaluate_direct]: the term of degree [k], and [result]
    after the terms of degree below [k]. *)
Definition direct_term (sv xv : num) (k : nat) : num :=
  Num.mul (Num.cos (Num.mul (Num.of_nat k) (Num.arccos xv))) sv.

Fixpoint direct_sum (c : nat -> num) (sv xv : num) (k : nat) : num :=
  match k with
  | O => Fin 0
  | S k' =>
      Num.add (direct_sum c sv xv k') (Num.mul (c k') (direct_term sv xv k'))
  end.

(** The events [_evaluate] appends before it dispatches. *)
Definition warnings_of (self : Chebyshev) (outside : bool) : list event :=
  if outside then [Warning domain_warning (lmax (G self))] else [].

(** The result of [_evaluate], without its log. *)
Definition evaluator_named (self : Chebyshev) (name : string)
  : outcome (npvalue ndarray -> ndarray -> outcome ndarray) :=
  if String.eqb name "_evaluate_direct" then Ok (evaluate_direct_on self)
  else if String.eqb name "_evaluate_recursive"
  then Ok (evaluate_recursive_on self)
  else Raise (AttributeError name).

Definition evaluate_value (self : Chebyshev) (x : ndarray)
  (method : option string) : outcome ndarray :=
  (out <- outside_domain self x ;;
   x' <- rescale self x ;;
   f <- evaluator_named self
          ("_evaluate_"
           ++ match method with None => "recursive" | Some m => m end) ;;
   f (ufunc_result x') default_s)%outcome.

(** The object with another order. *)
Definition with_order (self : Chebyshev) (ord : Z) : Chebyshev :=
  mk_Chebyshev (G self) ord (_coefficients self) (Nf self).

(** ** What the specification says *)

(** The Chebyshev polynomials by their three-term recurrence: [T_0 = 1],
    [T_1 = x], [T_k = 2 x T_(k-1) - T_(k-2)]. *)
Fixpoint chebyshev_pair (x : R) (k : nat) : R * R :=
  match k with
  | O => (1, x)
  | S k' => let '(a, b) := chebyshev_pair x k' in (b, 2 * x * b - a)
  end.

Definition chebyshev_T (k : nat) (x : R) : R := fst (chebyshev_pair x k).

(** The series at one point, times the signal: the sum over [k < K] of
    [c_k * (T_k(x) * s)]. *)
Fixpoint chebyshev_series (c : nat -> R) (s x : R) (K : nat) : R :=
  match K with
  | O => 0
  | S K' => chebyshev_series c s x K' + c K' * (chebyshev_T K' x * s)
  end.

(** The rescaled operator, [L' = (2 / lambda_max) * L - I]. *)
Definition rescaled_operator (lambda_max : R) (L I : ndarray) : outcome ndarray :=
  (a <- np_mul (scalar (Fin (2 / lambda_max))) L ;;
   np_sub a I)%outcome.



(** ** Examples *)

(** A graph with [lmax = 4], and the object that construction from a
    coefficient array gives. *)
Definition example_graph : Graph := mk_Graph 4.

Definition chebyshev_of (g : Graph) (coefficients : ndarray) : Chebyshev :=
  mk_Chebyshev g default_order (Some coefficients) (nth_error (shape coefficients) 1).

(** One filter, with the coefficients (1, 2, 3); the filter [T_2]; the
    filter [T_0 + T_1]; the filter [T_0]; and a coefficient array without
    rows. *)
Definition example_order2 : Chebyshev :=
  chebyshev_of example_graph (matrix 1 [[Fin 1]; [Fin 2]; [Fin 3]]).

Definition example_T2 : Chebyshev :=
  chebyshev_of example_graph (matrix 1 [[Fin 0]; [Fin 0]; [Fin 1]]).

Definition coefficients_T2 (k : nat) : R := if (k =? 2)%nat then 1 else 0.

Definition example_order1 : Chebyshev :=
  chebyshev_of example_graph (matrix 1 [[Fin 1]; [Fin 1]]).

Definition example_order0 : Chebyshev :=
  chebyshev_of example_graph (matrix 1 [[Fin 1]]).

Definition example_no_rows : Chebyshev :=
  chebyshev_of example_graph (mk_ndarray [0; 1]%nat []).

(** The 2 x 2 identity as a dense operator. *)
Definition identity2 : ndarray := matrix 2 [[Fin 1; Fin 0]; [Fin 0; Fin 1]].

(** A store holding one buffer, the coefficients of [example_order2]; the
    store after construction on it; and what a caller then does. *)
Definition example_store : Store.state :=
  Store.mk_state (Store.mk_instance example_graph 0 None None)
    [[Fin 1; Fin 2; Fin 3]] [].

Definition example_coefficients : Store.array := Store.mk_array 0 0 [3; 1]%nat.

Definition example_constructed : Store.state :=
  snd (Store.__init__ example_graph (Store.ArrayLike example_coefficients)
         default_order example_store).

Definition example_actions : list Store.action :=
  [Store.Allocate (points [1; 5]);
   Store.Evaluate (Store.mk_array 1 0 [2]%nat) None;
   Store.Filter (Store.mk_array 1 0 [2]%nat) (Some "recursive"%string) Store.VNone;
   Store.Evaluate (Store.mk_array 0 0 [3]%nat) (Some "direct"%string)].

(** ** Relating the store to values *)

(** An array whose buffer is not longer than its shape asks for. *)
Definition compact (v : ndarray) : Prop :=
  (length (data v) <= size (shape v))%nat.

(** The array object [a] lives in the store and shows the value [v]. *)
Definition models (st : Store.state) (a : Store.array) (v : ndarray) : Prop :=
  (Store.base a < length (Store.buffers st))%nat
  /\ Store.deref (Store.buffers st) a = v.

(** What is known of the store: its instance is [inst]; the arrays of [ctx]
    show the values listed with them; [res], if any, shows its value from
    the start of a buffer that it shares with none of them. *)
Definition known (inst : Store.instance)
  (res : option (Store.array * ndarray))
  (ctx : list (Store.array * ndarray)) (st : Store.state) : Prop :=
  Store.attrs st = inst
  /\ Forall (fun av =>
               models st (fst av) (snd av)
               /\ match res with
                  | Some (r, _) => Store.base (fst av) <> Store.base r
                  | None => True
                  end) ctx
  /\ match res with
     | Some (r, vr) =>
         models st r vr /\ Store.offset r = 0%nat /\ well_formed vr
     | None => True
     end.

(** The store computation [m] and the outcome [o] go the same way from any
    store satisfying [P]: both return, with results related by [Q], or both
    raise the same exception. *)
Definition sim {A B : Type} (P : Store.state -> Prop) (m : Store.St A)
  (o : outcome B) (Q : A -> B -> Store.state -> Prop) : Prop :=
  forall st, P st ->
    match o with
    | Ok b => exists a st', m st = (Ok a, st') /\ Q a b st'
    | Raise e => exists st', m st = (Raise e, st')
    end.

(** What the loop of the recursive evaluator keeps: [x0] and [x1] show the
    values of the recurrence, [result] its result. *)
Definition recurrence_known (inst : Store.instance)
  (ctx : list (Store.array * ndarray)) (res : Store.array)
  (t2 : Store.array * option Store.array) (t1 : recurrence)
  (st : Store.state) : Prop :=
  match snd t2, x1 t1 with
  | Some a, Some v =>
      known inst (Some (res, result t1))
        ((fst t2, x0 t1) :: (a, v) :: ctx) st
  | None, None =>
      known inst (Some (res, result t1)) ((fst t2, x0 t1) :: ctx) st
  | _, _ => False
  end.

(** The coefficients of the instance and of the object, when set, are an
    array and its value listed in [ctx]. *)
Definition coefficients_known (inst : Store.instance) (self : Chebyshev)
  (ctx : list (Store.array * ndarray)) : Prop :=
  match Store._coefficients inst, _coefficients self with
  | Some c, Some vc => In (c, vc) ctx
  | None, None => True
  | _, _ => False
  end.

(** The instance of the store and the object agree. *)
Definition represents (st : Store.state) (self : Chebyshev) : Prop :=
  Store.G (Store.attrs st) = G self
  /\ Store.order (Store.attrs st) = order self
  /\ Store.Nf (Store.attrs st) = Nf self
  /\ match Store._coefficients (Store.attrs st), _coefficients self with
     | Some c, Some vc => models st c vc
     | None, None => True
     | _, _ => False
     end.

(** The argument of the constructor in the store and as a value. *)
Definition filters_models (st : Store.state) (filters : Store.filters_arg)
  (vfilters : filters_arg) : Prop :=
  match filters, vfilters with
  | Store.FilterObject nf, FilterObject nf' => nf = nf'
  | Store.ArrayLike a, ArrayLike v => models st a v
  | Store.ListLike v, ArrayLike v' => v = v' /\ compact v
  | _, _ => False
  end.

(** The coefficient array of an instance that represents an object, with its
    value. *)
Definition coefficients_ctx (st : Store.state) (self : Chebyshev)
  : list (Store.array * ndarray) :=
  match Store._coefficients (Store.attrs st), _coefficients self with
  | Some c, Some vc => [(c, vc)]
  | _, _ => []
  end.

(** * Series values, and the graph Fourier transform *)

(** ** Values of the series *)

(** The real number a finite float stands for. *)
Definition real_of (v : num) : R :=
  match v with Fin r => r | NaN => 0 end.

(** The values of the Chebyshev series of the [F] filters of [coef] at the
    points [xs]: an array of shape (F, N). *)
Definition series_values (coef : ndarray) (K F : nat) (xs : nat -> R) (N : nat)
  : ndarray :=
  mat F N (fun f n =>
    Fin (chebyshev_series (fun k => real_of (get coef [k; f])) 1 (xs n) K)).

(** What the loop of the recursive evaluator keeps, for a scalar signal:
    [x0] has the shape of [x], and [result] holds an array of that shape for
    each of the [F] filters. *)
Definition recurrence_shapes (x : ndarray) (F : nat) (st : recurrence) : Prop :=
  shape (x0 st) = shape x
  /\ shape (result st) = F :: shape x
  /\ well_formed (result st).

(** ** The graph Fourier transform ([pygsp/operators/transforms.py]) *)

Module Transforms.

(** The graph, as far as [gft] and [igft] look at it: its Fourier basis
    [G.U]. *)
Record Graph : Type := mk_Graph { U : ndarray }.

(** The first argument of [gft] and [igft]: a graph, or a Fourier basis. *)
Inductive graph_or_basis : Type :=
| AGraph (G : Graph)
| ABasis (U : ndarray).

(** [a.T]: the axes in reverse order. *)
Definition transpose (a : ndarray) : ndarray :=
  tabulate (rev (shape a)) (fun idx => get a (rev idx)).

(** [numpy.conjugate]: the arrays here hold real numbers, and a real number
    is its own conjugate. *)
Definition conjugate (v : num) : num := v.

Definition np_conjugate : ndarray -> ndarray := np_map conjugate.

(** [U = G.U if isinstance(G, Graph) else G] *)
Definition fourier_basis (G : graph_or_basis) : ndarray :=
  match G with
  | AGraph g => U g
  | ABasis u => u
  end.

Definition gft (G : graph_or_basis) (s : ndarray) : outcome ndarray :=
  let U := fourier_basis G in
  np_dot (np_conjugate (transpose U)) s.

Definition igft (G : graph_or_basis) (s_hat : ndarray) : outcome ndarray :=
  let U := fourier_basis G in
  np_dot U s_hat.

End Transforms.

(** The sum of [f 0], ..., [f (n - 1)]. *)
Fixpoint rsum (f : nat -> R) (n : nat) : R :=
  match n with
  | O => 0
  | S n' => rsum f n' + f n'
  end.

(** The sum of products that [np_dot] accumulates: [p 0 * q 0 + ...]. *)
Definition dot_sum (p q : nat -> num) (n : nat) : num :=
  fold_left (fun acc l => Num.add acc (Num.mul (p l) (q l))) (seq 0 n) (Fin 0).

(** A rotation of the plane, as a Fourier basis with orthonormal columns. *)
Definition example_basis : ndarray :=
  matrix 2 [[Fin (3 / 5); Fin (4 / 5)]; [Fin (-4 / 5); Fin (3 / 5)]].

(** * Properties *)

(** ** Indices and tabulated arrays *)

Section Indexing.

Lemma unravel_in_bounds (sh : list nat) :
  forall i, (i < size sh)%nat -> in_bounds sh (unravel sh i).
Proof.
  induction sh as [|d sh IH]; intros i Hi; simpl in *.
  - exact I.
  - assert (Hpos : (size sh <> 0)%nat) by (intro E; rewrite E in Hi; lia).
    split.
    + apply Nat.Div0.div_lt_upper_bound. lia.
    + apply IH. apply Nat.mod_upper_bound. exact Hpos.
Qed.

Lemma ravel_lt (sh : list nat) :
  forall idx, in_bounds sh idx -> (ravel sh idx < size sh)%nat.
Proof.
  induction sh as [|d sh IH]; intros [|i idx] H; simpl in *; try contradiction.
  - lia.
  - destruct H as [Hi H]. specialize (IH _ H). nia.
Qed.

Lemma unravel_ravel (sh : list nat) :
  forall idx, in_bounds sh idx -> unravel sh (ravel sh idx) = idx.
Proof.
  induction sh as [|d sh IH]; intros [|i idx] H; simpl in *; try contradiction.
  - reflexivity.
  - destruct H as [Hi H]. pose proof (ravel_lt _ _ H) as Hlt.
    f_equal.
    + rewrite Nat.div_add_l by lia. rewrite Nat.div_small by exact Hlt. lia.
    + rewrite Nat.add_comm, Nat.Div0.mod_add.
      rewrite Nat.mod_small by exact Hlt. apply IH. exact H.
Qed.

Lemma ravel_unravel (sh : list nat) :
  forall i, (i < size sh)%nat -> ravel sh (unravel sh i) = i.
Proof.
  induction sh as [|d sh IH]; intros i Hi; simpl in *.
  - lia.
  - assert (Hpos : (size sh <> 0)%nat) by (intro E; rewrite E in Hi; lia).
    rewrite IH by (apply Nat.mod_upper_bound; exact Hpos).
    pose proof (Nat.div_mod_eq i (size sh)). lia.
Qed.

Lemma get_tabulate (sh : list nat) (f : list nat -> num) (idx : list nat) :
  in_bounds sh idx -> get (tabulate sh f) idx = f idx.
Proof.
  intros H. unfold get, tabulate. simpl.
  pose proof (ravel_lt _ _ H) as Hlt.
  rewrite nth_indep with (d' := f (unravel sh 0))
    by (rewrite length_map, length_seq; exact Hlt).
  rewrite (map_nth (fun i => f (unravel sh i)) (seq 0 (size sh)) 0%nat).
  rewrite seq_nth by exact Hlt. simpl.
  rewrite unravel_ravel by exact H. reflexivity.
Qed.

Lemma tabulate_ext (sh : list nat) (f g : list nat -> num) :
  (forall idx, in_bounds sh idx -> f idx = g idx) ->
  tabulate sh f = tabulate sh g.
Proof.
  intros H. unfold tabulate. f_equal.
  apply map_ext_in. intros i Hi. apply in_seq in Hi.
  apply H. apply unravel_in_bounds. lia.
Qed.

Lemma tabulate_well_formed (sh : list nat) (f : list nat -> num) :
  well_formed (tabulate sh f).
Proof.
  unfold well_formed, tabulate. simpl. now rewrite length_map, length_seq.
Qed.

(** An array is determined by its shape and its elements. *)
Lemma ndarray_tabulate (a : ndarray) :
  well_formed a -> a = tabulate (shape a) (get a).
Proof.
  destruct a as [sh d]. unfold well_formed, tabulate, get. simpl. intros Hwf.
  f_equal.
  apply nth_ext with (d := NaN) (d' := NaN).
  - now rewrite length_map, length_seq.
  - intros n Hn. rewrite Hwf in Hn.
    set (g := fun i => nth (ravel sh (unravel sh i)) d NaN).
    rewrite (nth_indep (map g (seq 0 (size sh))) NaN (g 0%nat))
      by (rewrite length_map, length_seq; exact Hn).
    rewrite (map_nth g (seq 0 (size sh)) 0%nat).
    rewrite seq_nth by exact Hn. unfold g. simpl.
    now rewrite ravel_unravel.
Qed.

Lemma ndarray_ext (a b : ndarray) :
  well_formed a -> well_formed b -> shape a = shape b ->
  (forall idx, in_bounds (shape a) idx -> get a idx = get b idx) ->
  a = b.
Proof.
  intros Ha Hb Hsh H.
  rewrite (ndarray_tabulate a Ha), (ndarray_tabulate b Hb), <- Hsh.
  apply tabulate_ext. exact H.
Qed.

End Indexing.

(** ** Arrays of one and two dimensions *)

Ltac index_cases idx H :=
  repeat (destruct idx as [|? idx]; simpl in H; try (exfalso; tauto));
  repeat match goal with
         | Hc : _ /\ _ |- _ => destruct Hc
         end.

Section SmallArrays.

Lemma vec_ext (N : nat) (g h : nat -> num) :
  (forall n, (n < N)%nat -> g n = h n) -> vec N g = vec N h.
Proof.
  intros H. apply tabulate_ext. intros idx Hb. index_cases idx Hb.
  simpl. now apply H.
Qed.

Lemma mat_ext (F N : nat) (g h : nat -> nat -> num) :
  (forall f n, (f < F)%nat -> (n < N)%nat -> g f n = h f n) ->
  mat F N g = mat F N h.
Proof.
  intros H. apply tabulate_ext. intros idx Hb. index_cases idx Hb.
  simpl. now apply H.
Qed.

Lemma get_vec (N : nat) (g : nat -> num) (n : nat) :
  (n < N)%nat -> get (vec N g) [n] = g n.
Proof.
  intros H. unfold vec. rewrite get_tabulate; simpl; auto.
Qed.

Lemma get_mat (F N : nat) (g : nat -> nat -> num) (f n : nat) :
  (f < F)%nat -> (n < N)%nat -> get (mat F N g) [f; n] = g f n.
Proof.
  intros Hf Hn. unfold mat. rewrite get_tabulate; simpl; auto.
Qed.

Lemma get_col (F : nat) (g : nat -> num) (f : nat) :
  (f < F)%nat -> get (col F g) [f; 0%nat] = g f.
Proof.
  intros Hf. unfold col. rewrite get_tabulate; simpl; auto.
Qed.

Lemma vector_vec (l : list num) :
  vector l = vec (length l) (fun n => nth n l NaN).
Proof.
  apply ndarray_ext.
  - reflexivity || (unfold well_formed; simpl; lia).
  - apply tabulate_well_formed.
  - reflexivity.
  - intros idx Hb. simpl in Hb. index_cases idx Hb.
    rewrite get_vec by assumption.
    unfold get. simpl. f_equal. lia.
Qed.

Lemma broadcast_dim_refl (d : nat) : broadcast_dim d d = Some d.
Proof. unfold broadcast_dim. now rewrite Nat.eqb_refl. Qed.

Lemma broadcast_dim_1_l (d : nat) : broadcast_dim 1 d = Some d.
Proof.
  unfold broadcast_dim. destruct (Nat.eqb_spec 1 d); [now subst|reflexivity].
Qed.

Lemma broadcast_dim_1_r (d : nat) : broadcast_dim d 1 = Some d.
Proof.
  unfold broadcast_dim. destruct (Nat.eqb_spec d 1); [reflexivity|].
  reflexivity.
Qed.

Lemma unstretch (d i : nat) :
  (i < d)%nat -> (if (d =? 1)%nat then 0%nat else i) = i.
Proof. intros H. destruct (Nat.eqb_spec d 1); lia. Qed.

Lemma elementwise_vec_vec (op : num -> num -> num) (N : nat) (g h : nat -> num) :
  elementwise op (vec N g) (vec N h) = Ok (vec N (fun n => op (g n) (h n))).
Proof.
  unfold elementwise, broadcast_shapes. simpl.
  rewrite broadcast_dim_refl. simpl. f_equal.
  apply tabulate_ext. intros idx Hb. index_cases idx Hb.
  unfold operand_index. simpl. rewrite unstretch by assumption.
  now rewrite !get_vec.
Qed.

Lemma elementwise_scalar_vec (op : num -> num -> num) (v : num) (N : nat)
  (h : nat -> num) :
  elementwise op (scalar v) (vec N h) = Ok (vec N (fun n => op v (h n))).
Proof.
  unfold elementwise, broadcast_shapes. simpl. f_equal.
  apply tabulate_ext. intros idx Hb. index_cases idx Hb.
  unfold operand_index. simpl. rewrite unstretch by assumption.
  now rewrite get_vec.
Qed.

Lemma elementwise_vec_scalar (op : num -> num -> num) (v : num) (N : nat)
  (g : nat -> num) :
  elementwise op (vec N g) (scalar v) = Ok (vec N (fun n => op (g n) v)).
Proof.
  unfold elementwise, broadcast_shapes. simpl. f_equal.
  apply tabulate_ext. intros idx Hb. index_cases idx Hb.
  unfold operand_index. simpl. rewrite unstretch by assumption.
  now rewrite get_vec.
Qed.

Lemma elementwise_col_vec (op : num -> num -> num) (F N : nat)
  (g h : nat -> num) :
  elementwise op (col F g) (vec N h) = Ok (mat F N (fun f n => op (g f) (h n))).
Proof.
  unfold elementwise, broadcast_shapes. simpl.
  rewrite broadcast_dim_1_l. simpl. f_equal.
  apply tabulate_ext. intros idx Hb. index_cases idx Hb.
  unfold operand_index. simpl. rewrite !unstretch by assumption.
  now rewrite get_col, get_vec.
Qed.

Lemma elementwise_mat_mat (op : num -> num -> num) (F N : nat)
  (g h : nat -> nat -> num) :
  elementwise op (mat F N g) (mat F N h)
  = Ok (mat F N (fun f n => op (g f n) (h f n))).
Proof.
  unfold elementwise, broadcast_shapes. simpl.
  rewrite !broadcast_dim_refl. simpl. f_equal.
  apply tabulate_ext. intros idx Hb. index_cases idx Hb.
  unfold operand_index. simpl. rewrite !unstretch by assumption.
  now rewrite !get_mat.
Qed.

Lemma np_iadd_mat_mat (F N : nat) (g h : nat -> nat -> num) :
  np_iadd (mat F N g) (mat F N h)
  = Ok (mat F N (fun f n => Num.add (g f n) (h f n))).
Proof.
  unfold np_iadd, broadcast_shapes. simpl.
  rewrite !broadcast_dim_refl. simpl. rewrite !Nat.eqb_refl. simpl.
  apply elementwise_mat_mat.
Qed.

Lemma np_zeros_mat (F N : nat) : np_zeros [F; N] = mat F N (fun _ _ => Fin 0).
Proof.
  unfold np_zeros, mat, tabulate. f_equal.
  generalize (size [F; N]) as m. intros m.
  apply nth_ext with (d := Fin 0) (d' := Fin 0).
  - now rewrite repeat_length, length_map, length_seq.
  - intros n Hn. rewrite nth_repeat.
    now rewrite (map_nth (fun _ => Fin 0) (seq 0 m) 0%nat).
Qed.

Lemma np_ones_like_vec (N : nat) (g : nat -> num) :
  np_ones_like (vec N g) = vec N (fun _ => Fin 1).
Proof.
  unfold np_ones_like, vec, tabulate. simpl shape. f_equal.
  generalize (size [N]) as m. intros m.
  apply nth_ext with (d := Fin 1) (d' := Fin 1).
  - now rewrite repeat_length, length_map, length_seq.
  - intros n Hn. rewrite nth_repeat.
    now rewrite (map_nth (fun _ => Fin 1) (seq 0 m) 0%nat).
Qed.

Lemma np_map_vec (f : num -> num) (N : nat) (g : nat -> num) :
  np_map f (vec N g) = vec N (fun n => f (g n)).
Proof.
  unfold np_map, vec, tabulate. simpl. f_equal. now rewrite map_map.
Qed.

Lemma np_dot_vec_scalar (N : nat) (g : nat -> num) (v : num) :
  np_dot (vec N g) (scalar v) = Ok (vec N (fun n => Num.mul (g n) v)).
Proof. unfold np_dot. simpl. apply elementwise_vec_scalar. Qed.

End SmallArrays.

(** ** Views of the coefficient array *)

Section CoefficientViews.

Lemma getitem_get (a : ndarray) (d : nat) (sh : list nat) (k : nat) :
  shape a = d :: sh -> well_formed a -> (k < d)%nat ->
  getitem a k = Ok (tabulate sh (fun idx => get a (k :: idx))).
Proof.
  intros Hsh Hwf Hk. unfold getitem. rewrite Hsh.
  destruct (Nat.ltb_spec k d) as [_|]; [|lia]. f_equal.
  unfold well_formed in Hwf. rewrite Hsh in Hwf. simpl in Hwf.
  apply ndarray_ext.
  - unfold well_formed. simpl. rewrite length_firstn, length_skipn. nia.
  - apply tabulate_well_formed.
  - reflexivity.
  - simpl. intros idx Hb. rewrite get_tabulate by exact Hb.
    pose proof (ravel_lt _ _ Hb) as Hlt.
    unfold get. simpl. rewrite Hsh. simpl.
    rewrite nth_firstn. destruct (Nat.ltb_spec (ravel sh idx) (size sh)); [|lia].
    now rewrite nth_skipn.
Qed.

(** Row [k] of a (K, F) coefficient array, seen through the view of shape
    (K, F, 1) that both evaluators take when [x] is 1-d. *)
Lemma getitem_coefficients (coef : ndarray) (K F k : nat) :
  shape coef = [K; F] -> well_formed coef -> (k < K)%nat ->
  getitem (reshape_append_ones coef 1) k
  = Ok (col F (fun f => get coef [k; f])).
Proof.
  intros Hsh Hwf Hk.
  rewrite (getitem_get _ K [F; 1%nat]).
  - f_equal. apply tabulate_ext. intros idx Hb. index_cases idx Hb.
    unfold get. simpl. rewrite Hsh. simpl. f_equal. lia.
  - simpl. now rewrite Hsh.
  - unfold well_formed in *. simpl. rewrite Hsh in *. simpl in *. lia.
  - exact Hk.
Qed.

End CoefficientViews.

(** ** The evaluators on an array of points *)

Lemma recurrence_state_0 (sv xv : num) : recurrence_state sv xv 0 = Fin 1.
Proof. reflexivity. Qed.

Lemma recurrence_state_1 (sv xv : num) : recurrence_state sv xv 1 = xv.
Proof. reflexivity. Qed.

Lemma recurrence_pair_snd (sv xv : num) (k : nat) :
  snd (recurrence_pair sv xv k) = recurrence_state sv xv (S k).
Proof.
  unfold recurrence_state. simpl. now destruct (recurrence_pair sv xv k).
Qed.

Lemma recurrence_state_SS (sv xv : num) (k : nat) :
  recurrence_state sv xv (S (S k))
  = Num.sub (Num.mul (Num.mul (Fin 2) (Num.mul xv sv))
                     (recurrence_state sv xv (S k)))
            (recurrence_state sv xv k).
Proof.
  rewrite <- (recurrence_pair_snd sv xv (S k)). simpl.
  pose proof (recurrence_pair_snd sv xv k) as Hs.
  unfold recurrence_state at 2.
  destruct (recurrence_pair sv xv k) as [a b]. simpl in *. now subst.
Qed.

Section OnPoints.

Variable self : Chebyshev.
Variable coef : ndarray.
Variables K F : nat.
Hypothesis Hcoef : _coefficients self = Some coef.
Hypothesis Hshape : shape coef = [K; F].
Hypothesis Hwf : well_formed coef.

(** The points [x], an array of [N] elements, and the scalar signal [s]. *)
Variable N : nat.
Variable xv : nat -> num.
Variable sv : num.

Let x := vec N xv.
Let s := scalar sv.
Let c := reshape_append_ones coef 1.
Let cf (f k : nat) := get coef [k; f].

Lemma recurrence_loop (m : nat) :
  forall i, (S (S i) + m <= K)%nat ->
  for_each (seq (S (S i)) m) (recurrence_step c x s)
    (mk_recurrence
       (vec N (fun n => recurrence_state sv (xv n) i))
       (Some (vec N (fun n => recurrence_state sv (xv n) (S i))))
       (mat F N (fun f n => recursive_sum (cf f) sv (xv n) (S (S i)))))
  = Ok (mk_recurrence
       (vec N (fun n => recurrence_state sv (xv n) (i + m)))
       (Some (vec N (fun n => recurrence_state sv (xv n) (S (i + m)))))
       (mat F N (fun f n => recursive_sum (cf f) sv (xv n) (S (S (i + m)))))).
Proof.
  induction m as [|m IH]; intros i Hi.
  - simpl. now rewrite Nat.add_0_r.
  - cbn [seq for_each]. unfold recurrence_step at 1. cbn [x0 x1 result load_x1].
    unfold x at 1, s at 1. rewrite np_dot_vec_scalar. cbn [obind].
    unfold np_mul, np_sub. rewrite elementwise_scalar_vec. cbn [obind].
    rewrite elementwise_vec_vec. cbn [obind].
    rewrite elementwise_vec_vec. cbn [obind].
    unfold c at 1. rewrite (getitem_coefficients coef K F) by (auto; lia).
    cbn [obind]. rewrite elementwise_col_vec. cbn [obind].
    rewrite np_iadd_mat_mat. cbn [obind].
    replace (i + S m)%nat with (S i + m)%nat by lia.
    rewrite <- (IH (S i)) by lia.
    f_equal. f_equal.
    + f_equal. apply vec_ext. intros n _. now rewrite recurrence_state_SS.
    + apply mat_ext. intros f n _ _. cbn [recursive_sum].
      now rewrite recurrence_state_SS.
Qed.

(** [_evaluate_recursive] on an array of points, element by element. *)
Lemma evaluate_recursive_on_points :
  (1 <= K)%nat ->
  _evaluate_recursive self x s
  = Ok (mat F N (fun f n => recursive_sum (cf f) sv (xv n) K)).
Proof.
  intros HK. unfold _evaluate_recursive, get_coefficients.
  rewrite Hcoef. cbn [obind]. rewrite Hshape. cbn [shape_at nth_error obind].
  replace (ndim x) with 1%nat by reflexivity. fold c.
  unfold recurrence_init. unfold x at 1. rewrite np_ones_like_vec.
  unfold c at 1. rewrite (getitem_coefficients coef K F) by (auto; lia).
  cbn [obind]. unfold s at 1. rewrite np_dot_vec_scalar. cbn [obind].
  unfold np_mul. rewrite elementwise_col_vec. cbn [obind].
  destruct (Nat.ltb_spec 1 K) as [H1|H1].
  - unfold c at 1. rewrite (getitem_coefficients coef K F) by (auto; lia).
    cbn [obind]. unfold x at 1. rewrite elementwise_col_vec. cbn [obind].
    rewrite np_iadd_mat_mat. cbn [obind].
    unfold range. 
    pose proof (recurrence_loop (K - 2) 0) as Hloop.
    replace (0 + (K - 2))%nat with (K - 2)%nat in Hloop by lia.
    replace (S (S (K - 2))) with K in Hloop by lia.
    match goal with
    | |- obind (for_each _ _ ?st) _ = _ =>
        replace st with
          (mk_recurrence
             (vec N (fun n => recurrence_state sv (xv n) 0))
             (Some (vec N (fun n => recurrence_state sv (xv n) 1)))
             (mat F N (fun f n => recursive_sum (cf f) sv (xv n) 2)))
    end.
    + rewrite Hloop by lia. reflexivity.
    + unfold x. rewrite np_ones_like_vec. reflexivity.
  - assert (K = 1%nat) by lia. subst K. reflexivity.
Qed.

Lemma direct_loop (m : nat) :
  forall j, (j + m <= K)%nat ->
  for_each (seq j m)
    (fun k result =>
       ck <- getitem c k ;;
       kx <- np_mul (scalar (Num.of_nat k)) (np_arccos x) ;;
       t <- np_dot (np_cos kx) s ;;
       term <- np_mul ck t ;;
       np_iadd result term)%outcome
    (mat F N (fun f n => direct_sum (cf f) sv (xv n) j))
  = Ok (mat F N (fun f n => direct_sum (cf f) sv (xv n) (j + m))).
Proof.
  induction m as [|m IH]; intros j Hj.
  - simpl. now rewrite Nat.add_0_r.
  - cbn [seq for_each].
    unfold c at 1. rewrite (getitem_coefficients coef K F) by (auto; lia).
    cbn [obind]. unfold x at 1, np_arccos, np_cos. rewrite np_map_vec.
    unfold np_mul. rewrite elementwise_scalar_vec. cbn [obind].
    rewrite np_map_vec. unfold s at 1. rewrite np_dot_vec_scalar. cbn [obind].
    rewrite elementwise_col_vec. cbn [obind].
    rewrite np_iadd_mat_mat. cbn [obind].
    replace (j + S m)%nat with (S j + m)%nat by lia.
    rewrite <- (IH (S j)) by lia. reflexivity.
Qed.

(** [_evaluate_direct] on an array of points, element by element. *)
Lemma evaluate_direct_on_points :
  _evaluate_direct self x s
  = Ok (mat F N (fun f n => direct_sum (cf f) sv (xv n) K)).
Proof.
  unfold _evaluate_direct, get_coefficients.
  rewrite Hcoef. cbn [obind]. rewrite Hshape. cbn [unpack2 obind].
  replace (ndim x) with 1%nat by reflexivity. fold c.
  replace (shape x) with [N] by reflexivity. cbn [shape_at nth_error obind].
  rewrite np_zeros_mat. unfold range. rewrite Nat.sub_0_r.
  exact (direct_loop K 0 (Nat.le_refl K)).
Qed.

End OnPoints.

(** ** Chebyshev polynomials *)

Section Chebyshev.

Lemma chebyshev_T_SS (k : nat) (x : R) :
  chebyshev_T (S (S k)) x = 2 * x * chebyshev_T (S k) x - chebyshev_T k x.
Proof.
  unfold chebyshev_T. simpl.
  destruct (chebyshev_pair x k) as [a b]. reflexivity.
Qed.

Lemma cos_three_term (k : nat) (t : R) :
  Rtrigo_def.cos (INR (S (S k)) * t)
  = 2 * Rtrigo_def.cos t * Rtrigo_def.cos (INR (S k) * t)
    - Rtrigo_def.cos (INR k * t).
Proof.
  replace (INR (S (S k)) * t) with (INR (S k) * t + t)
    by (rewrite (S_INR (S k)); ring).
  replace (INR k * t) with (INR (S k) * t - t) by (rewrite (S_INR k); ring).
  rewrite cos_plus, cos_minus. ring.
Qed.

(** On [-1, 1] the closed form of the direct method is the polynomial. *)
Lemma cos_arccos_chebyshev (x : R) :
  -1 <= x <= 1 ->
  forall k, Rtrigo_def.cos (INR k * acos x) = chebyshev_T k x.
Proof.
  intros Hx.
  assert (H : forall k,
             Rtrigo_def.cos (INR k * acos x) = chebyshev_T k x
             /\ Rtrigo_def.cos (INR (S k) * acos x) = chebyshev_T (S k) x).
  { induction k as [|k [IH0 IH1]].
    - split.
      + simpl. rewrite Rmult_0_l. apply cos_0.
      + simpl INR. rewrite Rmult_1_l. unfold chebyshev_T. simpl.
        apply cos_acos. exact Hx.
    - split; [exact IH1|].
      rewrite cos_three_term, chebyshev_T_SS, IH0, IH1.
      rewrite cos_acos by exact Hx. reflexivity. }
  intros k. apply H.
Qed.

(** With the default signal the locals of the recurrence are the
    polynomials. *)
Lemma recurrence_state_chebyshev (x : R) (k : nat) :
  recurrence_state (Fin 1) (Fin x) k = Fin (chebyshev_T k x).
Proof.
  assert (H : recurrence_state (Fin 1) (Fin x) k = Fin (chebyshev_T k x)
              /\ recurrence_state (Fin 1) (Fin x) (S k)
                 = Fin (chebyshev_T (S k) x)).
  { induction k as [|k [IH0 IH1]].
    - split; reflexivity.
    - split; [exact IH1|].
      rewrite recurrence_state_SS, IH0, IH1, chebyshev_T_SS. simpl.
      f_equal. ring. }
  apply H.
Qed.

Lemma direct_term_chebyshev (x : R) (k : nat) :
  -1 <= x <= 1 ->
  direct_term (Fin 1) (Fin x) k = Fin (chebyshev_T k x).
Proof.
  intros Hx. unfold direct_term, Num.arccos.
  destruct (Rle_dec (-1) x) as [_|Hn]; [|lra].
  destruct (Rle_dec x 1) as [_|Hn]; [|lra].
  simpl. rewrite cos_arccos_chebyshev by exact Hx. f_equal. ring.
Qed.

Lemma add_0_l (a : num) : Num.add (Fin 0) a = a.
Proof. destruct a; simpl; [f_equal; ring|reflexivity]. Qed.

(** The two sums agree term by term on [-1, 1], for any coefficients. *)
Lemma direct_sum_recursive_sum (c : nat -> num) (x : R) (K : nat) :
  -1 <= x <= 1 -> (1 <= K)%nat ->
  direct_sum c (Fin 1) (Fin x) K = recursive_sum c (Fin 1) (Fin x) K.
Proof.
  intros Hx HK. destruct K as [|K]; [lia|]. clear HK.
  induction K as [|K IH].
  - cbn [direct_sum recursive_sum]. rewrite add_0_l.
    rewrite direct_term_chebyshev by exact Hx.
    simpl. destruct (c 0%nat); simpl; [f_equal; unfold chebyshev_T; simpl; ring
                                      |reflexivity].
  - cbn [direct_sum recursive_sum] in *. rewrite IH.
    rewrite direct_term_chebyshev by exact Hx.
    now rewrite !recurrence_state_chebyshev.
Qed.

End Chebyshev.

(** ** Direct and recursive evaluation *)


(** ** The signal in the recursive evaluator *)

(** Equality of two arrays given by their elements, after evaluation. *)
Ltac array_eq :=
  vm_compute;
  repeat match goal with
         | |- Ok _ = Ok _ => apply f_equal
         | |- mk_ndarray _ _ = mk_ndarray _ _ => apply f_equal
         | |- _ :: _ = _ :: _ => apply f_equal2
         | |- @nil _ = @nil _ => reflexivity
         | |- Fin _ = Fin _ => apply f_equal; lra
         | |- NaN = NaN => reflexivity
         end.

(** With the default signal the recurrence is the three-term recurrence, and
    the result the Chebyshev series, at every point. *)
Lemma recursive_sum_chebyshev_series (c : nat -> R) (x : R) (K : nat) :
  (1 <= K)%nat ->
  recursive_sum (fun k => Fin (c k)) (Fin 1) (Fin x) K
  = Fin (chebyshev_series c 1 x K).
Proof.
  intros HK. destruct K as [|K]; [lia|]. clear HK.
  induction K as [|K IH].
  - simpl. f_equal. unfold chebyshev_T. simpl. ring.
  - change (recursive_sum (fun k => Fin (c k)) (Fin 1) (Fin x) (S (S K)))
      with (Num.add (recursive_sum (fun k => Fin (c k)) (Fin 1) (Fin x) (S K))
              (Num.mul (Fin (c (S K)))
                 (recurrence_state (Fin 1) (Fin x) (S K)))).
    rewrite IH, recurrence_state_chebyshev.
    change (chebyshev_series c 1 x (S (S K)))
      with (chebyshev_series c 1 x (S K)
            + c (S K) * (chebyshev_T (S K) x * 1)).
    simpl. f_equal. ring.
Qed.

(** C1, evaluated where it fails.  For the filter [T_2], the point (or 1 x 1
    operator) [x = 1] and the signal [s = 2]: the recurrence holds [x1 = x]
    and [x2 = 2 (x . s) x1 - x0 = 3], and the result is 3, where
    [T_1 . s = 2] and [T_2 . s = 2]; on a 2 x 2 operator the evaluator
    raises. *)
Theorem recurrence_misapplies_signal :
  recurrence_state (Fin 2) (Fin 1) 1 = Fin 1
  /\ chebyshev_T 1 1 * 2 = 2
  /\ recurrence_state (Fin 2) (Fin 1) 2 = Fin 3
  /\ chebyshev_T 2 1 * 2 = 2
  /\ _evaluate_recursive example_T2 (vector [Fin 1]) (scalar (Fin 2))
     = Ok (mk_ndarray [1; 1]%nat [Fin 3])
  /\ chebyshev_series coefficients_T2 2 1 3 = 2
  /\ _evaluate_recursive example_T2 (matrix 1 [[Fin 1]]) (vector [Fin 2])
     = Ok (mk_ndarray [1; 1; 1]%nat [Fin 3])
  /\ _evaluate_recursive example_T2 identity2 (vector [Fin 1; Fin 0])
     = Raise ValueError.
Proof.
  repeat split.
  - unfold chebyshev_T. simpl. lra.
  - vm_compute. f_equal. lra.
  - unfold chebyshev_T. simpl. lra.
  - array_eq.
  - unfold chebyshev_series, coefficients_T2, chebyshev_T. simpl. lra.
  - array_eq.
Qed.

(** C7, evaluated where it fails.  With two rows [c_0 = c_1 = 1], [x = 1] and
    [s = 2] the evaluator returns [c_0 s + c_1 x = 3], not
    [c_0 s + c_1 (x . s) = 4]; with one row [c_0 = 1], the 2 x 2 identity
    operator and [s = (1, 0)] it returns [(1, 1)], not [c_0 s = (1, 0)]. *)
Theorem low_orders_misapply_signal :
  _evaluate_recursive example_order1 (vector [Fin 1]) (scalar (Fin 2))
  = Ok (mk_ndarray [1; 1]%nat [Fin 3])
  /\ chebyshev_series (fun _ => 1) 2 1 2 = 4
  /\ _evaluate_recursive example_order0 identity2 (vector [Fin 1; Fin 0])
     = Ok (mk_ndarray [1; 1; 2]%nat [Fin 1; Fin 1]).
Proof.
  repeat split.
  - array_eq.
  - unfold chebyshev_series, chebyshev_T. simpl. lra.
  - array_eq.
Qed.

(** What holds of C7: on an array of points and for a scalar signal, one row
    of coefficients gives [c_0 * (1 * s)] at every point. *)
Lemma order0_on_points
  (self : Chebyshev) (coef : ndarray) (F N : nat) (xv : nat -> num) (sv : num) :
  _coefficients self = Some coef ->
  shape coef = [1%nat; F] ->
  well_formed coef ->
  _evaluate_recursive self (vec N xv) (scalar sv)
  = Ok (mat F N (fun f _ => Num.mul (get coef [0%nat; f]) (Num.mul (Fin 1) sv))).
Proof.
  intros Hcoef Hshape Hwf.
  now rewrite (evaluate_recursive_on_points self coef 1 F Hcoef Hshape Hwf).
Qed.

(** ** The operator entry point *)

Lemma bind_lift {A B : Type} (o : outcome A) (k : A -> M B) (log : list event) :
  bind (lift o) k log
  = match o with
    | Ok a => k a log
    | Raise e => (Raise e, log)
    end.
Proof. unfold bind, lift. now destruct o. Qed.

Lemma invoke_run (name : string) (body : outcome ndarray) (log : list event) :
  invoke name body log = (body, log ++ [Call name]).
Proof. unfold invoke, bind, emit, lift. reflexivity. Qed.

(** C5: whatever the signal and the method, [_filter] raises before it
    produces a result: its first statement reads the local [L], which no
    statement has bound.  The exception is an UnboundLocalError, which is a
    NameError; nothing is logged and no evaluator is invoked. *)
Theorem filter_raises_NameError
  (self : Chebyshev) (s : ndarray) (method : option string) (unused : pyval)
  (log : list event) :
  _filter self s method unused log = (Raise (UnboundLocalError "L"), log)
  /\ exn_isinstance (UnboundLocalError "L") "NameError" = true.
Proof. split; reflexivity. Qed.

(** In any frame, the body of [_filter] invokes at most one evaluator, the
    direct one. *)
Lemma filter_body_events (fr : frame pyval) (log : list event) :
  exists evs,
    snd (_filter_body fr log) = log ++ evs
    /\ (evs = [] \/ evs = [Call "_evaluate_direct"]).
Proof.
  unfold _filter_body.
  repeat (rewrite bind_lift;
          match goal with
          | |- context [match ?o with Ok _ => _ | Raise _ => _ end] =>
              destruct o
          end;
          [|exists []; split; [simpl; now rewrite app_nil_r|now left]]).
  rewrite invoke_run. eexists. split; [reflexivity|now right].
Qed.

(** The binding of [method] is not read. *)
Lemma filter_body_ignores_method (fr : frame pyval) (v1 v2 : pyval) :
  _filter_body (("method"%string, v1) :: fr)
  = _filter_body (("method"%string, v2) :: fr).
Proof. reflexivity. Qed.

(** ** The scalar entry point *)

Lemma points_vec (rs : list R) :
  points rs = vec (length rs) (fun n => Fin (nth n rs 0)).
Proof.
  unfold points. rewrite vector_vec, length_map.
  apply vec_ext. intros n Hn.
  rewrite (nth_indep _ NaN (Fin 0)) by (now rewrite length_map).
  apply (map_nth Fin).
Qed.

Lemma rescale_on_points (self : Chebyshev) (N : nat) (r : nat -> R) :
  lmax (G self) <> 0 ->
  rescale self (vec N (fun n => Fin (r n)))
  = Ok (vec N (fun n => Fin (2 * r n / lmax (G self) - 1))).
Proof.
  intros Hl. unfold rescale, np_mul, np_div, np_sub.
  rewrite elementwise_scalar_vec. cbn [obind].
  rewrite elementwise_vec_scalar. cbn [obind].
  rewrite elementwise_vec_scalar. f_equal.
  apply vec_ext. intros n _. simpl.
  destruct (Req_dec_T (lmax (G self)) 0) as [E|_]; [contradiction|reflexivity].
Qed.

(** [method] selects the evaluator of the scalar entry point; the recursive
    one is the default. *)
Lemma evaluate_dispatch
  (self : Chebyshev) (x x' : ndarray) (outside : bool) (log : list event) :
  outside_domain self x = Ok outside ->
  rescale self x = Ok x' ->
  _evaluate self x None log
  = (evaluate_recursive_on self (ufunc_result x') default_s,
     (log ++ warnings_of self outside) ++ [Call "_evaluate_recursive"])
  /\ _evaluate self x (Some "recursive"%string) log
     = (evaluate_recursive_on self (ufunc_result x') default_s,
        (log ++ warnings_of self outside) ++ [Call "_evaluate_recursive"])
  /\ _evaluate self x (Some "direct"%string) log
     = (evaluate_direct_on self (ufunc_result x') default_s,
        (log ++ warnings_of self outside) ++ [Call "_evaluate_direct"]).
Proof.
  intros Hout Hres. unfold _evaluate.
  rewrite !bind_lift, Hout.
  assert (Hw : forall (k : unit -> M ndarray),
             bind (if outside
                   then emit (Warning domain_warning (lmax (G self)))
                   else ret tt) k log
             = k tt (log ++ warnings_of self outside)).
  { intros k. destruct outside; unfold bind, emit, ret, warnings_of.
    - reflexivity.
    - now rewrite app_nil_r. }
  rewrite !Hw, !bind_lift, Hres. cbn [append].
  repeat split; rewrite bind_lift; simpl; now rewrite invoke_run.
Qed.

Lemma example_rescale :
  rescale example_order2 (points [1])
  = Ok (vec 1 (fun n => Fin (2 * nth n [1] 0 / 4 - 1))).
Proof.
  rewrite points_vec.
  apply (rescale_on_points example_order2 1 (fun n => nth n [1] 0)).
  simpl. lra.
Qed.

(** C4, evaluated where it fails.  On the 1 x 1 operator [L = (1)] with
    [lmax = 4], line 71 computes [2 L - lmax / 2 - I = -1], where the
    specification and the scalar entry point have [2 L / lmax - I = -1/2];
    and [_filter] raises before it reaches that line. *)
Theorem filter_rescaling_differs :
  filter_rescale example_order2 (matrix 1 [[Fin 1]]) (identity 1)
  = Ok (mk_ndarray [1; 1]%nat [Fin (-1)])
  /\ rescaled_operator 4 (matrix 1 [[Fin 1]]) (identity 1)
     = Ok (mk_ndarray [1; 1]%nat [Fin (-1 / 2)])
  /\ rescale example_order2 (points [1])
     = Ok (vec 1 (fun n => Fin (2 * nth n [1] 0 / 4 - 1)))
  /\ _filter example_order2 (points [1]) None VNone []
     = (Raise (UnboundLocalError "L"), []).
Proof.
  split; [|split; [|split]].
  - array_eq.
  - array_eq.
  - exact example_rescale.
  - reflexivity.
Qed.

(** ** Evaluation outside of the domain *)

Section OutsideDomain.

Lemma fold_min_fin (rs : list R) :
  forall r0, fold_left Num.min (map Fin rs) (Fin r0) = Fin (fold_left Rmin rs r0).
Proof. induction rs as [|r rs IH]; intros r0; simpl; [reflexivity|apply IH]. Qed.

Lemma fold_max_fin (rs : list R) :
  forall r0, fold_left Num.max (map Fin rs) (Fin r0) = Fin (fold_left Rmax rs r0).
Proof. induction rs as [|r rs IH]; intros r0; simpl; [reflexivity|apply IH]. Qed.





Lemma arccos_outside (v : R) : ~ (-1 <= v <= 1) -> Num.arccos (Fin v) = NaN.
Proof.
  intros H. unfold Num.arccos.
  destruct (Rle_dec (-1) v); [|reflexivity].
  destruct (Rle_dec v 1); [|reflexivity]. lra.
Qed.

Lemma add_NaN_r (a : num) : Num.add a NaN = NaN.
Proof. now destruct a. Qed.

Lemma mul_NaN_r (a : num) : Num.mul a NaN = NaN.
Proof. now destruct a. Qed.

(** Outside of [-1, 1] every partial sum of the direct method is [nan]. *)
Lemma direct_sum_outside (c : nat -> num) (sv : num) (v : R) (K : nat) :
  ~ (-1 <= v <= 1) -> (1 <= K)%nat ->
  direct_sum c sv (Fin v) K = NaN.
Proof.
  intros Hv HK. destruct K as [|K]; [lia|].
  simpl. unfold direct_term. rewrite arccos_outside by exact Hv.
  simpl. now rewrite mul_NaN_r, add_NaN_r.
Qed.

Lemma get_finite (a : ndarray) (idx : list nat) :
  well_formed a -> Forall is_finite (data a) -> in_bounds (shape a) idx ->
  is_finite (get a idx).
Proof.
  intros Hwf Hall Hb. unfold get.
  apply (proj1 (Forall_nth is_finite (data a)) Hall).
  rewrite Hwf. now apply ravel_lt.
Qed.

End OutsideDomain.

Section EvaluateOnPoints.

Variable self : Chebyshev.
Variable coef : ndarray.
Variables K F : nat.
Hypothesis Hcoef : _coefficients self = Some coef.
Hypothesis Hshape : shape coef = [K; F].
Hypothesis Hwf : well_formed coef.
Hypothesis Hlmax : lmax (G self) <> 0.

Variable rs : list R.
Variable outside : bool.
Hypothesis Houtside : outside_domain self (points rs) = Ok outside.

(** The rescaled point of index [n]. *)
Let rescaled (n : nat) : num := Fin (2 * nth n rs 0 / lmax (G self) - 1).

Lemma rescale_points :
  rescale self (points rs) = Ok (vec (length rs) rescaled).
Proof. rewrite points_vec. now apply rescale_on_points. Qed.

(** A 1-d array stays an array. *)
Lemma ufunc_result_vec (N : nat) (g : nat -> num) :
  ufunc_result (vec N g) = NdArray (vec N g).
Proof. reflexivity. Qed.

(** [_evaluate] with the recursive method, element by element. *)
Lemma evaluate_recursive_method (method : option string) (log : list event) :
  (1 <= K)%nat ->
  method = None \/ method = Some "recursive"%string ->
  _evaluate self (points rs) method log
  = (Ok (mat F (length rs)
           (fun f n =>
              recursive_sum (fun k => get coef [k; f]) (Fin 1) (rescaled n) K)),
     (log ++ warnings_of self outside) ++ [Call "_evaluate_recursive"]).
Proof.
  intros HK Hm.
  destruct (evaluate_dispatch self (points rs) _ outside log
              Houtside rescale_points) as [H0 [H1 _]].
  destruct Hm as [-> | ->]; [rewrite H0|rewrite H1]; f_equal;
    rewrite ufunc_result_vec; unfold evaluate_recursive_on, default_s;
    now rewrite (evaluate_recursive_on_points self coef K F Hcoef Hshape Hwf).
Qed.

(** [_evaluate] with the direct method, element by element. *)
Lemma evaluate_direct_method (log : list event) :
  _evaluate self (points rs) (Some "direct"%string) log
  = (Ok (mat F (length rs)
           (fun f n =>
              direct_sum (fun k => get coef [k; f]) (Fin 1) (rescaled n) K)),
     (log ++ warnings_of self outside) ++ [Call "_evaluate_direct"]).
Proof.
  destruct (evaluate_dispatch self (points rs) _ outside log
              Houtside rescale_points) as [_ [_ H2]].
  rewrite H2. f_equal. rewrite ufunc_result_vec.
  unfold evaluate_direct_on, default_s. cbn [array_of].
  now rewrite (evaluate_direct_on_points self coef K F Hcoef Hshape Hwf).
Qed.

End EvaluateOnPoints.

(** ** Construction *)

(** C8, amended: the constructor validates neither [lmax] nor the number of
    filters.  For every graph, whatever its [lmax], and every coefficient
    array with at least two dimensions it succeeds, keeps the array as it is
    and takes the number of filters from the array's second dimension; with a
    [Filter] object it succeeds as well; and its only failure is the
    IndexError of [shape[1]] on an array with fewer than two dimensions. *)
Theorem init_validates_nothing (g : Graph) (ord : Z) :
  (forall a d0 d1 rest,
      shape a = d0 :: d1 :: rest ->
      __init__ g (ArrayLike a) ord = Ok (mk_Chebyshev g ord (Some a) (Some d1)))
  /\ (forall nf,
         __init__ g (FilterObject nf) ord = Ok (mk_Chebyshev g ord None (Some nf)))
  /\ (forall filters e,
         __init__ g filters ord = Raise e ->
         e = IndexError /\ (ndim (np_asarray filters) < 2)%nat).
Proof.
  split; [|split].
  - intros a d0 d1 rest Hsh. unfold __init__. simpl. now rewrite Hsh.
  - reflexivity.
  - intros [nf|a] e; unfold __init__; simpl; [discriminate|].
    unfold shape_at, ndim.
    destruct (shape a) as [|d0 [|d1 rest]]; simpl; intros H;
      inversion H; split; auto; lia.
Qed.

Lemma init_validates_nothing_witness :
  __init__ (mk_Graph (-1)) (ArrayLike (matrix 2 [[Fin 1; Fin 2]])) default_order
  = Ok (mk_Chebyshev (mk_Graph (-1)) default_order
          (Some (matrix 2 [[Fin 1; Fin 2]])) (Some 2%nat)).
Proof.
  apply (proj1 (init_validates_nothing (mk_Graph (-1)) default_order)
           (matrix 2 [[Fin 1; Fin 2]]) 1%nat 2%nat []).
  reflexivity.
Defined.

(** C8 as stated fails: with [lmax = 0] construction succeeds. *)
Lemma init_validates_nothing_counterexample :
  lmax (mk_Graph 0) <= 0
  /\ exists self,
       __init__ (mk_Graph 0) (ArrayLike (matrix 1 [[Fin 1]])) default_order
       = Ok self.
Proof. split; [simpl; lra|eexists; reflexivity]. Qed.

(** ** Rows and order *)

(** C9, amended: on a coefficient array without rows the recursive evaluator
    fails with the IndexError of [c[0]]; the stored order is never read, so
    that the outcome is the same for every order. *)
Theorem evaluate_recursive_rows_and_order (self : Chebyshev) (x s : ndarray) :
  (forall coef rest,
      _coefficients self = Some coef ->
      shape coef = 0%nat :: rest ->
      _evaluate_recursive self x s = Raise IndexError)
  /\ (forall ord,
         _evaluate_recursive (with_order self ord) x s
         = _evaluate_recursive self x s).
Proof.
  split.
  - intros coef rest Hcoef Hsh.
    unfold _evaluate_recursive, get_coefficients. rewrite Hcoef. cbn [obind].
    rewrite Hsh. cbn [shape_at nth_error obind].
    unfold recurrence_init, getitem, reshape_append_ones. cbn [shape].
    rewrite Hsh. reflexivity.
  - reflexivity.
Qed.

Lemma evaluate_recursive_rows_and_order_witness :
  _evaluate_recursive example_no_rows (points [1]) default_s = Raise IndexError.
Proof.
  apply (proj1 (evaluate_recursive_rows_and_order example_no_rows
                  (points [1]) default_s)
           (mk_ndarray [0; 1]%nat []) [1%nat]); reflexivity.
Defined.

(** C9 as stated fails: one row of coefficients under the default order 30
    is evaluated, not rejected. *)
Lemma evaluate_recursive_rows_and_order_counterexample :
  order example_order0 = 30%Z
  /\ option_map shape (_coefficients example_order0) = Some [1; 1]%nat
  /\ _evaluate_recursive example_order0 (points [1]) default_s
     = Ok (mk_ndarray [1; 1]%nat [Fin 1]).
Proof.
  split; [reflexivity|]. split; [reflexivity|]. array_eq.
Qed.

(** ** The store is framed *)

Section Frames.

Import Store.

Lemma extends_refl (st : state) : extends st st.
Proof. split; [reflexivity|exists []; now rewrite app_nil_r]. Qed.

Lemma extends_trans (st1 st2 st3 : state) :
  extends st1 st2 -> extends st2 st3 -> extends st1 st3.
Proof.
  intros [Ha [n1 H1]] [Hb [n2 H2]]. split; [congruence|].
  exists (n1 ++ n2). now rewrite H2, H1, app_assoc.
Qed.

Lemma set_nth_app_r {A : Type} (l1 l2 : list A) (n : nat) (x : A) :
  (length l1 <= n)%nat ->
  set_nth (l1 ++ l2) n x = l1 ++ set_nth l2 (n - length l1) x.
Proof.
  revert n. induction l1 as [|y l1 IH]; intros n Hn; simpl in *.
  - now rewrite Nat.sub_0_r.
  - destruct n as [|n]; [lia|]. simpl. f_equal. apply IH. lia.
Qed.

Lemma frames_ret {A : Type} (st0 : state) (a : A) (P : A -> Prop) :
  P a -> frames st0 (ret a) P.
Proof.
  intros HP st Hext. simpl. split; [exact Hext|].
  intros a' E. now inversion E; subst.
Qed.

Lemma frames_bind {A B : Type} (st0 : state) (m : St A) (k : A -> St B)
  (P : A -> Prop) (Q : B -> Prop) :
  frames st0 m P ->
  (forall a, P a -> frames st0 (k a) Q) ->
  frames st0 (bind m k) Q.
Proof.
  intros Hm Hk st Hext. unfold bind.
  destruct (Hm st Hext) as [Hext' HP].
  destruct (m st) as [[a|e] st']; simpl in *.
  - exact (Hk a (HP a eq_refl) st' Hext').
  - split; [exact Hext'|discriminate].
Qed.

Lemma frames_weaken {A : Type} (st0 : state) (m : St A) (P Q : A -> Prop) :
  frames st0 m P -> (forall a, P a -> Q a) -> frames st0 m Q.
Proof.
  intros Hm HPQ st Hext. destruct (Hm st Hext) as [H1 H2].
  split; [exact H1|]. intros a E. apply HPQ, H2, E.
Qed.

Lemma frames_lift {A : Type} (st0 : state) (o : outcome A) :
  frames st0 (lift o) (fun _ => True).
Proof. intros st Hext. simpl. split; [exact Hext|trivial]. Qed.

Lemma frames_read (st0 : state) (a : array) :
  frames st0 (read a) (fun _ => True).
Proof. intros st Hext. simpl. split; [exact Hext|trivial]. Qed.

Lemma frames_getattr_G (st0 : state) : frames st0 getattr_G (fun _ => True).
Proof. intros st Hext. simpl. split; [exact Hext|trivial]. Qed.

Lemma frames_getattr_coefficients (st0 : state) :
  frames st0 getattr_coefficients (fun _ => True).
Proof. intros st Hext. simpl. split; [exact Hext|trivial]. Qed.

Lemma frames_emit (st0 : state) (e : event) :
  frames st0 (emit e) (fun _ => True).
Proof. intros st Hext. simpl. split; [exact Hext|trivial]. Qed.

Lemma frames_alloc (st0 : state) (v : ndarray) :
  frames st0 (alloc v) (fresh st0).
Proof.
  intros st [Ha [new Hn]]. simpl. split.
  - split; [exact Ha|]. exists (new ++ [data v]). simpl.
    now rewrite Hn, app_assoc.
  - intros a E. inversion E; subst. unfold fresh. simpl.
    rewrite Hn, length_app. lia.
Qed.

Lemma frames_write (st0 : state) (a : array) (v : ndarray) :
  fresh st0 a -> frames st0 (write a v) (fun _ => True).
Proof.
  intros Hf st [Ha [new Hn]]. simpl. split; [|trivial].
  split; [exact Ha|]. simpl. rewrite Hn.
  rewrite set_nth_app_r by exact Hf. eauto.
Qed.

Lemma frames_binop (st0 : state)
  (f : ndarray -> ndarray -> outcome ndarray) (a b : array) :
  frames st0 (binop f a b) (fresh st0).
Proof.
  unfold binop.
  eapply frames_bind; [apply frames_read|intros va _].
  eapply frames_bind; [apply frames_read|intros vb _].
  eapply frames_bind; [apply frames_lift|intros v _].
  apply frames_alloc.
Qed.

Lemma frames_unop (st0 : state) (f : ndarray -> ndarray) (a : array) :
  frames st0 (unop f a) (fresh st0).
Proof.
  unfold unop. eapply frames_bind; [apply frames_read|intros va _].
  apply frames_alloc.
Qed.

Lemma frames_const (st0 : state) (v : num) : frames st0 (const v) (fresh st0).
Proof. apply frames_alloc. Qed.

Lemma frames_reduce (st0 : state) (f : ndarray -> outcome num) (a : array) :
  frames st0 (reduce f a) (fun _ => True).
Proof.
  unfold reduce. eapply frames_bind; [apply frames_read|intros va _].
  apply frames_lift.
Qed.

(** [+=] on an array allocated after [st0] leaves the buffers of [st0]
    alone. *)
Lemma frames_iadd (st0 : state) (a b : array) :
  fresh st0 a -> frames st0 (iadd a b) (fun _ => True).
Proof.
  intros Hf. unfold iadd.
  eapply frames_bind; [apply frames_read|intros va _].
  eapply frames_bind; [apply frames_read|intros vb _].
  eapply frames_bind; [apply frames_lift|intros v _].
  now apply frames_write.
Qed.

Lemma frames_for_each {T : Type} (st0 : state) (body : nat -> T -> St T)
  (ks : list nat) :
  (forall k t, frames st0 (body k t) (fun _ => True)) ->
  forall t, frames st0 (for_each ks body t) (fun _ => True).
Proof.
  intros Hbody. induction ks as [|k ks IH]; intros t; simpl.
  - now apply frames_ret.
  - eapply frames_bind; [apply Hbody|intros t' _; apply IH].
Qed.

End Frames.

Ltac frame_prim :=
  first [ apply frames_lift
        | apply frames_binop
        | apply frames_unop
        | apply frames_const
        | apply frames_alloc
        | apply frames_read
        | apply frames_reduce
        | apply frames_getattr_G
        | apply frames_getattr_coefficients
        | apply frames_emit
        | (apply frames_iadd; assumption)
        | (apply frames_write; assumption)
        | (apply frames_ret; exact I) ].

Ltac frame_steps :=
  repeat (eapply frames_bind; [frame_prim|intros ? ?]).

Section FramedMethods.

Import Store.

Lemma frames_evaluate_direct (st0 : state) (x s : array) :
  frames st0 (_evaluate_direct x s) (fun _ => True).
Proof.
  unfold _evaluate_direct. frame_steps.
  eapply frames_bind; [|intros; frame_prim].
  apply frames_for_each. intros k t. frame_steps. frame_prim.
Qed.

Lemma frames_evaluate_recursive (st0 : state) (x s : array) :
  frames st0 (_evaluate_recursive x s) (fun _ => True).
Proof.
  unfold _evaluate_recursive. frame_steps.
  eapply frames_bind with (P := fun _ => True).
  { destruct (1 <? _)%nat; [|frame_prim].
    frame_steps. frame_prim. }
  intros x1 _.
  eapply frames_bind; [|intros; frame_prim].
  apply frames_for_each. intros k t. unfold recurrence_step.
  frame_steps. frame_prim.
Qed.

Lemma frames_evaluate_recursive_scalar (st0 : state) (x s : array) :
  frames st0 (_evaluate_recursive_scalar x s) (fun _ => True).
Proof.
  unfold _evaluate_recursive_scalar. frame_steps.
  eapply frames_bind with (P := fun _ => True).
  { destruct (1 <? _)%nat; [|frame_prim].
    frame_steps. frame_prim. }
  intros x1 _.
  eapply frames_bind; [|intros; frame_prim].
  apply frames_for_each. intros k t. frame_prim.
Qed.

Lemma frames_invoke (st0 : state) (name : string) (body : St array) :
  frames st0 body (fun _ => True) ->
  frames st0 (invoke name body) (fun _ => True).
Proof.
  intros H. unfold invoke.
  eapply frames_bind; [apply frames_emit|intros _ _; exact H].
Qed.

Lemma frames_getattr_evaluate (st0 : state) (name : string) :
  frames st0 (lift (getattr_evaluate name))
    (fun f => forall x s, frames st0 (f x s) (fun _ => True)).
Proof.
  intros st Hext. simpl. split; [exact Hext|].
  intros f. unfold getattr_evaluate.
  destruct (String.eqb name "_evaluate_direct").
  - intros E. inversion E; subst. intros x s.
    apply frames_invoke, frames_evaluate_direct.
  - destruct (String.eqb name "_evaluate_recursive"); [|discriminate].
    intros E. inversion E; subst. intros [x|x] s; apply frames_invoke.
    + apply frames_evaluate_recursive.
    + apply frames_evaluate_recursive_scalar.
Qed.

Lemma frames_evaluate (st0 : state) (x : array) (method : option string) :
  frames st0 (_evaluate x method) (fun _ => True).
Proof.
  unfold _evaluate. frame_steps.
  eapply frames_bind with (P := fun _ => True).
  { destruct (Num.ltb _ _); [frame_prim|]. frame_steps. frame_prim. }
  intros out _.
  eapply frames_bind with (P := fun _ => True).
  { destruct out; frame_prim. }
  intros _ _. do 6 (eapply frames_bind; [frame_prim|intros ? ?]).
  eapply frames_bind; [apply frames_getattr_evaluate|].
  intros f Hf. frame_steps. apply Hf.
Qed.

Lemma frames_filter (st0 : state) (s : array) (method : option string)
  (unused : value) :
  frames st0 (_filter s method unused) (fun _ => True).
Proof.
  intros st Hext. simpl. split; [exact Hext|discriminate].
Qed.

Lemma run_action_extends (a : action) (st : state) :
  extends st (run_action a st).
Proof.
  destruct a as [v|x method|s method unused]; simpl.
  - apply (frames_alloc st v st (extends_refl st)).
  - apply (frames_evaluate st x method st (extends_refl st)).
  - apply (frames_filter st s method unused st (extends_refl st)).
Qed.

Lemma run_actions_extends (acts : list action) :
  forall st, extends st (run_actions acts st).
Proof.
  induction acts as [|a acts IH]; intros st; simpl.
  - apply extends_refl.
  - eapply extends_trans; [apply run_action_extends|apply IH].
Qed.

Lemma extends_observed (st st' : state) :
  valid st -> extends st st' ->
  observed_coefficients st' = observed_coefficients st.
Proof.
  intros Hv [Ha [new Hn]]. unfold observed_coefficients. rewrite Ha.
  destruct (_coefficients (attrs st)) as [c|] eqn:E; [|reflexivity].
  simpl. f_equal. unfold deref. rewrite Hn.
  rewrite app_nth1 by (now apply Hv). reflexivity.
Qed.

End FramedMethods.

(** An instance that represents an object goes on representing it. *)
Lemma extends_represents (st st' : Store.state) (self : Chebyshev) :
  Store.valid st -> Store.extends st st' ->
  represents st self -> represents st' self.
Proof.
  intros Hv [Ha [more Hn]] [HG [Ho [Hnf Hc]]]. unfold represents.
  rewrite Ha. repeat (split; [assumption|]).
  destruct (Store._coefficients (Store.attrs st)) as [c|] eqn:E;
    [|exact Hc].
  destruct (_coefficients self) as [vc|]; [|exact Hc].
  destruct Hc as [Hb Hd]. split.
  - rewrite Hn, length_app. lia.
  - unfold Store.deref in *. rewrite Hn, app_nth1 by (now apply Hv).
    exact Hd.
Qed.


(** ** Immutability of the coefficients *)

Section Immutability.

Import Store.

(** What a successful construction leaves: the attributes it sets, the
    buffers that were there, and a coefficient array that is the caller's own
    array or a new one. *)
Lemma init_state (g : Graph) (filters : filters_arg) (ord : Z)
  (st0 st1 : state) :
  __init__ g filters ord st0 = (Ok tt, st1) ->
  (exists new, buffers st1 = buffers st0 ++ new)
  /\ G (attrs st1) = g
  /\ order (attrs st1) = ord
  /\ forall c, _coefficients (attrs st1) = Some c ->
               filters = ArrayLike c \/ (base c < length (buffers st1))%nat.
Proof.
  destruct filters as [nf|a|v]; unfold __init__; cbv [bind setattr try_except
    _compute_coefficients ret lift get_Nf np_asarray getattr_coefficients
    set_coefficients set_Nf alloc attrs buffers logged G order _coefficients
    Nf].
  - intros E. inversion E; subst. simpl.
    split; [exists []; now rewrite app_nil_r|]. repeat split. discriminate.
  - destruct (shape_at (ashape a) 1); intros E; inversion E; subst. simpl.
    split; [exists []; now rewrite app_nil_r|]. repeat split.
    intros c Hc. inversion Hc. now left.
  - destruct (shape_at _ 1); intros E; inversion E; subst. simpl.
    split; [eauto|]. repeat split.
    intros c Hc. inversion Hc. right. simpl. rewrite length_app. simpl. lia.
Qed.

End Immutability.

(** C10: after construction, whatever arrays the caller creates and whatever
    evaluate and filter calls it makes, on whatever arrays of the store (the
    coefficient array included), the attributes of the instance, its order
    among them, are the ones construction set, every buffer that existed at
    construction is unchanged, the coefficients read from the instance are
    the ones fixed at construction, and the instance represents the object it
    represented. *)
Theorem coefficients_never_mutated
  (g : Graph) (filters : Store.filters_arg) (ord : Z)
  (st0 st1 : Store.state) (acts : list Store.action) :
  Store.__init__ g filters ord st0 = (Ok tt, st1) ->
  (forall a, filters = Store.ArrayLike a ->
             (Store.base a < length (Store.buffers st0))%nat) ->
  Store.attrs (Store.run_actions acts st1) = Store.attrs st1
  /\ Store.order (Store.attrs (Store.run_actions acts st1)) = ord
  /\ (forall l, (l < length (Store.buffers st1))%nat ->
                nth l (Store.buffers (Store.run_actions acts st1)) []
                = nth l (Store.buffers st1) [])
  /\ Store.observed_coefficients (Store.run_actions acts st1)
     = Store.observed_coefficients st1
  /\ (forall self, represents st1 self ->
                   represents (Store.run_actions acts st1) self).
Proof.
  intros Hinit Hvalid.
  destruct (init_state g filters ord st0 st1 Hinit) as [[new Hb] [_ [Ho Hc]]].
  pose proof (run_actions_extends acts st1) as Hext.
  assert (Hv : Store.valid st1).
  { intros c E. destruct (Hc c E) as [Hf|Hlt]; [|exact Hlt].
    specialize (Hvalid c Hf). rewrite Hb, length_app. lia. }
  split; [apply Hext|]. split; [|split; [|split]].
  - destruct Hext as [-> _]. exact Ho.
  - intros l Hl. destruct Hext as [_ [more ->]]. now apply app_nth1.
  - now apply extends_observed.
  - intros self. now apply extends_represents.
Qed.

Lemma coefficients_never_mutated_witness :
  Store.attrs (Store.run_actions example_actions example_constructed)
  = Store.attrs example_constructed
  /\ Store.order (Store.attrs (Store.run_actions example_actions example_constructed))
     = default_order
  /\ (forall l, (l < length (Store.buffers example_constructed))%nat ->
                nth l (Store.buffers
                         (Store.run_actions example_actions example_constructed)) []
                = nth l (Store.buffers example_constructed) [])
  /\ Store.observed_coefficients
       (Store.run_actions example_actions example_constructed)
     = Store.observed_coefficients example_constructed
  /\ (forall self,
         represents example_constructed self ->
         represents (Store.run_actions example_actions example_constructed)
           self).
Proof.
  apply (coefficients_never_mutated example_graph
           (Store.ArrayLike example_coefficients) default_order example_store).
  - reflexivity.
  - intros a E. inversion E. simpl. lia.
Defined.

(** ** The store computes the values *)

Section StoreValues.

Lemma deref_compact (h : list (list num)) (a : Store.array) :
  compact (Store.deref h a).
Proof.
  unfold compact, Store.deref. simpl. rewrite length_firstn. lia.
Qed.

Lemma models_compact st a v : models st a v -> compact v.
Proof. intros [_ <-]. apply deref_compact. Qed.

Lemma models_shape st a v : models st a v -> shape v = Store.ashape a.
Proof. now intros [_ <-]. Qed.

Lemma well_formed_compact v : well_formed v -> compact v.
Proof. unfold well_formed, compact. lia. Qed.

Lemma models_alloc_old st v a w :
  models st a w -> models (snd (Store.alloc v st)) a w.
Proof.
  intros [Hb Hd]. split; simpl.
  - rewrite length_app. lia.
  - unfold Store.deref in *. now rewrite app_nth1.
Qed.

Lemma models_alloc_new st v :
  compact v ->
  models (snd (Store.alloc v st))
    (Store.mk_array (length (Store.buffers st)) 0 (shape v)) v.
Proof.
  intros Hc. split; simpl.
  - rewrite length_app. simpl. lia.
  - unfold Store.deref. simpl. rewrite app_nth2 by lia.
    rewrite Nat.sub_diag. simpl.
    destruct v as [sh d]. simpl in *. f_equal. apply firstn_all2. exact Hc.
Qed.

Lemma models_emit st e a w :
  models st a w -> models (snd (Store.emit e st)) a w.
Proof. intros H. exact H. Qed.

Lemma elementwise_well_formed f a b v :
  elementwise f a b = Ok v -> well_formed v.
Proof.
  unfold elementwise. destruct (broadcast_shapes _ _); [|discriminate].
  intros E. inversion E. apply tabulate_well_formed.
Qed.

Lemma np_dot_well_formed a b v : np_dot a b = Ok v -> well_formed v.
Proof.
  unfold np_dot.
  destruct (shape a); [apply elementwise_well_formed|].
  destruct (shape b); [apply elementwise_well_formed|].
  destruct (_ =? _)%nat; [|discriminate].
  intros E. inversion E. apply tabulate_well_formed.
Qed.

Lemma shape_eqb_eq a b : shape_eqb a b = true -> a = b.
Proof.
  revert b. induction a as [|d a IH]; intros [|d' b]; simpl; try discriminate.
  - reflexivity.
  - intros H. apply andb_prop in H. destruct H as [Hd Hs].
    apply Nat.eqb_eq in Hd. f_equal; auto.
Qed.

Lemma np_iadd_result a b v :
  np_iadd a b = Ok v -> well_formed v /\ shape v = shape a.
Proof.
  unfold np_iadd, np_add, elementwise.
  destruct (broadcast_shapes (shape a) (shape b)) as [sh|]; [|discriminate].
  destruct (shape_eqb sh (shape a)) eqn:E; [|discriminate].
  apply shape_eqb_eq in E. intros H. inversion H. split.
  - apply tabulate_well_formed.
  - exact E.
Qed.

Lemma np_map_compact f v : compact v -> compact (np_map f v).
Proof. unfold compact, np_map. simpl. now rewrite length_map. Qed.

Lemma np_ones_like_compact v : compact (np_ones_like v).
Proof. unfold compact, np_ones_like. simpl. rewrite repeat_length. lia. Qed.

Lemma np_zeros_well_formed sh : well_formed (np_zeros sh).
Proof. unfold well_formed, np_zeros. simpl. now rewrite repeat_length. Qed.

Lemma size_app_ones sh n : size (sh ++ repeat 1%nat n) = size sh.
Proof.
  induction sh as [|d sh IH]; simpl.
  - induction n as [|n IHn]; simpl; [reflexivity|]. rewrite IHn. reflexivity.
  - now rewrite IH.
Qed.

Lemma models_view_reshape st c vc n :
  models st c vc ->
  models st (Store.view_reshape_append_ones c n) (reshape_append_ones vc n).
Proof.
  intros [Hb <-]. split; [exact Hb|].
  unfold Store.deref, reshape_append_ones. simpl.
  now rewrite size_app_ones.
Qed.

Lemma firstn_skipn_firstn {A : Type} (l : list A) (m k n : nat) :
  (k + m <= n)%nat ->
  firstn m (skipn k (firstn n l)) = firstn m (skipn k l).
Proof.
  intros H. rewrite skipn_firstn_comm, firstn_firstn.
  f_equal. lia.
Qed.

(** A view [a[k]] shows the value [a[k]]. *)
Lemma view_getitem_models st a va k :
  models st a va ->
  match getitem va k with
  | Ok v => exists r, Store.view_getitem a k = Ok r
                      /\ models st r v /\ Store.base r = Store.base a
  | Raise e => Store.view_getitem a k = Raise e
  end.
Proof.
  intros [Hb <-]. unfold getitem, Store.view_getitem. simpl.
  destruct (Store.ashape a) as [|d sh]; [reflexivity|].
  destruct (Nat.ltb_spec k d) as [Hk|Hk]; [|reflexivity].
  eexists. split; [reflexivity|]. split; [|reflexivity].
  split; [exact Hb|]. unfold Store.deref. simpl. f_equal.
  rewrite firstn_skipn_firstn by nia.
  now rewrite skipn_skipn, Nat.add_comm.
Qed.

Lemma length_set_nth {A : Type} (l : list A) (n : nat) (x : A) :
  length (Store.set_nth l n x) = length l.
Proof.
  revert n. induction l as [|y l IH]; intros [|n]; simpl; auto.
Qed.

Lemma nth_set_nth_eq {A : Type} (l : list A) (n : nat) (x d : A) :
  (n < length l)%nat -> nth n (Store.set_nth l n x) d = x.
Proof.
  revert n. induction l as [|y l IH]; intros [|n] H; simpl in *; try lia.
  - reflexivity.
  - apply IH. lia.
Qed.

Lemma nth_set_nth_neq {A : Type} (l : list A) (n m : nat) (x d : A) :
  n <> m -> nth m (Store.set_nth l n x) d = nth m l d.
Proof.
  revert n m. induction l as [|y l IH]; intros [|n] [|m] H; simpl; auto.
  - lia.
Qed.

Lemma obind_assoc {A B C : Type} (m : outcome A) (f : A -> outcome B)
  (g : B -> outcome C) :
  obind (obind m f) g = obind m (fun a => obind (f a) g).
Proof. now destruct m. Qed.

Lemma obind_ret {A : Type} (m : outcome A) : obind m Ok = m.
Proof. now destruct m. Qed.

End StoreValues.

Section Simulation.

Variable inst : Store.instance.

Lemma known_alloc res ctx st v :
  compact v ->
  known inst res ctx st ->
  known inst res
    ((Store.mk_array (length (Store.buffers st)) 0 (shape v), v) :: ctx)
    (snd (Store.alloc v st)).
Proof.
  intros Hc [Hi [Hctx Hres]]. split; [exact Hi|]. split.
  - constructor.
    + split; [now apply models_alloc_new|].
      destruct res as [[r vr]|]; [|exact I]. simpl.
      destruct Hres as [[Hb _] _]. lia.
    + eapply Forall_impl; [|exact Hctx]. intros [a w] [Hm Hd].
      split; [now apply models_alloc_old|exact Hd].
  - destruct res as [[r vr]|]; [|exact I].
    destruct Hres as [Hm H]. split; [now apply models_alloc_old|exact H].
Qed.

Lemma known_In res ctx st a v :
  known inst res ctx st -> In (a, v) ctx -> models st a v.
Proof.
  intros [_ [Hctx _]] Hin.
  exact (proj1 (proj1 (Forall_forall _ ctx) Hctx (a, v) Hin)).
Qed.

Lemma known_incl res ctx ctx' st :
  incl ctx' ctx -> known inst res ctx st -> known inst res ctx' st.
Proof.
  intros Hincl [Hi [Hctx Hres]]. split; [exact Hi|]. split; [|exact Hres].
  apply Forall_forall. intros av Hin.
  exact (proj1 (Forall_forall _ ctx) Hctx av (Hincl av Hin)).
Qed.

(** The array that becomes [result]. *)
Lemma known_result ctx st v :
  well_formed v ->
  known inst None ctx st ->
  known inst
    (Some (Store.mk_array (length (Store.buffers st)) 0 (shape v), v)) ctx
    (snd (Store.alloc v st)).
Proof.
  intros Hwf [Hi [Hctx _]]. split; [exact Hi|]. split.
  - eapply Forall_impl; [|exact Hctx]. intros [a w] [Hm _]. simpl.
    split; [now apply models_alloc_old|].
    destruct Hm as [Hb _]. simpl in Hb. lia.
  - split; [|split; [reflexivity|exact Hwf]].
    apply models_alloc_new. now apply well_formed_compact.
Qed.

Lemma sim_bind {A B A' B' : Type} (P : Store.state -> Prop)
  (m : Store.St A) (o : outcome B) (Q : A -> B -> Store.state -> Prop)
  (k : A -> Store.St A') (k' : B -> outcome B')
  (R : A' -> B' -> Store.state -> Prop) :
  sim P m o Q ->
  (forall a b, sim (Q a b) (k a) (k' b) R) ->
  sim P (Store.bind m k) (obind o k') R.
Proof.
  intros Hm Hk st HP. specialize (Hm st HP). unfold Store.bind.
  destruct o as [b|e]; simpl.
  - destruct Hm as [a [st' [E HQ]]]. rewrite E. exact (Hk a b st' HQ).
  - destruct Hm as [st' E]. rewrite E. eauto.
Qed.

(** A step of the store alone, which returns. *)
Lemma sim_left {A B C : Type} (P : Store.state -> Prop) (m : Store.St A)
  (v : C) (Q : A -> C -> Store.state -> Prop) (k : A -> Store.St B)
  {D : Type} (o : outcome D) (R : B -> D -> Store.state -> Prop) :
  sim P m (Ok v) Q ->
  (forall a, sim (Q a v) (k a) o R) ->
  sim P (Store.bind m k) o R.
Proof.
  intros Hm Hk st HP. destruct (Hm st HP) as [a [st' [E HQ]]].
  unfold Store.bind. rewrite E. exact (Hk a st' HQ).
Qed.

Lemma sim_ret {A B : Type} (P : Store.state -> Prop) (a : A) (b : B)
  (Q : A -> B -> Store.state -> Prop) :
  (forall st, P st -> Q a b st) -> sim P (Store.ret a) (Ok b) Q.
Proof. intros H st HP. exists a, st. split; [reflexivity|auto]. Qed.

Lemma sim_pre {A B : Type} (P P' : Store.state -> Prop) (m : Store.St A)
  (o : outcome B) (Q : A -> B -> Store.state -> Prop) :
  (forall st, P' st -> P st) -> sim P m o Q -> sim P' m o Q.
Proof. intros H Hs st HP. apply Hs, H, HP. Qed.

Lemma sim_post {A B : Type} (P : Store.state -> Prop) (m : Store.St A)
  (o : outcome B) (Q Q' : A -> B -> Store.state -> Prop) :
  (forall a b st, Q a b st -> Q' a b st) -> sim P m o Q -> sim P m o Q'.
Proof.
  intros H Hs st HP. specialize (Hs st HP). destruct o; [|exact Hs].
  destruct Hs as [a' [st' [E HQ]]]. eauto.
Qed.

Lemma sim_lift_ok {A B C : Type} (P : Store.state -> Prop) (a : A)
  (k : A -> Store.St B) (o : outcome C) (R : B -> C -> Store.state -> Prop) :
  sim P (k a) o R -> sim P (Store.bind (Store.lift (Ok a)) k) o R.
Proof. intros H st HP. exact (H st HP). Qed.

Lemma sim_lift_raise {A B C : Type} (P : Store.state -> Prop) (e : exn)
  (k : A -> Store.St B) (R : B -> C -> Store.state -> Prop) :
  sim P (Store.bind (Store.lift (Raise e)) k) (Raise e) R.
Proof. intros st HP. exists st. reflexivity. Qed.

Lemma sim_ret_ok {A B C : Type} (P : Store.state -> Prop) (a : A)
  (k : A -> Store.St B) (o : outcome C) (R : B -> C -> Store.state -> Prop) :
  sim P (k a) o R -> sim P (Store.bind (Store.ret a) k) o R.
Proof. intros H st HP. exact (H st HP). Qed.

Lemma sim_bind_assoc {A B C D : Type} (P : Store.state -> Prop)
  (m : Store.St A) (f : A -> Store.St B) (g : B -> Store.St C)
  (o : outcome D) (R : C -> D -> Store.state -> Prop) :
  sim P (Store.bind m (fun a => Store.bind (f a) g)) o R ->
  sim P (Store.bind (Store.bind m f) g) o R.
Proof.
  intros H st HP. specialize (H st HP). unfold Store.bind in *.
  destruct (m st) as [[a|e] st']; exact H.
Qed.

(** What the context says of the shape of an array may be used. *)
Lemma sim_shape {A B : Type} res ctx a v (m : Store.St A) (o : outcome B)
  (R : A -> B -> Store.state -> Prop) :
  In (a, v) ctx ->
  (shape v = Store.ashape a -> sim (known inst res ctx) m o R) ->
  sim (known inst res ctx) m o R.
Proof.
  intros Hin H st Hk.
  exact (H (models_shape _ _ _ (known_In _ _ _ _ _ Hk Hin)) st Hk).
Qed.

Lemma sim_getattr_G {B C : Type} res ctx (k : Graph -> Store.St B)
  (o : outcome C) (R : B -> C -> Store.state -> Prop) :
  sim (known inst res ctx) (k (Store.G inst)) o R ->
  sim (known inst res ctx) (Store.bind Store.getattr_G k) o R.
Proof.
  intros H st Hk. specialize (H st Hk).
  unfold Store.bind, Store.getattr_G. destruct Hk as [-> _]. exact H.
Qed.

Lemma sim_getattr_coefficients {B C : Type} res ctx c
  (k : Store.array -> Store.St B) (o : outcome C)
  (R : B -> C -> Store.state -> Prop) :
  Store._coefficients inst = Some c ->
  sim (known inst res ctx) (k c) o R ->
  sim (known inst res ctx) (Store.bind Store.getattr_coefficients k) o R.
Proof.
  intros Hc H st Hk. specialize (H st Hk).
  unfold Store.bind, Store.getattr_coefficients.
  destruct Hk as [-> _]. rewrite Hc. exact H.
Qed.

Lemma sim_getattr_coefficients_unset {B C : Type} res ctx
  (k : Store.array -> Store.St B) (R : B -> C -> Store.state -> Prop) :
  Store._coefficients inst = None ->
  sim (known inst res ctx) (Store.bind Store.getattr_coefficients k)
    (Raise (AttributeError "_coefficients")) R.
Proof.
  intros Hc st Hk. unfold Store.bind, Store.getattr_coefficients.
  destruct Hk as [-> _]. rewrite Hc. eauto.
Qed.

Lemma sim_emit res ctx e :
  sim (known inst res ctx) (Store.emit e) (Ok tt)
    (fun _ _ st => known inst res ctx st).
Proof. intros st Hk. exists tt, (snd (Store.emit e st)). split; [reflexivity|exact Hk]. Qed.

Lemma sim_reduce res ctx (f : ndarray -> outcome num) a va {B C : Type}
  (k : num -> Store.St B) (k' : num -> outcome C)
  (R : B -> C -> Store.state -> Prop) :
  In (a, va) ctx ->
  (forall v, sim (known inst res ctx) (k v) (k' v) R) ->
  sim (known inst res ctx) (Store.bind (Store.reduce f a) k) (obind (f va) k') R.
Proof.
  intros Hin Hk st Hkn.
  pose proof (known_In _ _ _ _ _ Hkn Hin) as [_ Hd].
  assert (E : Store.bind (Store.reduce f a) k st
              = match f va with
                | Ok v => k v st
                | Raise e => (Raise e, st)
                end).
  { unfold Store.reduce, Store.bind, Store.read, Store.lift. cbv beta.
    rewrite Hd. now destruct (f va). }
  rewrite E. destruct (f va) as [v|e]; simpl; [exact (Hk v st Hkn)|eauto].
Qed.

Lemma sim_alloc res ctx v :
  compact v ->
  sim (known inst res ctx) (Store.alloc v) (Ok v)
    (fun r w st => known inst res ((r, w) :: ctx) st).
Proof.
  intros Hc st Hk. eexists _, _. split; [reflexivity|].
  now apply known_alloc.
Qed.

Lemma sim_binop res ctx (f : ndarray -> ndarray -> outcome ndarray) a b va vb :
  (forall v, f va vb = Ok v -> compact v) ->
  In (a, va) ctx -> In (b, vb) ctx ->
  sim (known inst res ctx) (Store.binop f a b) (f va vb)
    (fun r w st => known inst res ((r, w) :: ctx) st).
Proof.
  intros Hc Ha Hb st Hk.
  pose proof (known_In _ _ _ _ _ Hk Ha) as [_ Hda].
  pose proof (known_In _ _ _ _ _ Hk Hb) as [_ Hdb].
  unfold Store.binop, Store.bind, Store.read, Store.lift. rewrite Hda, Hdb.
  destruct (f va vb) as [v|e] eqn:E; [|eauto].
  eexists _, _. split; [reflexivity|]. apply known_alloc; auto.
Qed.

Lemma sim_unop res ctx (f : ndarray -> ndarray) a va :
  (compact va -> compact (f va)) ->
  In (a, va) ctx ->
  sim (known inst res ctx) (Store.unop f a) (Ok (f va))
    (fun r w st => known inst res ((r, w) :: ctx) st).
Proof.
  intros Hc Ha st Hk.
  pose proof (known_In _ _ _ _ _ Hk Ha) as Hm.
  pose proof (models_compact _ _ _ Hm) as Hcv. destruct Hm as [_ Hda].
  unfold Store.unop, Store.bind, Store.read. rewrite Hda.
  eexists _, _. split; [reflexivity|]. apply known_alloc; auto.
Qed.

Lemma sim_getitem res ctx c vc n k :
  In (c, vc) ctx ->
  sim (known inst res ctx)
    (Store.lift (Store.view_getitem (Store.view_reshape_append_ones c n) k))
    (getitem (reshape_append_ones vc n) k)
    (fun r w st => known inst res ((r, w) :: ctx) st).
Proof.
  intros Hin st Hk.
  pose proof (known_In _ _ _ _ _ Hk Hin) as Hm.
  pose proof (view_getitem_models st _ _ k (models_view_reshape st c vc n Hm))
    as Hv.
  destruct (getitem (reshape_append_ones vc n) k) as [v|e].
  - destruct Hv as [r [E [Hr Hbase]]]. exists r, st. unfold Store.lift.
    rewrite E. split; [reflexivity|].
    destruct Hk as [Hi [Hctx Hres]]. split; [exact Hi|]. split; [|exact Hres].
    constructor; [|exact Hctx]. split; [exact Hr|].
    destruct res as [[r0 v0]|]; [|exact I]. simpl. rewrite Hbase.
    exact (proj2 (proj1 (Forall_forall _ ctx) Hctx (c, vc) Hin)).
  - exists st. unfold Store.lift. now rewrite Hv.
Qed.

Lemma sim_result_alloc ctx v :
  well_formed v ->
  sim (known inst None ctx) (Store.alloc v) (Ok v)
    (fun r w st => known inst (Some (r, w)) ctx st).
Proof.
  intros Hwf st Hk. eexists _, _. split; [reflexivity|].
  now apply known_result.
Qed.

Lemma sim_result_binop ctx (f : ndarray -> ndarray -> outcome ndarray)
  a b va vb :
  (forall v, f va vb = Ok v -> well_formed v) ->
  In (a, va) ctx -> In (b, vb) ctx ->
  sim (known inst None ctx) (Store.binop f a b) (f va vb)
    (fun r w st => known inst (Some (r, w)) ctx st).
Proof.
  intros Hc Ha Hb st Hk.
  pose proof (known_In _ _ _ _ _ Hk Ha) as [_ Hda].
  pose proof (known_In _ _ _ _ _ Hk Hb) as [_ Hdb].
  unfold Store.binop, Store.bind, Store.read, Store.lift. rewrite Hda, Hdb.
  destruct (f va vb) as [v|e] eqn:E; [|eauto].
  eexists _, _. split; [reflexivity|]. apply known_result; auto.
Qed.

(** [+=] writes the sum where the value is the sum. *)
Lemma sim_iadd r vr ctx b vb :
  In (b, vb) ctx ->
  sim (known inst (Some (r, vr)) ctx) (Store.iadd r b) (np_iadd vr vb)
    (fun _ w st => known inst (Some (r, w)) ctx st).
Proof.
  intros Hb st Hk.
  pose proof (known_In _ _ _ _ _ Hk Hb) as [_ Hdb].
  destruct Hk as [Hi [Hctx [[Hbr Hdr] [Hoff Hwf]]]].
  unfold Store.iadd, Store.bind, Store.read, Store.lift. rewrite Hdr, Hdb.
  destruct (np_iadd vr vb) as [v|e] eqn:E; [|eauto].
  destruct (np_iadd_result _ _ _ E) as [Hwfv Hshv].
  eexists _, _. split; [reflexivity|]. split; [exact Hi|]. split.
  - eapply Forall_impl; [|exact Hctx]. intros [a w] [[Hba Hda] Hne]. simpl in *.
    split; [|exact Hne]. split; simpl.
    + now rewrite length_set_nth.
    + unfold Store.deref in *. rewrite nth_set_nth_neq by congruence. exact Hda.
  - split; [|split; [exact Hoff|exact Hwfv]]. split; simpl.
    + now rewrite length_set_nth.
    + unfold Store.deref. rewrite nth_set_nth_eq by exact Hbr.
      rewrite Hoff. simpl.
      assert (Hsh : Store.ashape r = shape v).
      { rewrite Hshv, <- Hdr. reflexivity. }
      rewrite Hsh. destruct v as [sh d]. simpl in *. f_equal.
      unfold well_formed in Hwfv. simpl in Hwfv. rewrite <- Hwfv.
      now rewrite firstn_app, Nat.sub_diag, firstn_all, app_nil_r.
Qed.

Lemma sim_for_each {T2 T1 : Type} (Inv : T2 -> T1 -> Store.state -> Prop)
  (body2 : nat -> T2 -> Store.St T2) (body1 : nat -> T1 -> outcome T1)
  (ks : list nat) :
  (forall k t2 t1, sim (Inv t2 t1) (body2 k t2) (body1 k t1) Inv) ->
  forall t2 t1,
    sim (Inv t2 t1) (Store.for_each ks body2 t2) (for_each ks body1 t1) Inv.
Proof.
  intros Hbody. induction ks as [|k ks IH]; intros t2 t1; simpl.
  - apply sim_ret. auto.
  - eapply sim_bind; [apply Hbody|]. intros a b. apply IH.
Qed.

Lemma sim_value_of (P : Store.state -> Prop) (m : Store.St Store.array)
  (o : outcome ndarray) (st : Store.state) :
  sim P m o (fun r v st' => models st' r v) -> P st ->
  Store.value_of m st = o.
Proof.
  intros Hs HP. specialize (Hs st HP). unfold Store.value_of.
  destruct o as [v|e].
  - destruct Hs as [r [st' [-> [_ <-]]]]. reflexivity.
  - destruct Hs as [st' ->]. reflexivity.
Qed.

End Simulation.

Ltac in_ctx :=
  solve [simpl; repeat (first [left; reflexivity | assumption | right])].

Ltac wf_side :=
  solve [ intros; apply well_formed_compact;
          first [ eapply elementwise_well_formed; eassumption
                | eapply np_dot_well_formed; eassumption ]
        | intros; first [ eapply elementwise_well_formed; eassumption
                        | eapply np_dot_well_formed; eassumption ]
        | intros; apply np_map_compact; assumption
        | intros; apply np_ones_like_compact
        | apply well_formed_compact, np_zeros_well_formed
        | apply np_zeros_well_formed
        | unfold compact; simpl; lia ].

Section Evaluators.

Variable inst : Store.instance.
Variables (c x s : Store.array) (vc vx vs : ndarray).
Variable n : nat.

Let cv : Store.array := Store.view_reshape_append_ones c n.
Let vcv : ndarray := reshape_append_ones vc n.
Let ctx0 : list (Store.array * ndarray) := [(c, vc); (x, vx); (s, vs)].

Lemma sim_direct_main (K F m : nat) :
  sim (known inst None ctx0)
    (Store.bind (Store.alloc (np_zeros [F; m])) (fun result =>
     Store.bind (Store.unop np_arccos x) (fun x_arccos =>
     Store.bind
       (Store.for_each (range 0 K)
          (fun k (_ : unit) =>
             Store.bind (Store.lift (Store.view_getitem cv k)) (fun ck =>
             Store.bind (Store.const (Num.of_nat k)) (fun kk =>
             Store.bind (Store.binop np_mul kk x_arccos) (fun kx =>
             Store.bind (Store.unop np_cos kx) (fun cs =>
             Store.bind (Store.binop np_dot cs s) (fun t =>
             Store.bind (Store.binop np_mul ck t) (fun term =>
             Store.iadd result term))))))) tt)
       (fun _ => Store.ret result))))
    (for_each (range 0 K)
       (fun k result =>
          ck <- getitem vcv k ;;
          kx <- np_mul (scalar (Num.of_nat k)) (np_arccos vx) ;;
          t <- np_dot (np_cos kx) vs ;;
          term <- np_mul ck t ;;
          np_iadd result term)%outcome
       (np_zeros [F; m]))
    (fun r v st => models st r v).
Proof.
  eapply sim_left; [apply sim_result_alloc; wf_side|]. intros res.
  eapply sim_left; [apply sim_unop with (va := vx); [wf_side|in_ctx]|].
  intros x_arccos.
  rewrite <- (obind_ret (for_each _ _ _)).
  eapply sim_bind.
  - apply (sim_for_each
             (fun (_ : unit) v st =>
                known inst (Some (res, v))
                  ((x_arccos, np_arccos vx) :: ctx0) st)).
    intros k [] res1.
    eapply sim_bind; [apply sim_getitem; in_ctx|]. intros ck vck.
    eapply sim_left; [apply sim_alloc; wf_side|]. intros kk.
    eapply sim_bind; [apply sim_binop; [wf_side|in_ctx|in_ctx]|].
    intros kx vkx.
    eapply sim_left; [apply sim_unop with (va := vkx); [wf_side|in_ctx]|].
    intros cs.
    eapply sim_bind; [apply sim_binop; [wf_side|in_ctx|in_ctx]|].
    intros t vt.
    eapply sim_bind; [apply sim_binop; [wf_side|in_ctx|in_ctx]|].
    intros term vterm.
    eapply sim_post; [|apply sim_iadd; in_ctx].
    intros [] w st. apply known_incl.
    intros av Hin. simpl in *. tauto.
  - intros [] v. apply sim_ret. intros st [_ [_ [Hm _]]]. exact Hm.
Qed.

Lemma sim_recurrence_step (res : Store.array) (k : nat)
  (t2 : Store.array * option Store.array) (t1 : recurrence) :
  sim (recurrence_known inst ctx0 res t2 t1)
    (Store.recurrence_step cv x s res k t2)
    (recurrence_step vcv vx vs k t1)
    (recurrence_known inst ctx0 res).
Proof.
  destruct t2 as [x0a x1o]. destruct t1 as [vx0 vx1o vres].
  unfold recurrence_known, Store.recurrence_step, recurrence_step.
  cbn [fst snd x0 x1 result load_x1].
  destruct x1o as [x1a|]; destruct vx1o as [vx1|];
    try solve [intros st Hf; destruct Hf].
  - eapply sim_bind; [apply sim_binop; [wf_side|in_ctx|in_ctx]|].
    intros xs vxs.
    eapply sim_left; [apply sim_alloc; wf_side|]. intros two.
    eapply sim_bind; [apply sim_binop; [wf_side|in_ctx|in_ctx]|].
    intros two_xs vtwo_xs.
    apply sim_lift_ok. cbn [obind load_x1 x1].
    eapply sim_bind; [apply sim_binop; [wf_side|in_ctx|in_ctx]|].
    intros p vp.
    eapply sim_bind; [apply sim_binop; [wf_side|in_ctx|in_ctx]|].
    intros x2 vx2.
    eapply sim_bind; [apply sim_getitem; in_ctx|]. intros ck vck.
    eapply sim_bind; [apply sim_binop; [wf_side|in_ctx|in_ctx]|].
    intros term vterm.
    eapply sim_bind; [apply sim_iadd; in_ctx|]. intros [] vres'.
    apply sim_ret. intros st. cbn [fst snd x0 x1 result].
    apply known_incl. intros av Hin. simpl in *. tauto.
  - eapply sim_bind; [apply sim_binop; [wf_side|in_ctx|in_ctx]|].
    intros xs vxs.
    eapply sim_left; [apply sim_alloc; wf_side|]. intros two.
    eapply sim_bind; [apply sim_binop; [wf_side|in_ctx|in_ctx]|].
    intros two_xs vtwo_xs.
    apply sim_lift_raise.
Qed.

Lemma sim_recursive_main (K : nat) :
  sim (known inst None ctx0)
    (Store.bind (Store.unop np_ones_like x) (fun x0 =>
     Store.bind (Store.lift (Store.view_getitem cv 0)) (fun c0 =>
     Store.bind (Store.binop np_dot x0 s) (fun x0s =>
     Store.bind (Store.binop np_mul c0 x0s) (fun result =>
     Store.bind
       (if (1 <? K)%nat
        then Store.bind (Store.lift (Store.view_getitem cv 1)) (fun c1 =>
             Store.bind (Store.binop np_mul c1 x) (fun term =>
             Store.bind (Store.iadd result term) (fun _ =>
             Store.ret (Some x))))
        else Store.ret None) (fun x1 =>
     Store.bind
       (Store.for_each (range 2 K) (Store.recurrence_step cv x s result)
          (x0, x1))
       (fun _ => Store.ret result)))))))
    (st <- recurrence_init vcv vx vs K ;;
     st' <- for_each (range 2 K) (recurrence_step vcv vx vs) st ;;
     Ok (result st'))%outcome
    (fun r v st => models st r v).
Proof.
  unfold recurrence_init.
  eapply sim_left; [apply sim_unop with (va := vx); [wf_side|in_ctx]|].
  intros x0a.
  rewrite obind_assoc.
  eapply sim_bind; [apply sim_getitem; in_ctx|]. intros c0 vc0.
  rewrite obind_assoc.
  eapply sim_bind; [apply sim_binop; [wf_side|in_ctx|in_ctx]|].
  intros x0s vx0s.
  rewrite obind_assoc.
  eapply sim_bind; [apply sim_result_binop; [wf_side|in_ctx|in_ctx]|].
  intros res vres.
  eapply sim_bind
    with (Q := fun x1 t1 => recurrence_known inst ctx0 res (x0a, x1) t1).
  - destruct (1 <? K)%nat.
    + eapply sim_bind; [apply sim_getitem; in_ctx|]. intros c1 vc1.
      eapply sim_bind; [apply sim_binop; [wf_side|in_ctx|in_ctx]|].
      intros term vterm.
      eapply sim_bind; [apply sim_iadd; in_ctx|]. intros [] vres'.
      apply sim_ret. intros st. unfold recurrence_known.
      cbn [fst snd x0 x1 result].
      apply known_incl. intros av Hin. simpl in *. tauto.
    + apply sim_ret. intros st. unfold recurrence_known.
      cbn [fst snd x0 x1 result].
      apply known_incl. intros av Hin. simpl in *. tauto.
  - intros x1o t1.
    eapply sim_bind.
    + apply (sim_for_each (recurrence_known inst ctx0 res)).
      intros k t2 t1'. apply sim_recurrence_step.
    + intros t2 t1'. apply sim_ret. intros st. unfold recurrence_known.
      destruct (snd t2), (x1 t1'); try contradiction;
        intros [_ [_ [Hm _]]]; exact Hm.
Qed.

Lemma sim_recursive_scalar_main (K : nat) :
  sim (known inst None ctx0)
    (Store.bind (Store.unop np_ones_like x) (fun x0 =>
     Store.bind (Store.lift (Store.view_getitem cv 0)) (fun c0 =>
     Store.bind (Store.binop np_dot x0 s) (fun x0s =>
     Store.bind (Store.binop np_mul c0 x0s) (fun result =>
     Store.bind
       (if (1 <? K)%nat
        then Store.bind (Store.lift (Store.view_getitem cv 1)) (fun c1 =>
             Store.bind (Store.binop np_mul c1 x) (fun term =>
             Store.bind (Store.iadd result term) (fun _ =>
             Store.ret (Some x))))
        else Store.ret None) (fun x1 =>
     Store.bind
       (Store.for_each (range 2 K)
          (fun _ (_ : Store.array * option Store.array) =>
             Store.lift (Raise (AttributeError "dot")))
          (x0, x1))
       (fun _ => Store.ret result)))))))
    (st <- recurrence_init vcv vx vs K ;;
     st' <- for_each (range 2 K)
              (fun _ _ => Raise (AttributeError "dot")) st ;;
     Ok (result st'))%outcome
    (fun r v st => models st r v).
Proof.
  unfold recurrence_init.
  eapply sim_left; [apply sim_unop with (va := vx); [wf_side|in_ctx]|].
  intros x0a.
  rewrite obind_assoc.
  eapply sim_bind; [apply sim_getitem; in_ctx|]. intros c0 vc0.
  rewrite obind_assoc.
  eapply sim_bind; [apply sim_binop; [wf_side|in_ctx|in_ctx]|].
  intros x0s vx0s.
  rewrite obind_assoc.
  eapply sim_bind; [apply sim_result_binop; [wf_side|in_ctx|in_ctx]|].
  intros res vres.
  eapply sim_bind
    with (Q := fun x1 t1 => recurrence_known inst ctx0 res (x0a, x1) t1).
  - destruct (1 <? K)%nat.
    + eapply sim_bind; [apply sim_getitem; in_ctx|]. intros c1 vc1.
      eapply sim_bind; [apply sim_binop; [wf_side|in_ctx|in_ctx]|].
      intros term vterm.
      eapply sim_bind; [apply sim_iadd; in_ctx|]. intros [] vres'.
      apply sim_ret. intros st. unfold recurrence_known.
      cbn [fst snd x0 x1 result].
      apply known_incl. intros av Hin. simpl in *. tauto.
    + apply sim_ret. intros st. unfold recurrence_known.
      cbn [fst snd x0 x1 result].
      apply known_incl. intros av Hin. simpl in *. tauto.
  - intros x1o t1.
    eapply sim_bind.
    + apply (sim_for_each (recurrence_known inst ctx0 res)).
      intros k t2 t1' st Hst. exists st. reflexivity.
    + intros t2 t1'. apply sim_ret. intros st. unfold recurrence_known.
      destruct (snd t2), (x1 t1'); try contradiction;
        intros [_ [_ [Hm _]]]; exact Hm.
Qed.

End Evaluators.

Section Methods.

Variable inst : Store.instance.
Variable self : Chebyshev.

Lemma coefficients_known_cons ctx av :
  coefficients_known inst self ctx -> coefficients_known inst self (av :: ctx).
Proof.
  unfold coefficients_known.
  destruct (Store._coefficients inst), (_coefficients self); simpl; auto.
Qed.

Lemma incl_inputs {A : Type} (ctx : list A) (a b d : A) :
  In a ctx -> In b ctx -> In d ctx -> incl [a; b; d] ctx.
Proof.
  intros Ha Hb Hd e [<-|[<-|[<-|[]]]]; assumption.
Qed.

(** The direct evaluator of the store returns the array that the direct
    evaluator computes, or raises as it does. *)
Lemma sim_evaluate_direct ctx x vx s vs :
  coefficients_known inst self ctx -> In (x, vx) ctx -> In (s, vs) ctx ->
  sim (known inst None ctx) (Store._evaluate_direct x s)
    (_evaluate_direct self vx vs) (fun r v st => models st r v).
Proof.
  unfold coefficients_known. intros Hc Hx Hs.
  unfold Store._evaluate_direct, _evaluate_direct, get_coefficients.
  destruct (Store._coefficients inst) as [c|] eqn:Ec;
    destruct (_coefficients self) as [vc|]; try contradiction.
  - cbn [obind]. apply (sim_getattr_coefficients inst None ctx c); [exact Ec|].
    apply (sim_shape inst None ctx c vc); [exact Hc|]. intros <-.
    destruct (unpack2 (shape vc)) as [[K F]|e];
      [apply sim_lift_ok|apply sim_lift_raise].
    cbn [obind fst snd].
    apply (sim_shape inst None ctx x vx); [exact Hx|]. intros <-.
    destruct (shape_at (shape vx) 0) as [m|e];
      [apply sim_lift_ok|apply sim_lift_raise].
    cbn [obind].
    eapply sim_pre;
      [|exact (sim_direct_main inst c x s vc vx vs (ndim vx) K F m)].
    intros st. apply known_incl. now apply incl_inputs.
  - now apply sim_getattr_coefficients_unset.
Qed.

(** The same for the recursive evaluator. *)
Lemma sim_evaluate_recursive ctx x vx s vs :
  coefficients_known inst self ctx -> In (x, vx) ctx -> In (s, vs) ctx ->
  sim (known inst None ctx) (Store._evaluate_recursive x s)
    (_evaluate_recursive self vx vs) (fun r v st => models st r v).
Proof.
  unfold coefficients_known. intros Hc Hx Hs.
  unfold Store._evaluate_recursive, _evaluate_recursive, get_coefficients.
  destruct (Store._coefficients inst) as [c|] eqn:Ec;
    destruct (_coefficients self) as [vc|]; try contradiction.
  - cbn [obind]. apply (sim_getattr_coefficients inst None ctx c); [exact Ec|].
    apply (sim_shape inst None ctx c vc); [exact Hc|]. intros <-.
    destruct (shape_at (shape vc) 0) as [K|e];
      [apply sim_lift_ok|apply sim_lift_raise].
    cbn [obind].
    apply (sim_shape inst None ctx x vx); [exact Hx|]. intros <-.
    eapply sim_pre;
      [|exact (sim_recursive_main inst c x s vc vx vs (ndim vx) K)].
    intros st. apply known_incl. now apply incl_inputs.
  - now apply sim_getattr_coefficients_unset.
Qed.

(** The same when [x] is a NumPy scalar. *)
Lemma sim_evaluate_recursive_scalar ctx x vx s vs :
  coefficients_known inst self ctx -> In (x, vx) ctx -> In (s, vs) ctx ->
  sim (known inst None ctx) (Store._evaluate_recursive_scalar x s)
    (_evaluate_recursive_scalar self vx vs) (fun r v st => models st r v).
Proof.
  unfold coefficients_known. intros Hc Hx Hs.
  unfold Store._evaluate_recursive_scalar, _evaluate_recursive_scalar,
    get_coefficients.
  destruct (Store._coefficients inst) as [c|] eqn:Ec;
    destruct (_coefficients self) as [vc|]; try contradiction.
  - cbn [obind]. apply (sim_getattr_coefficients inst None ctx c); [exact Ec|].
    apply (sim_shape inst None ctx c vc); [exact Hc|]. intros <-.
    destruct (shape_at (shape vc) 0) as [K|e];
      [apply sim_lift_ok|apply sim_lift_raise].
    cbn [obind].
    apply (sim_shape inst None ctx x vx); [exact Hx|]. intros <-.
    eapply sim_pre;
      [|exact (sim_recursive_scalar_main inst c x s vc vx vs (ndim vx) K)].
    intros st. apply known_incl. now apply incl_inputs.
  - now apply sim_getattr_coefficients_unset.
Qed.

End Methods.

Section EntryPoints.

Variable inst : Store.instance.
Variable self : Chebyshev.
Hypothesis HG : Store.G inst = G self.

Lemma sim_dispatch ctx (name : string) x' vx' :
  coefficients_known inst self ctx -> In (x', vx') ctx ->
  sim (known inst None ctx)
    (Store.bind (Store.lift (Store.getattr_evaluate name)) (fun f =>
     Store.bind (Store.const (Fin 1)) (fun s =>
     f (Store.ufunc_result x') s)))
    (f <- evaluator_named self name ;; f (ufunc_result vx') default_s)%outcome
    (fun r v st => models st r v).
Proof.
  intros Hc Hx. apply (sim_shape inst None ctx x' vx'); [exact Hx|].
  intros Hsh. unfold Store.getattr_evaluate, evaluator_named.
  unfold Store.ufunc_result, ufunc_result, ndim. rewrite Hsh.
  destruct (String.eqb name "_evaluate_direct").
  - apply sim_lift_ok. cbn [obind].
    eapply sim_left; [apply sim_alloc; wf_side|]. intros s.
    unfold Store.invoke.
    eapply sim_left; [apply sim_emit|]. intros [].
    unfold Store.evaluate_direct_on, evaluate_direct_on.
    destruct (length (Store.ashape x') =? 0)%nat; cbn [array_of];
      apply sim_evaluate_direct;
      [now apply coefficients_known_cons|in_ctx|unfold default_s; in_ctx
      |now apply coefficients_known_cons|in_ctx|unfold default_s; in_ctx].
  - destruct (String.eqb name "_evaluate_recursive").
    + apply sim_lift_ok. cbn [obind].
      eapply sim_left; [apply sim_alloc; wf_side|]. intros s.
      unfold Store.invoke.
      eapply sim_left; [apply sim_emit|]. intros [].
      unfold Store.evaluate_recursive_on, evaluate_recursive_on.
      destruct (length (Store.ashape x') =? 0)%nat.
      * apply sim_evaluate_recursive_scalar;
          [now apply coefficients_known_cons|in_ctx|unfold default_s; in_ctx].
      * apply sim_evaluate_recursive;
          [now apply coefficients_known_cons|in_ctx|unfold default_s; in_ctx].
    + apply sim_lift_raise.
Qed.

Lemma sim_rescale_dispatch ctx (name : string) x vx :
  coefficients_known inst self ctx -> In (x, vx) ctx ->
  sim (known inst None ctx)
    (Store.bind (Store.const (Fin 2)) (fun two =>
     Store.bind (Store.binop np_mul two x) (fun a =>
     Store.bind (Store.const (Fin (lmax (G self)))) (fun l =>
     Store.bind (Store.binop np_div a l) (fun b =>
     Store.bind (Store.const (Fin 1)) (fun one =>
     Store.bind (Store.binop np_sub b one) (fun x' =>
     Store.bind (Store.lift (Store.getattr_evaluate name)) (fun f =>
     Store.bind (Store.const (Fin 1)) (fun s =>
     f (Store.ufunc_result x') s)))))))))
    (x' <- rescale self vx ;;
     f <- evaluator_named self name ;; f (ufunc_result x') default_s)%outcome
    (fun r v st => models st r v).
Proof.
  intros Hc Hx. unfold rescale.
  eapply sim_left; [apply sim_alloc; wf_side|]. intros two.
  rewrite obind_assoc.
  eapply sim_bind; [apply sim_binop; [wf_side|in_ctx|in_ctx]|]. intros a va.
  eapply sim_left; [apply sim_alloc; wf_side|]. intros l.
  rewrite obind_assoc.
  eapply sim_bind; [apply sim_binop; [wf_side|in_ctx|in_ctx]|]. intros b vb.
  eapply sim_left; [apply sim_alloc; wf_side|]. intros one.
  eapply sim_bind; [apply sim_binop; [wf_side|in_ctx|in_ctx]|]. intros x' vx'.
  apply sim_dispatch; [|in_ctx].
  repeat apply coefficients_known_cons. exact Hc.
Qed.

(** [_evaluate] in the store returns the array that [_evaluate] computes, or
    raises as it does. *)
Lemma sim_evaluate ctx x vx (method : option string) :
  coefficients_known inst self ctx -> In (x, vx) ctx ->
  sim (known inst None ctx) (Store._evaluate x method)
    (evaluate_value self vx method) (fun r v st => models st r v).
Proof.
  intros Hc Hx. unfold Store._evaluate, evaluate_value, outside_domain.
  rewrite obind_assoc.
  apply sim_reduce with (va := vx); [exact Hx|]. intros lo.
  apply sim_getattr_G. rewrite HG.
  destruct (Num.ltb lo (Fin 0)).
  - apply sim_ret_ok. cbn [obind].
    eapply sim_left; [apply sim_emit|]. intros [].
    now apply sim_rescale_dispatch.
  - apply sim_bind_assoc. rewrite obind_assoc.
    apply sim_reduce with (va := vx); [exact Hx|]. intros hi.
    apply sim_ret_ok. cbn [obind].
    destruct (Num.ltb (Fin (lmax (G self))) hi).
    + eapply sim_left; [apply sim_emit|]. intros [].
      now apply sim_rescale_dispatch.
    + apply sim_ret_ok. now apply sim_rescale_dispatch.
Qed.

End EntryPoints.

Section Refinement.

(** The result of [_evaluate] is [evaluate_value]. *)
Lemma evaluate_fst (self : Chebyshev) (x : ndarray) (method : option string)
  (log : list event) :
  fst (_evaluate self x method log) = evaluate_value self x method.
Proof.
  unfold _evaluate, evaluate_value. rewrite bind_lift.
  destruct (outside_domain self x) as [out|e]; [|reflexivity]. cbn [obind].
  assert (Hw : forall (k : unit -> M ndarray),
             bind (if out
                   then emit (Warning domain_warning (lmax (G self)))
                   else ret tt) k log
             = k tt (log ++ warnings_of self out)).
  { intros k. destruct out; unfold bind, emit, ret, warnings_of.
    - reflexivity.
    - now rewrite app_nil_r. }
  rewrite Hw, bind_lift.
  destruct (rescale self x) as [x'|e]; [|reflexivity]. cbn [obind].
  rewrite bind_lift. unfold getattr_evaluate, evaluator_named.
  destruct (String.eqb _ "_evaluate_direct");
    [cbn [obind]; now rewrite invoke_run|].
  destruct (String.eqb _ "_evaluate_recursive");
    [cbn [obind]; now rewrite invoke_run|reflexivity].
Qed.

Lemma known_start (st : Store.state) (self : Chebyshev)
  (inputs : list (Store.array * ndarray)) :
  represents st self ->
  Forall (fun av => models st (fst av) (snd av)) inputs ->
  known (Store.attrs st) None (coefficients_ctx st self ++ inputs) st
  /\ coefficients_known (Store.attrs st) self
       (coefficients_ctx st self ++ inputs).
Proof.
  intros [_ [_ [_ Hrep]]] Hin. unfold coefficients_ctx, coefficients_known.
  destruct (Store._coefficients (Store.attrs st)) as [c|];
    destruct (_coefficients self) as [vc|]; try contradiction.
  - split; [|now left]. split; [reflexivity|]. split; [|exact I].
    constructor; [now split|].
    eapply Forall_impl; [|exact Hin]. intros av H. now split.
  - split; [|exact I]. split; [reflexivity|]. split; [|exact I].
    eapply Forall_impl; [|exact Hin]. intros av H. now split.
Qed.

(** The evaluators and the entry points over the store compute the values
    of the evaluators and entry points, on the arrays of the store that show
    their arguments. *)
Theorem store_evaluate_direct_refines
  (st : Store.state) (self : Chebyshev) (x s : Store.array) (vx vs : ndarray) :
  represents st self -> models st x vx -> models st s vs ->
  Store.value_of (Store._evaluate_direct x s) st = _evaluate_direct self vx vs.
Proof.
  intros Hrep Hx Hs.
  destruct (known_start st self [(x, vx); (s, vs)] Hrep) as [Hk Hc];
    [repeat (apply Forall_cons; [assumption|]); apply Forall_nil|].
  refine (sim_value_of _ _ _ st _ Hk).
  apply sim_evaluate_direct; [exact Hc| |]; apply in_or_app; right; in_ctx.
Qed.

Theorem store_evaluate_recursive_refines
  (st : Store.state) (self : Chebyshev) (x s : Store.array) (vx vs : ndarray) :
  represents st self -> models st x vx -> models st s vs ->
  Store.value_of (Store._evaluate_recursive x s) st
  = _evaluate_recursive self vx vs.
Proof.
  intros Hrep Hx Hs.
  destruct (known_start st self [(x, vx); (s, vs)] Hrep) as [Hk Hc];
    [repeat (apply Forall_cons; [assumption|]); apply Forall_nil|].
  refine (sim_value_of _ _ _ st _ Hk).
  apply sim_evaluate_recursive; [exact Hc| |]; apply in_or_app; right; in_ctx.
Qed.

(** X15: the entry point over the store returns the array, or raises the
    exception, that it gives on values, whatever memory [x] shares with the
    coefficients. *)
Theorem store_evaluate_refines
  (st : Store.state) (self : Chebyshev) (x : Store.array) (vx : ndarray)
  (method : option string) (log : list event) :
  represents st self -> models st x vx ->
  Store.value_of (Store._evaluate x method) st
  = fst (_evaluate self vx method log).
Proof.
  intros Hrep Hx. rewrite evaluate_fst.
  destruct (known_start st self [(x, vx)] Hrep) as [Hk Hc];
    [repeat (apply Forall_cons; [assumption|]); apply Forall_nil|].
  refine (sim_value_of _ _ _ st _ Hk).
  apply sim_evaluate; [apply Hrep|exact Hc|]. apply in_or_app; right; in_ctx.
Qed.

Theorem store_filter_refines
  (st : Store.state) (self : Chebyshev) (s : Store.array) (vs : ndarray)
  (method : option string) (unused : Store.value) (vunused : pyval)
  (log : list event) :
  Store.value_of (Store._filter s method unused) st
  = fst (_filter self vs method vunused log).
Proof. reflexivity. Qed.

(** X16: construction over the store, from a [Filter] object, an array or a
    list of rows, builds an instance that represents the object constructed,
    or fails as its construction does. *)
Theorem store_init_represents
  (g : Graph) (filters : Store.filters_arg) (vfilters : filters_arg)
  (ord : Z) (st0 : Store.state) :
  filters_models st0 filters vfilters ->
  match __init__ g vfilters ord with
  | Ok self =>
      exists st1, Store.__init__ g filters ord st0 = (Ok tt, st1)
                  /\ represents st1 self
  | Raise e => exists st1, Store.__init__ g filters ord st0 = (Raise e, st1)
  end.
Proof.
  unfold filters_models.
  destruct filters as [nf|a|v]; destruct vfilters as [nf'|v'];
    try contradiction.
  - intros <-. eexists. split; [reflexivity|]. repeat split.
  - intros Hm. unfold __init__, Store.__init__.
    cbv [Store.bind Store.setattr Store.try_except Store._compute_coefficients
         Store.ret Store.lift Store.get_Nf Store.np_asarray
         Store.getattr_coefficients Store.set_coefficients Store.set_Nf
         Store.attrs Store.buffers Store.logged Store.G Store.order
         Store._coefficients Store.Nf try_except _compute_coefficients
         get_Nf obind np_asarray get_coefficients _coefficients].
    rewrite <- (models_shape _ _ _ Hm).
    destruct (shape_at (shape v') 1) as [nf|e]; [|eauto].
    eexists. split; [reflexivity|]. repeat split; try apply Hm.
  - intros [<- Hc]. unfold __init__, Store.__init__.
    cbv [Store.bind Store.setattr Store.try_except Store._compute_coefficients
         Store.ret Store.lift Store.get_Nf Store.np_asarray Store.alloc
         Store.getattr_coefficients Store.set_coefficients Store.set_Nf
         Store.attrs Store.buffers Store.logged Store.G Store.order
         Store._coefficients Store.Nf Store.ashape try_except
         _compute_coefficients get_Nf obind np_asarray get_coefficients
         _coefficients].
    destruct (shape_at (shape v) 1) as [nf|e]; [|eauto].
    eexists. split; [reflexivity|]. repeat split; simpl.
    + rewrite length_app. simpl. lia.
    + exact (proj2 (models_alloc_new st0 v Hc)).
Qed.

End Refinement.

(** The store model agrees with the evaluator on values, here on the
    coefficients (1, 2, 3), the points (1, 1/2) and the signal 2 ... *)
Example store_evaluate_recursive_example :
  Store.value_of
    (Store.bind (Store.alloc (points [1; 1 / 2])) (fun x =>
     Store.bind (Store.const (Fin 2)) (fun s =>
     Store._evaluate_recursive x s)))
    example_constructed
  = _evaluate_recursive example_order2 (points [1; 1 / 2]) (scalar (Fin 2)).
Proof. vm_compute. reflexivity. Qed.

(** ... and it can tell a mutation: [c += c] on the coefficient array changes
    what an observer reads. *)
Example store_observes_mutation :
  Store.observed_coefficients example_constructed
  = Some (mk_ndarray [3; 1]%nat [Fin 1; Fin 2; Fin 3])
  /\ Store.observed_coefficients
       (snd (Store.iadd example_coefficients example_coefficients
               example_constructed))
     = Some (mk_ndarray [3; 1]%nat [Fin (1 + 1); Fin (2 + 2); Fin (3 + 3)]).
Proof. split; vm_compute; reflexivity. Qed.

(** * Further properties *)

(** ** The series the evaluators compute *)


Lemma recursive_sum_ext (c c' : nat -> num) (sv xv : num) (K : nat) :
  (forall k, (k < K)%nat -> c k = c' k) ->
  recursive_sum c sv xv K = recursive_sum c' sv xv K.
Proof.
  induction K as [|K IH]; intros H; [reflexivity|].
  simpl. destruct K as [|K'].
  - now rewrite H by lia.
  - rewrite IH by (intros; apply H; lia). now rewrite (H (S K')) by lia.
Qed.

Lemma direct_sum_ext (c c' : nat -> num) (sv xv : num) (K : nat) :
  (forall k, (k < K)%nat -> c k = c' k) ->
  direct_sum c sv xv K = direct_sum c' sv xv K.
Proof.
  induction K as [|K IH]; intros H; [reflexivity|].
  simpl. rewrite IH by (intros; apply H; lia). now rewrite (H K) by lia.
Qed.

Lemma real_of_finite (v : num) : is_finite v -> v = Fin (real_of v).
Proof. destruct v; simpl; [reflexivity|contradiction]. Qed.

Section FiniteCoefficients.

Variable coef : ndarray.
Variables K F : nat.
Hypothesis Hshape : shape coef = [K; F].
Hypothesis Hwf : well_formed coef.
Hypothesis Hfin : Forall is_finite (data coef).

Lemma coefficient_finite (k f : nat) :
  (k < K)%nat -> (f < F)%nat ->
  get coef [k; f] = Fin (real_of (get coef [k; f])).
Proof.
  intros Hk Hf. apply real_of_finite. apply get_finite; try assumption.
  rewrite Hshape. simpl. tauto.
Qed.

Lemma recursive_sum_series (f : nat) (x : R) :
  (f < F)%nat -> (1 <= K)%nat ->
  recursive_sum (fun k => get coef [k; f]) (Fin 1) (Fin x) K
  = Fin (chebyshev_series (fun k => real_of (get coef [k; f])) 1 x K).
Proof.
  intros Hf HK. rewrite <- recursive_sum_chebyshev_series by exact HK.
  apply recursive_sum_ext. intros k Hk. now apply coefficient_finite.
Qed.

Lemma direct_sum_series (f : nat) (x : R) :
  (f < F)%nat -> (1 <= K)%nat -> -1 <= x <= 1 ->
  direct_sum (fun k => get coef [k; f]) (Fin 1) (Fin x) K
  = Fin (chebyshev_series (fun k => real_of (get coef [k; f])) 1 x K).
Proof.
  intros Hf HK Hx. rewrite direct_sum_recursive_sum by assumption.
  now apply recursive_sum_series.
Qed.

End FiniteCoefficients.

Lemma fold_Rmin_ge (b : R) (rs : list R) :
  forall r0, b <= r0 -> Forall (fun r => b <= r) rs ->
             b <= fold_left Rmin rs r0.
Proof.
  induction rs as [|r rs IH]; intros r0 H0 H; simpl; [exact H0|].
  inversion H; subst. apply IH; [|assumption].
  unfold Rmin. destruct (Rle_dec r0 r); assumption.
Qed.

Lemma fold_Rmax_le (b : R) (rs : list R) :
  forall r0, r0 <= b -> Forall (fun r => r <= b) rs ->
             fold_left Rmax rs r0 <= b.
Proof.
  induction rs as [|r rs IH]; intros r0 H0 H; simpl; [exact H0|].
  inversion H; subst. apply IH; [|assumption].
  unfold Rmax. destruct (Rle_dec r0 r); assumption.
Qed.

Lemma outside_domain_false (self : Chebyshev) (rs : list R) :
  rs <> [] ->
  Forall (fun r => 0 <= r <= lmax (G self)) rs ->
  outside_domain self (points rs) = Ok false.
Proof.
  intros Hne Hall. destruct rs as [|r0 rs]; [congruence|].
  inversion Hall as [|? ? H0 Hrs]; subst.
  unfold outside_domain, np_min, np_max, points. simpl.
  rewrite fold_min_fin, fold_max_fin. simpl.
  assert (Hlo : 0 <= fold_left Rmin rs r0).
  { apply fold_Rmin_ge; [tauto|].
    eapply Forall_impl; [|exact Hrs]. simpl. tauto. }
  assert (Hhi : fold_left Rmax rs r0 <= lmax (G self)).
  { apply fold_Rmax_le; [tauto|].
    eapply Forall_impl; [|exact Hrs]. simpl. tauto. }
  destruct (Rlt_dec (fold_left Rmin rs r0) 0); [lra|]. simpl.
  destruct (Rlt_dec (lmax (G self)) (fold_left Rmax rs r0)); [lra|reflexivity].
Qed.

Lemma rescaled_inside (l r : R) :
  0 < l -> 0 <= r <= l -> -1 <= 2 * r / l - 1 <= 1.
Proof.
  intros Hl [H0 H1].
  assert (H : 0 <= r / l <= 1).
  { split.
    - apply Rmult_le_pos; [exact H0|]. left. now apply Rinv_0_lt_compat.
    - apply (Rmult_le_reg_r l); [exact Hl|]. unfold Rdiv.
      rewrite Rmult_assoc, Rinv_l by lra. lra. }
  unfold Rdiv in *. rewrite Rmult_assoc. lra.
Qed.

(** X1: in its domain, the scalar entry point logs no warning and returns the
    values of the Chebyshev series at the rescaled points, whichever method
    is asked for. *)
Theorem evaluate_in_domain
  (self : Chebyshev) (coef : ndarray) (K F : nat) (rs : list R)
  (log : list event) :
  _coefficients self = Some coef ->
  shape coef = [K; F] ->
  well_formed coef ->
  Forall is_finite (data coef) ->
  (1 <= K)%nat ->
  0 < lmax (G self) ->
  rs <> [] ->
  Forall (fun r => 0 <= r <= lmax (G self)) rs ->
  _evaluate self (points rs) None log
  = (Ok (series_values coef K F
           (fun n => 2 * nth n rs 0 / lmax (G self) - 1) (length rs)),
     log ++ [Call "_evaluate_recursive"])
  /\ _evaluate self (points rs) (Some "recursive"%string) log
     = (Ok (series_values coef K F
              (fun n => 2 * nth n rs 0 / lmax (G self) - 1) (length rs)),
        log ++ [Call "_evaluate_recursive"])
  /\ _evaluate self (points rs) (Some "direct"%string) log
     = (Ok (series_values coef K F
              (fun n => 2 * nth n rs 0 / lmax (G self) - 1) (length rs)),
        log ++ [Call "_evaluate_direct"]).
Proof.
  intros Hcoef Hshape Hwf Hfin HK Hl Hne Hin.
  assert (Hl0 : lmax (G self) <> 0) by lra.
  pose proof (outside_domain_false self rs Hne Hin) as Hout.
  assert (Hrec : forall method,
             method = None \/ method = Some "recursive"%string ->
             _evaluate self (points rs) method log
             = (Ok (series_values coef K F
                      (fun n => 2 * nth n rs 0 / lmax (G self) - 1)
                      (length rs)),
                log ++ [Call "_evaluate_recursive"])).
  { intros method Hm.
    rewrite (evaluate_recursive_method self coef K F Hcoef Hshape Hwf Hl0
               rs false Hout method log HK Hm).
    simpl. rewrite app_nil_r. f_equal. f_equal. apply mat_ext.
    intros f n Hf Hn. apply (recursive_sum_series coef K F); assumption. }
  split; [apply Hrec; now left|]. split; [apply Hrec; now right|].
  rewrite (evaluate_direct_method self coef K F Hcoef Hshape Hwf Hl0
             rs false Hout log).
  simpl. rewrite app_nil_r. f_equal. f_equal. apply mat_ext.
  intros f n Hf Hn. apply (direct_sum_series coef K F); try assumption.
  apply rescaled_inside; [exact Hl|].
  rewrite Forall_forall in Hin. apply Hin. now apply nth_In.
Qed.

Lemma example_order2_finite :
  Forall is_finite (data (matrix 1 [[Fin 1]; [Fin 2]; [Fin 3]])).
Proof. repeat (apply Forall_cons; [exact I|]). apply Forall_nil. Qed.

Lemma evaluate_in_domain_witness :
  _evaluate example_order2 (points [0; 2; 4]) None []
  = (Ok (series_values (matrix 1 [[Fin 1]; [Fin 2]; [Fin 3]]) 3 1
           (fun n => 2 * nth n [0; 2; 4] 0 / 4 - 1) 3),
     [Call "_evaluate_recursive"])
  /\ _evaluate example_order2 (points [0; 2; 4]) (Some "recursive"%string) []
     = (Ok (series_values (matrix 1 [[Fin 1]; [Fin 2]; [Fin 3]]) 3 1
              (fun n => 2 * nth n [0; 2; 4] 0 / 4 - 1) 3),
        [Call "_evaluate_recursive"])
  /\ _evaluate example_order2 (points [0; 2; 4]) (Some "direct"%string) []
     = (Ok (series_values (matrix 1 [[Fin 1]; [Fin 2]; [Fin 3]]) 3 1
              (fun n => 2 * nth n [0; 2; 4] 0 / 4 - 1) 3),
        [Call "_evaluate_direct"]).
Proof.
  apply (evaluate_in_domain example_order2
           (matrix 1 [[Fin 1]; [Fin 2]; [Fin 3]]) 3 1 [0; 2; 4] []).
  - reflexivity.
  - reflexivity.
  - reflexivity.
  - exact example_order2_finite.
  - lia.
  - simpl. lra.
  - discriminate.
  - simpl. repeat (apply Forall_cons; [lra|]). apply Forall_nil.
Defined.

(** On [-1, 1] the Chebyshev polynomials stay in [-1, 1]. *)
Lemma chebyshev_T_bounded (x : R) (k : nat) :
  -1 <= x <= 1 -> -1 <= chebyshev_T k x <= 1.
Proof.
  intros Hx. rewrite <- (cos_arccos_chebyshev x Hx k). apply COS_bound.
Qed.

(** X2: with the default signal, the recursive evaluator returns the values
    of the series at every array of points of [-1, 1]; the states of its
    recurrence are the Chebyshev polynomials at the points, which stay in
    [-1, 1]. *)
Theorem evaluate_recursive_series
  (self : Chebyshev) (coef : ndarray) (K F : nat) (rs : list R) :
  _coefficients self = Some coef ->
  shape coef = [K; F] ->
  well_formed coef ->
  Forall is_finite (data coef) ->
  (1 <= K)%nat ->
  Forall (fun r => -1 <= r <= 1) rs ->
  _evaluate_recursive self (points rs) default_s
  = Ok (series_values coef K F (fun n => nth n rs 0) (length rs))
  /\ forall n k,
       (n < length rs)%nat ->
       recurrence_state (Fin 1) (Fin (nth n rs 0)) k
       = Fin (chebyshev_T k (nth n rs 0))
       /\ -1 <= chebyshev_T k (nth n rs 0) <= 1.
Proof.
  intros Hcoef Hshape Hwf Hfin HK Hrs. split.
  - rewrite points_vec. unfold default_s.
    rewrite (evaluate_recursive_on_points self coef K F Hcoef Hshape Hwf)
      by exact HK.
    f_equal. apply mat_ext. intros f n Hf Hn.
    apply (recursive_sum_series coef K F); assumption.
  - intros n k Hn. split; [apply recurrence_state_chebyshev|].
    apply chebyshev_T_bounded.
    rewrite Forall_forall in Hrs. apply Hrs. now apply nth_In.
Qed.

Lemma evaluate_recursive_series_witness :
  _evaluate_recursive example_order2 (points [1 / 2; -1]) default_s
  = Ok (series_values (matrix 1 [[Fin 1]; [Fin 2]; [Fin 3]]) 3 1
          (fun n => nth n [1 / 2; -1] 0) 2)
  /\ forall n k,
       (n < length ([1 / 2; -1]%R))%nat ->
       recurrence_state (Fin 1) (Fin (nth n [1 / 2; -1] 0)) k
       = Fin (chebyshev_T k (nth n [1 / 2; -1] 0))
       /\ -1 <= chebyshev_T k (nth n [1 / 2; -1] 0) <= 1.
Proof.
  apply (evaluate_recursive_series example_order2
           (matrix 1 [[Fin 1]; [Fin 2]; [Fin 3]]) 3 1 [1 / 2; -1]).
  - reflexivity.
  - reflexivity.
  - reflexivity.
  - exact example_order2_finite.
  - lia.
  - repeat (apply Forall_cons; [lra|]). apply Forall_nil.
Defined.

(** X3: the direct evaluator works point by point: at a point of [-1, 1] it
    returns the value of the series, at any other point [nan], whatever the
    other points are. *)
Theorem evaluate_direct_pointwise
  (self : Chebyshev) (coef : ndarray) (K F : nat) (rs : list R) :
  _coefficients self = Some coef ->
  shape coef = [K; F] ->
  well_formed coef ->
  Forall is_finite (data coef) ->
  (1 <= K)%nat ->
  exists res,
    _evaluate_direct self (points rs) default_s = Ok res
    /\ shape res = [F; length rs]
    /\ forall f n,
         (f < F)%nat -> (n < length rs)%nat ->
         (-1 <= nth n rs 0 <= 1 ->
          get res [f; n]
          = Fin (chebyshev_series (fun k => real_of (get coef [k; f])) 1
                   (nth n rs 0) K))
         /\ (~ (-1 <= nth n rs 0 <= 1) -> get res [f; n] = NaN).
Proof.
  intros Hcoef Hshape Hwf Hfin HK. rewrite points_vec. unfold default_s.
  rewrite (evaluate_direct_on_points self coef K F Hcoef Hshape Hwf).
  eexists. split; [reflexivity|]. split; [reflexivity|].
  intros f n Hf Hn. rewrite get_mat by assumption. split; intros Hx.
  - apply (direct_sum_series coef K F); assumption.
  - now apply direct_sum_outside.
Qed.

Lemma evaluate_direct_pointwise_witness :
  exists res,
    _evaluate_direct example_order2 (points [1 / 2; 2]) default_s = Ok res
    /\ shape res = [1; 2]%nat
    /\ forall f n,
         (f < 1)%nat -> (n < 2)%nat ->
         (-1 <= nth n [1 / 2; 2] 0 <= 1 ->
          get res [f; n]
          = Fin (chebyshev_series
                   (fun k => real_of (get (matrix 1 [[Fin 1]; [Fin 2]; [Fin 3]])
                                          [k; f])) 1
                   (nth n [1 / 2; 2] 0) 3))
         /\ (~ (-1 <= nth n [1 / 2; 2] 0 <= 1) -> get res [f; n] = NaN).
Proof.
  apply (evaluate_direct_pointwise example_order2
           (matrix 1 [[Fin 1]; [Fin 2]; [Fin 3]]) 3 1 [1 / 2; 2]).
  - reflexivity.
  - reflexivity.
  - reflexivity.
  - exact example_order2_finite.
  - lia.
Defined.

(** ** Shapes *)

Section Shapes.

Lemma broadcast_rev_length (a b sh : list nat) :
  broadcast_rev a b = Some sh -> length sh = Nat.max (length a) (length b).
Proof.
  revert b sh. induction a as [|d1 a IH]; intros b sh; simpl.
  - intros E. now inversion E.
  - destruct b as [|d2 b]; [intros E; now inversion E|].
    destruct (broadcast_dim d1 d2); [|discriminate].
    destruct (broadcast_rev a b) as [r|] eqn:Er; [|discriminate].
    intros E. inversion E. simpl. f_equal. now apply IH.
Qed.

Lemma broadcast_shapes_length (a b sh : list nat) :
  broadcast_shapes a b = Some sh -> length sh = Nat.max (length a) (length b).
Proof.
  unfold broadcast_shapes.
  destruct (broadcast_rev (rev a) (rev b)) as [r|] eqn:E; [|discriminate].
  intros H. inversion H. rewrite length_rev.
  rewrite (broadcast_rev_length _ _ _ E). now rewrite !length_rev.
Qed.

Lemma broadcast_shapes_nil_l (sh : list nat) : broadcast_shapes [] sh = Some sh.
Proof. unfold broadcast_shapes. simpl. now rewrite rev_involutive. Qed.

Lemma broadcast_shapes_nil_r (sh : list nat) : broadcast_shapes sh [] = Some sh.
Proof.
  unfold broadcast_shapes. cbn [rev].
  destruct (rev sh) eqn:E; cbn [broadcast_rev option_map].
  - f_equal. rewrite <- (rev_involutive sh), E. reflexivity.
  - rewrite <- E. now rewrite rev_involutive.
Qed.

Lemma elementwise_shape (f : num -> num -> num) (a b v : ndarray) :
  elementwise f a b = Ok v ->
  broadcast_shapes (shape a) (shape b) = Some (shape v).
Proof.
  unfold elementwise.
  destruct (broadcast_shapes (shape a) (shape b)); [|discriminate].
  intros E. now inversion E.
Qed.

Lemma elementwise_raises (f : num -> num -> num) (a b : ndarray) (e : exn) :
  elementwise f a b = Raise e -> e = ValueError.
Proof.
  unfold elementwise.
  destruct (broadcast_shapes (shape a) (shape b)); [discriminate|].
  intros E. now inversion E.
Qed.

Lemma elementwise_scalar_l (f : num -> num -> num) (v : num) (a : ndarray) :
  exists r, elementwise f (scalar v) a = Ok r /\ shape r = shape a.
Proof.
  unfold elementwise. change (shape (scalar v)) with (@nil nat).
  rewrite broadcast_shapes_nil_l.
  eexists. split; reflexivity.
Qed.

Lemma elementwise_scalar_r (f : num -> num -> num) (v : num) (a : ndarray) :
  exists r, elementwise f a (scalar v) = Ok r /\ shape r = shape a.
Proof.
  unfold elementwise. change (shape (scalar v)) with (@nil nat).
  rewrite broadcast_shapes_nil_r.
  eexists. split; reflexivity.
Qed.

Lemma np_dot_raises (a b : ndarray) (e : exn) :
  np_dot a b = Raise e -> e = ValueError.
Proof.
  unfold np_dot.
  destruct (shape a); [apply elementwise_raises|].
  destruct (shape b); [apply elementwise_raises|].
  destruct (_ =? _)%nat; [discriminate|].
  intros E. now inversion E.
Qed.

Lemma shape_eqb_length (a b : list nat) :
  length a <> length b -> shape_eqb a b = false.
Proof.
  intros H. destruct (shape_eqb a b) eqn:E; [|reflexivity].
  apply shape_eqb_eq in E. now subst.
Qed.

(** [a += b] fails when [b] has more axes than [a]. *)
Lemma np_iadd_more_axes (a b : ndarray) :
  (ndim a < ndim b)%nat -> np_iadd a b = Raise ValueError.
Proof.
  unfold np_iadd, ndim. intros H.
  destruct (broadcast_shapes (shape a) (shape b)) as [sh|] eqn:E;
    [|reflexivity].
  apply broadcast_shapes_length in E.
  rewrite shape_eqb_length; [reflexivity|lia].
Qed.

Lemma rescale_total (self : Chebyshev) (x : ndarray) :
  exists x', rescale self x = Ok x' /\ shape x' = shape x.
Proof.
  unfold rescale, np_mul, np_div, np_sub.
  destruct (elementwise_scalar_l Num.mul (Fin 2) x) as [a [-> Ha]]. simpl.
  destruct (elementwise_scalar_r Num.div (Fin (lmax (G self))) a)
    as [b [-> Hb]].
  simpl.
  destruct (elementwise_scalar_r Num.sub (Fin 1) b) as [c [-> Hc]].
  exists c. split; [reflexivity|congruence].
Qed.

Lemma outside_domain_total (self : Chebyshev) (x : ndarray) :
  data x <> [] -> exists out, outside_domain self x = Ok out.
Proof.
  intros H. unfold outside_domain, np_min, np_max.
  destruct (data x) as [|v l]; [congruence|]. simpl.
  destruct (Num.ltb _ _); eauto.
Qed.

End Shapes.

(** ** Edge cases of the entry point *)

(** X4: on an array without elements the entry point raises ValueError, from
    [x.min()], before it logs anything; the evaluators themselves return an
    array without columns for an empty array of points. *)
Theorem evaluate_empty_input
  (self : Chebyshev) (coef : ndarray) (K F : nat) :
  _coefficients self = Some coef ->
  shape coef = [K; F] ->
  well_formed coef ->
  (1 <= K)%nat ->
  (forall x method log,
      data x = [] -> _evaluate self x method log = (Raise ValueError, log))
  /\ _evaluate_recursive self (points []) default_s
     = Ok (mk_ndarray [F; 0%nat] [])
  /\ _evaluate_direct self (points []) default_s
     = Ok (mk_ndarray [F; 0%nat] []).
Proof.
  intros Hcoef Hshape Hwf HK.
  assert (Hmat : forall g, mat F 0 g = mk_ndarray [F; 0%nat] []).
  { intros g. unfold mat, tabulate. simpl. now rewrite Nat.mul_0_r. }
  split; [|split].
  - intros x method log Hx. unfold _evaluate. rewrite bind_lift.
    unfold outside_domain, np_min. now rewrite Hx.
  - rewrite points_vec. unfold default_s.
    rewrite (evaluate_recursive_on_points self coef K F Hcoef Hshape Hwf)
      by exact HK.
    simpl. now rewrite Hmat.
  - rewrite points_vec. unfold default_s.
    rewrite (evaluate_direct_on_points self coef K F Hcoef Hshape Hwf).
    simpl. now rewrite Hmat.
Qed.

Lemma evaluate_empty_input_witness :
  (forall x method log,
      data x = [] ->
      _evaluate example_order2 x method log = (Raise ValueError, log))
  /\ _evaluate_recursive example_order2 (points []) default_s
     = Ok (mk_ndarray [1; 0]%nat [])
  /\ _evaluate_direct example_order2 (points []) default_s
     = Ok (mk_ndarray [1; 0]%nat []).
Proof.
  apply (evaluate_empty_input example_order2
           (matrix 1 [[Fin 1]; [Fin 2]; [Fin 3]]) 3 1).
  - reflexivity.
  - reflexivity.
  - reflexivity.
  - lia.
Defined.

Lemma evaluate_prefix_neq (m name : string) :
  m <> name ->
  String.eqb ("_evaluate_" ++ m) ("_evaluate_" ++ name) = false.
Proof.
  intros H. apply String.eqb_neq. intros E. apply H.
  simpl in E. now inversion E.
Qed.

(** X5: a method that is neither 'direct' nor 'recursive' is found out last:
    AttributeError is raised after the domain was checked and its warning
    logged, and no evaluator is invoked. *)
Theorem evaluate_unknown_method
  (self : Chebyshev) (x : ndarray) (m : string) (log : list event) :
  data x <> [] ->
  m <> "direct"%string ->
  m <> "recursive"%string ->
  exists out,
    outside_domain self x = Ok out
    /\ _evaluate self x (Some m) log
       = (Raise (AttributeError ("_evaluate_" ++ m)),
          log ++ warnings_of self out).
Proof.
  intros Hx Hd Hr.
  destruct (outside_domain_total self x Hx) as [out Hout].
  destruct (rescale_total self x) as [x' [Hx' _]].
  exists out. split; [exact Hout|].
  unfold _evaluate. rewrite bind_lift, Hout.
  assert (Hw : forall (k : unit -> M ndarray),
             bind (if out
                   then emit (Warning domain_warning (lmax (G self)))
                   else ret tt) k log
             = k tt (log ++ warnings_of self out)).
  { intros k. destruct out; unfold bind, emit, ret, warnings_of.
    - reflexivity.
    - now rewrite app_nil_r. }
  rewrite Hw, bind_lift, Hx', bind_lift. unfold getattr_evaluate.
  change "_evaluate_direct"%string with ("_evaluate_" ++ "direct")%string.
  change "_evaluate_recursive"%string with ("_evaluate_" ++ "recursive")%string.
  rewrite !evaluate_prefix_neq by assumption. reflexivity.
Qed.

Lemma evaluate_unknown_method_witness :
  exists out,
    outside_domain example_order2 (points [5]) = Ok out
    /\ _evaluate example_order2 (points [5]) (Some "clenshaw"%string) []
       = (Raise (AttributeError ("_evaluate_" ++ "clenshaw")),
          [] ++ warnings_of example_order2 out).
Proof.
  apply (evaluate_unknown_method example_order2 (points [5]) "clenshaw" []).
  - simpl. discriminate.
  - discriminate.
  - discriminate.
Defined.

(** X6: construction from a [Filter] object succeeds and sets [Nf], but
    [_compute_coefficients] computes nothing: the object has no coefficients
    and every evaluation raises AttributeError. *)
Theorem filter_object_has_no_coefficients (g : Graph) (nf : nat) (ord : Z) :
  exists self,
    __init__ g (FilterObject nf) ord = Ok self
    /\ Nf self = Some nf
    /\ _coefficients self = None
    /\ (forall x s,
           _evaluate_direct self x s = Raise (AttributeError "_coefficients"))
    /\ (forall x s,
           _evaluate_recursive self x s
           = Raise (AttributeError "_coefficients"))
    /\ (forall x method log,
           data x <> [] ->
           method = None \/ method = Some "recursive"%string
           \/ method = Some "direct"%string ->
           fst (_evaluate self x method log)
           = Raise (AttributeError "_coefficients")).
Proof.
  eexists. split; [reflexivity|]. simpl.
  split; [reflexivity|]. split; [reflexivity|].
  split; [reflexivity|]. split; [reflexivity|].
  intros x method log Hx Hm. rewrite evaluate_fst. unfold evaluate_value.
  destruct (outside_domain_total (mk_Chebyshev g ord None (Some nf)) x Hx)
    as [out ->].
  destruct (rescale_total (mk_Chebyshev g ord None (Some nf)) x) as [x' [-> _]].
  destruct Hm as [->|[->| ->]]; cbn [obind append];
    unfold evaluator_named; cbn [String.eqb Ascii.eqb Bool.eqb obind];
    destruct (ufunc_result x'); reflexivity.
Qed.

Lemma filter_object_has_no_coefficients_witness :
  exists self,
    __init__ example_graph (FilterObject 2) default_order = Ok self
    /\ Nf self = Some 2%nat
    /\ _coefficients self = None
    /\ (forall x s,
           _evaluate_direct self x s = Raise (AttributeError "_coefficients"))
    /\ (forall x s,
           _evaluate_recursive self x s
           = Raise (AttributeError "_coefficients"))
    /\ (forall x method log,
           data x <> [] ->
           method = None \/ method = Some "recursive"%string
           \/ method = Some "direct"%string ->
           fst (_evaluate self x method log)
           = Raise (AttributeError "_coefficients")).
Proof.
  exact (filter_object_has_no_coefficients example_graph 2 default_order).
Defined.

(** ** Points that are not numbers *)

Lemma fold_min_NaN (l : list num) : fold_left Num.min l NaN = NaN.
Proof. induction l as [|v l IH]; [reflexivity|exact IH]. Qed.

Lemma fold_max_NaN (l : list num) : fold_left Num.max l NaN = NaN.
Proof. induction l as [|v l IH]; [reflexivity|exact IH]. Qed.

Lemma min_NaN_r (a : num) : Num.min a NaN = NaN.
Proof. now destruct a. Qed.

Lemma max_NaN_r (a : num) : Num.max a NaN = NaN.
Proof. now destruct a. Qed.

Lemma fold_min_In_NaN (l : list num) :
  forall v, v = NaN \/ In NaN l -> fold_left Num.min l v = NaN.
Proof.
  induction l as [|w l IH]; intros v [Hv|Hin]; simpl.
  - exact Hv.
  - destruct Hin.
  - subst v. apply fold_min_NaN.
  - destruct Hin as [->|Hin].
    + rewrite min_NaN_r. apply fold_min_NaN.
    + apply IH. now right.
Qed.

Lemma fold_max_In_NaN (l : list num) :
  forall v, v = NaN \/ In NaN l -> fold_left Num.max l v = NaN.
Proof.
  induction l as [|w l IH]; intros v [Hv|Hin]; simpl.
  - exact Hv.
  - destruct Hin.
  - subst v. apply fold_max_NaN.
  - destruct Hin as [->|Hin].
    + rewrite max_NaN_r. apply fold_max_NaN.
    + apply IH. now right.
Qed.

(** What the entry point adds to the log: the warning, if the domain check
    asks for it, then at most the invocation of one evaluator. *)
Lemma evaluate_log (self : Chebyshev) (x : ndarray) (method : option string)
  (log : list event) (out : bool) :
  outside_domain self x = Ok out ->
  exists evs,
    snd (_evaluate self x method log) = (log ++ warnings_of self out) ++ evs
    /\ (evs = [] \/ exists name, evs = [Call name]).
Proof.
  intros Hout. unfold _evaluate. rewrite bind_lift, Hout.
  assert (Hw : forall (k : unit -> M ndarray),
             bind (if out
                   then emit (Warning domain_warning (lmax (G self)))
                   else ret tt) k log
             = k tt (log ++ warnings_of self out)).
  { intros k. destruct out; unfold bind, emit, ret, warnings_of.
    - reflexivity.
    - now rewrite app_nil_r. }
  rewrite Hw, bind_lift.
  destruct (rescale self x) as [x'|e];
    [|exists []; split; [now rewrite app_nil_r|now left]].
  rewrite bind_lift. unfold getattr_evaluate.
  destruct (String.eqb _ "_evaluate_direct");
    [rewrite invoke_run; eexists; split; [reflexivity|right; eauto]|].
  destruct (String.eqb _ "_evaluate_recursive");
    [rewrite invoke_run; eexists; split; [reflexivity|right; eauto]|].
  exists []. split; [now rewrite app_nil_r|now left].
Qed.

(** X7: a [nan] among the points silences the domain check: [x.min()] and
    [x.max()] are [nan], both comparisons are false, and no warning is
    logged, wherever the other points are. *)
Theorem nan_escapes_domain_check (self : Chebyshev) (x : ndarray) :
  In NaN (data x) ->
  outside_domain self x = Ok false
  /\ forall method log w,
       In w (snd (_evaluate self x method log)) ->
       In w log \/ exists name, w = Call name.
Proof.
  intros Hin.
  assert (Hout : outside_domain self x = Ok false).
  { unfold outside_domain, np_min, np_max.
    destruct (data x) as [|v l]; [destruct Hin|]. cbn [obind].
    assert (H : v = NaN \/ In NaN l) by (destruct Hin; auto).
    now rewrite (fold_min_In_NaN l v H), (fold_max_In_NaN l v H). }
  split; [exact Hout|]. intros method log w Hw.
  destruct (evaluate_log self x method log false Hout) as [evs [E Hevs]].
  rewrite E in Hw. simpl in Hw. rewrite app_nil_r in Hw.
  apply in_app_or in Hw. destruct Hw as [Hw|Hw]; [now left|].
  destruct Hevs as [->|[name ->]]; [destruct Hw|].
  destruct Hw as [<-|[]]. right. now exists name.
Qed.

Lemma nan_escapes_domain_check_witness :
  outside_domain example_order2 (vector [Fin 100; NaN; Fin (-3)]) = Ok false
  /\ forall method log w,
       In w (snd (_evaluate example_order2 (vector [Fin 100; NaN; Fin (-3)])
                    method log)) ->
       In w log \/ exists name, w = Call name.
Proof.
  apply (nan_escapes_domain_check example_order2
           (vector [Fin 100; NaN; Fin (-3)])).
  simpl. tauto.
Defined.

(** ** What the direct evaluator returns, and what it refuses *)

Lemma for_each_invariant {S : Type} (P : S -> Prop)
  (body : nat -> S -> outcome S) (ks : list nat) :
  (forall k st st', P st -> body k st = Ok st' -> P st') ->
  forall st st', P st -> for_each ks body st = Ok st' -> P st'.
Proof.
  intros Hbody. induction ks as [|k ks IH]; intros st st' HP; simpl.
  - intros E. injection E as <-. exact HP.
  - destruct (body k st) as [st1|e] eqn:E; [|discriminate]. simpl.
    apply IH. now apply (Hbody k st).
Qed.

(** X8: whatever [x] and [s] are, a result of the direct evaluator has the
    shape (F, x.shape[0]) that [result] was created with. *)
Theorem evaluate_direct_shape
  (self : Chebyshev) (coef x s res : ndarray) :
  _coefficients self = Some coef ->
  _evaluate_direct self x s = Ok res ->
  exists K F n,
    shape coef = [K; F]
    /\ nth_error (shape x) 0 = Some n
    /\ shape res = [F; n]
    /\ well_formed res.
Proof.
  intros Hcoef. unfold _evaluate_direct, get_coefficients. rewrite Hcoef.
  cbn [obind]. unfold unpack2.
  destruct (shape coef) as [|K [|F [|? ?]]]; try discriminate. cbn [obind].
  unfold shape_at. destruct (nth_error (shape x) 0) as [n|]; [|discriminate].
  cbn [obind]. intros H. exists K, F, n.
  repeat (split; [reflexivity|]).
  refine (for_each_invariant
            (fun r => shape r = [F; n] /\ well_formed r) _ _ _ _ _ _ H).
  - intros k st st' [Hs _] E.
    destruct (getitem _ k); [|discriminate]. cbn [obind] in E.
    destruct (np_mul _ _); [|discriminate]. cbn [obind] in E.
    destruct (np_dot _ _); [|discriminate]. cbn [obind] in E.
    destruct (np_mul _ _); [|discriminate]. cbn [obind] in E.
    apply np_iadd_result in E. destruct E as [Hwf E]. split; congruence.
  - split; [reflexivity|apply np_zeros_well_formed].
Qed.

Lemma evaluate_direct_shape_witness :
  exists K F n,
    shape (matrix 1 [[Fin 1]; [Fin 2]; [Fin 3]]) = [K; F]
    /\ nth_error (shape (vec 2 (fun n => nth n [Fin 0; Fin 2] NaN))) 0 = Some n
    /\ shape (mat 1 2 (fun f n =>
                direct_sum
                  (fun k => get (matrix 1 [[Fin 1]; [Fin 2]; [Fin 3]]) [k; f])
                  (Fin 1) (nth n [Fin 0; Fin 2] NaN) 3))
       = [F; n]
    /\ well_formed
         (mat 1 2 (fun f n =>
            direct_sum
              (fun k => get (matrix 1 [[Fin 1]; [Fin 2]; [Fin 3]]) [k; f])
              (Fin 1) (nth n [Fin 0; Fin 2] NaN) 3)).
Proof.
  apply (evaluate_direct_shape example_order2
           (matrix 1 [[Fin 1]; [Fin 2]; [Fin 3]])
           (vec 2 (fun n => nth n [Fin 0; Fin 2] NaN)) (scalar (Fin 1))).
  - reflexivity.
  - apply (evaluate_direct_on_points example_order2
             (matrix 1 [[Fin 1]; [Fin 2]; [Fin 3]]) 3 1);
      reflexivity.
Defined.

(** X9: on a coefficient array without rows the two evaluators part: the
    loop of the direct one does not run and it returns zeros, the recursive
    one reads [c[0]] and raises IndexError. *)
Theorem evaluators_without_rows
  (self : Chebyshev) (coef x s : ndarray) (F n : nat) (rest : list nat) :
  _coefficients self = Some coef ->
  shape coef = [0%nat; F] ->
  shape x = n :: rest ->
  _evaluate_direct self x s = Ok (np_zeros [F; n])
  /\ _evaluate_recursive self x s = Raise IndexError.
Proof.
  intros Hcoef Hshape Hx.
  unfold _evaluate_direct, _evaluate_recursive, get_coefficients.
  rewrite Hcoef. cbn [obind]. rewrite Hshape, Hx. split; [reflexivity|].
  cbn [shape_at nth_error obind]. unfold recurrence_init, getitem.
  cbn [shape reshape_append_ones]. rewrite Hshape. reflexivity.
Qed.

Lemma evaluators_without_rows_witness :
  _evaluate_direct example_no_rows (points [1; 2; 3]) default_s
  = Ok (np_zeros [1; 3]%nat)
  /\ _evaluate_recursive example_no_rows (points [1; 2; 3]) default_s
     = Raise IndexError.
Proof.
  apply (evaluators_without_rows example_no_rows (mk_ndarray [0; 1]%nat [])
           (points [1; 2; 3]) default_s 1 3 []); reflexivity.
Defined.

Lemma getitem_shape (a : ndarray) (d : nat) (sh : list nat) (k : nat) :
  shape a = d :: sh -> (k < d)%nat ->
  exists v, getitem a k = Ok v /\ shape v = sh.
Proof.
  intros Hs Hk. unfold getitem. rewrite Hs.
  destruct (Nat.ltb_spec k d); [|lia]. eexists. split; reflexivity.
Qed.

Lemma elementwise_ndim (f : num -> num -> num) (a b v : ndarray) :
  elementwise f a b = Ok v -> ndim v = Nat.max (ndim a) (ndim b).
Proof.
  intros E. apply elementwise_shape in E.
  now apply broadcast_shapes_length in E.
Qed.

Section DirectOffVectors.

Variable self : Chebyshev.
Variables coef x s : ndarray.
Variables K F : nat.
Hypothesis Hcoef : _coefficients self = Some coef.
Hypothesis Hshape : shape coef = [K; F].

(** [x.shape[0]] on an [x] without axes. *)
Lemma evaluate_direct_no_axis :
  ndim x = 0%nat -> _evaluate_direct self x s = Raise IndexError.
Proof.
  intros Hx. unfold _evaluate_direct, get_coefficients. rewrite Hcoef.
  cbn [obind]. rewrite Hshape. cbn [unpack2 obind].
  apply length_zero_iff_nil in Hx. now rewrite Hx.
Qed.

(** The first term of the sum, for an [x] of two axes or more. *)
Lemma evaluate_direct_more_axes :
  (2 <= ndim x)%nat -> (1 <= K)%nat ->
  _evaluate_direct self x s = Raise ValueError.
Proof.
  intros Hx HK. unfold _evaluate_direct, get_coefficients. rewrite Hcoef.
  cbn [obind]. rewrite Hshape. cbn [unpack2 obind].
  unfold ndim at 1 in Hx. unfold shape_at.
  destruct (shape x) as [|n shx] eqn:Ex; [simpl in Hx; lia|].
  cbn [nth_error obind]. unfold range. rewrite Nat.sub_0_r.
  destruct K as [|K']; [lia|]. cbn [seq for_each].
  destruct (getitem_shape (reshape_append_ones coef (ndim x)) (S K')
              ([F] ++ repeat 1%nat (ndim x)) 0) as [ck [-> Hck]];
    [unfold reshape_append_ones; simpl; now rewrite Hshape|lia|].
  cbn [obind].
  destruct (elementwise_scalar_l Num.mul (Num.of_nat 0) (np_arccos x))
    as [kx [Hkx _]].
  unfold np_mul at 1. rewrite Hkx. cbn [obind].
  destruct (np_dot (np_cos kx) s) as [t|e] eqn:Et;
    [|apply np_dot_raises in Et; now subst].
  cbn [obind].
  destruct (np_mul ck t) as [term|e] eqn:Eterm;
    [|apply elementwise_raises in Eterm; now subst].
  cbn [obind]. rewrite np_iadd_more_axes; [reflexivity|].
  apply elementwise_ndim in Eterm. unfold ndim in *. rewrite Eterm, Hck.
  cbn [shape np_zeros length app]. rewrite repeat_length, Ex.
  cbn [length] in *. lia.
Qed.

End DirectOffVectors.

(** X10: the direct evaluator takes vectors only.  For a 0-d [x] it raises
    IndexError at [x.shape[0]].  For an [x] of two axes or more, an operator
    for one, its first term has more axes than [result], and [result += ...]
    raises ValueError, whatever the signal is. *)
Theorem evaluate_direct_takes_vectors_only
  (self : Chebyshev) (coef x s : ndarray) (K F : nat) :
  _coefficients self = Some coef ->
  shape coef = [K; F] ->
  (ndim x = 0%nat -> _evaluate_direct self x s = Raise IndexError)
  /\ ((2 <= ndim x)%nat -> (1 <= K)%nat ->
      _evaluate_direct self x s = Raise ValueError).
Proof.
  intros Hcoef Hshape. split.
  - intros Hx. now apply (evaluate_direct_no_axis self coef x s K F).
  - intros Hx HK. now apply (evaluate_direct_more_axes self coef x s K F).
Qed.

Lemma evaluate_direct_takes_vectors_only_witness :
  (ndim identity2 = 0%nat ->
   _evaluate_direct example_order2 identity2 (vector [Fin 1; Fin 0])
   = Raise IndexError)
  /\ ((2 <= ndim identity2)%nat -> (1 <= 3)%nat ->
      _evaluate_direct example_order2 identity2 (vector [Fin 1; Fin 0])
      = Raise ValueError).
Proof.
  apply (evaluate_direct_takes_vectors_only example_order2
           (matrix 1 [[Fin 1]; [Fin 2]; [Fin 3]]) identity2
           (vector [Fin 1; Fin 0]) 3 1); reflexivity.
Defined.

(** ** The recursive evaluator on an operator and a signal *)

Lemma np_dot_matrix_vector_shape (u s v : ndarray) (a b n : nat) :
  shape u = [a; b] -> shape s = [n] -> np_dot u s = Ok v -> shape v = [a].
Proof.
  intros Hu Hs. unfold np_dot, ndim. rewrite Hu, Hs. cbn.
  destruct (b =? n)%nat; [|discriminate].
  intros E. now inversion E.
Qed.

(** X11: for a coefficient array of two rows or more, a matrix [x] whose
    number of rows is not 1, an operator for one, and a signal vector [s],
    the recursive evaluator raises ValueError: [result] was created from
    [x0.dot(s)], a vector, and [result += c[1] * x1] adds a term of the shape
    of the operator. *)
Theorem evaluate_recursive_rejects_operator_signal
  (self : Chebyshev) (coef x s : ndarray) (K F a b n : nat) :
  _coefficients self = Some coef ->
  shape coef = [K; F] ->
  (2 <= K)%nat ->
  shape x = [a; b] ->
  a <> 1%nat ->
  shape s = [n] ->
  _evaluate_recursive self x s = Raise ValueError.
Proof.
  intros Hcoef Hshape HK Hx Ha Hs.
  unfold _evaluate_recursive, get_coefficients. rewrite Hcoef. cbn [obind].
  rewrite Hshape. cbn [shape_at nth_error obind].
  assert (Hc : shape (reshape_append_ones coef (ndim x)) = [K; F; 1; 1]%nat).
  { unfold reshape_append_ones, ndim. simpl. now rewrite Hshape, Hx. }
  unfold recurrence_init.
  destruct (getitem_shape _ K [F; 1; 1]%nat 0 Hc) as [c0 [-> Hc0]]; [lia|].
  cbn [obind].
  destruct (np_dot (np_ones_like x) s) as [x0s|e] eqn:Ed;
    [|apply np_dot_raises in Ed; now subst].
  apply (np_dot_matrix_vector_shape _ _ _ a b n) in Ed; [|exact Hx|exact Hs].
  cbn [obind].
  destruct (np_mul c0 x0s) as [res|e] eqn:E0;
    [|apply elementwise_raises in E0; now subst].
  apply elementwise_shape in E0. rewrite Hc0, Ed in E0.
  unfold broadcast_shapes in E0. cbn [rev app broadcast_rev] in E0.
  rewrite broadcast_dim_1_l in E0. cbn in E0. injection E0 as Hres.
  cbn [obind]. destruct (Nat.ltb_spec 1 K) as [_|]; [|lia].
  destruct (getitem_shape _ K [F; 1; 1]%nat 1 Hc) as [c1 [-> Hc1]]; [lia|].
  cbn [obind].
  destruct (np_mul c1 x) as [term|e] eqn:E1;
    [|apply elementwise_raises in E1; now subst].
  apply elementwise_shape in E1. rewrite Hc1, Hx in E1.
  unfold broadcast_shapes in E1. cbn [rev app broadcast_rev] in E1.
  rewrite !broadcast_dim_1_l in E1. cbn in E1. injection E1 as Hterm.
  cbn [obind].
  assert (Hadd : np_iadd res term = Raise ValueError).
  { unfold np_iadd. rewrite <- Hres, <- Hterm. unfold broadcast_shapes.
    cbn [rev app broadcast_rev].
    rewrite broadcast_dim_refl, broadcast_dim_1_l.
    destruct (broadcast_dim a b) as [d|]; [|reflexivity].
    cbn. destruct (Nat.eqb_spec a 1) as [|_]; [contradiction|].
    now rewrite andb_false_r. }
  now rewrite Hadd.
Qed.

Lemma evaluate_recursive_rejects_operator_signal_witness :
  _evaluate_recursive example_order2 identity2 (vector [Fin 1; Fin 0])
  = Raise ValueError.
Proof.
  apply (evaluate_recursive_rejects_operator_signal example_order2
           (matrix 1 [[Fin 1]; [Fin 2]; [Fin 3]]) identity2
           (vector [Fin 1; Fin 0]) 3 1 2 2 2).
  - reflexivity.
  - reflexivity.
  - lia.
  - reflexivity.
  - lia.
  - reflexivity.
Defined.

(** ** The recursive evaluator on arrays of any shape *)

Section AnyShape.

Lemma broadcast_rev_refl (a : list nat) : broadcast_rev a a = Some a.
Proof.
  induction a as [|d a IH]; simpl; [reflexivity|].
  now rewrite broadcast_dim_refl, IH.
Qed.

Lemma broadcast_shapes_refl (sh : list nat) : broadcast_shapes sh sh = Some sh.
Proof.
  unfold broadcast_shapes. rewrite broadcast_rev_refl. simpl.
  now rewrite rev_involutive.
Qed.

Lemma broadcast_rev_ones (F : nat) (l : list nat) :
  broadcast_rev (repeat 1%nat (length l) ++ [F]) l = Some (l ++ [F]).
Proof.
  induction l as [|d l IH]; [reflexivity|].
  cbn [length repeat app broadcast_rev].
  now rewrite broadcast_dim_1_l, IH.
Qed.

Lemma rev_repeat_ones (n : nat) : rev (repeat 1%nat n) = repeat 1%nat n.
Proof.
  induction n as [|n IH]; [reflexivity|]. simpl. rewrite IH.
  clear IH. induction n as [|n IH]; [reflexivity|]. simpl. now rewrite IH.
Qed.

(** A row of coefficients, of shape (F, 1, ..., 1), against an array. *)
Lemma broadcast_shapes_ones (F : nat) (sh : list nat) :
  broadcast_shapes (F :: repeat 1%nat (length sh)) sh = Some (F :: sh).
Proof.
  unfold broadcast_shapes. cbn [rev]. rewrite rev_repeat_ones.
  rewrite <- (length_rev sh), broadcast_rev_ones. simpl.
  now rewrite rev_app_distr, rev_involutive.
Qed.

Lemma elementwise_ok (f : num -> num -> num) (a b : ndarray) (sh : list nat) :
  broadcast_shapes (shape a) (shape b) = Some sh ->
  exists r, elementwise f a b = Ok r /\ shape r = sh /\ well_formed r.
Proof.
  intros H. unfold elementwise. rewrite H. eexists.
  split; [reflexivity|]. split; [reflexivity|apply tabulate_well_formed].
Qed.

Lemma np_dot_scalar_r (a s : ndarray) :
  shape s = [] -> np_dot a s = np_mul a s.
Proof. intros Hs. unfold np_dot. rewrite Hs. now destruct (shape a). Qed.

Lemma shape_eqb_refl (sh : list nat) : shape_eqb sh sh = true.
Proof.
  induction sh as [|d l IH]; [reflexivity|].
  simpl. now rewrite Nat.eqb_refl, IH.
Qed.

Lemma np_iadd_same_shape (a b : ndarray) :
  shape b = shape a ->
  exists r, np_iadd a b = Ok r /\ shape r = shape a /\ well_formed r.
Proof.
  intros H. unfold np_iadd. rewrite H, broadcast_shapes_refl, shape_eqb_refl.
  apply elementwise_ok. rewrite H. apply broadcast_shapes_refl.
Qed.

Lemma for_each_total {S : Type} (P : S -> Prop)
  (body : nat -> S -> outcome S) (ks : list nat) :
  (forall k st, In k ks -> P st -> exists st', body k st = Ok st' /\ P st') ->
  forall st, P st -> exists st', for_each ks body st = Ok st' /\ P st'.
Proof.
  induction ks as [|k ks IH]; intros Hbody st HP.
  - exists st. now split.
  - destruct (Hbody k st (or_introl eq_refl) HP) as [st1 [E1 H1]].
    simpl. rewrite E1. simpl. apply IH; [|exact H1].
    intros k' st' Hin. apply Hbody. now right.
Qed.

End AnyShape.

Section ScalarSignal.

Variables coef x s : ndarray.
Variables K F : nat.
Hypothesis Hshape : shape coef = [K; F].
Hypothesis Hs : shape s = [].

Let c : ndarray := reshape_append_ones coef (ndim x).

Lemma reshaped_coefficients_shape :
  shape c = K :: F :: repeat 1%nat (length (shape x)).
Proof. unfold c, reshape_append_ones, ndim. simpl. now rewrite Hshape. Qed.

(** [c[k] * v] for an array [v] of the shape of [x]. *)
Lemma coefficient_row_term (k : nat) (v : ndarray) :
  (k < K)%nat -> shape v = shape x ->
  exists ck term,
    getitem c k = Ok ck /\ np_mul ck v = Ok term
    /\ shape term = F :: shape x /\ well_formed term.
Proof.
  intros Hk Hv.
  destruct (getitem_shape c K _ k reshaped_coefficients_shape Hk)
    as [ck [Eck Hck]].
  destruct (elementwise_ok Num.mul ck v (F :: shape x)) as [term [Et Ht]];
    [rewrite Hck, Hv; apply broadcast_shapes_ones|].
  destruct Ht as [Ht Hwf]. exists ck, term. repeat split; assumption.
Qed.

(** [v.dot(s)] for a scalar [s]. *)
Lemma dot_scalar_signal (v : ndarray) :
  shape v = shape x ->
  exists xs, np_dot v s = Ok xs /\ shape xs = shape x.
Proof.
  intros Hv. rewrite np_dot_scalar_r by exact Hs.
  destruct (elementwise_ok Num.mul v s (shape x)) as [xs [E [H _]]];
    [rewrite Hv, Hs; apply broadcast_shapes_nil_r|].
  exists xs. now split.
Qed.

(** The statements before the loop return. *)
Lemma recurrence_init_returns :
  (1 <= K)%nat ->
  exists st,
    recurrence_init c x s K = Ok st
    /\ recurrence_shapes x F st
    /\ ((2 <= K)%nat -> exists v, x1 st = Some v /\ shape v = shape x).
Proof.
  intros HK. unfold recurrence_init, recurrence_shapes.
  destruct (dot_scalar_signal (np_ones_like x) eq_refl) as [x0s [Ex0s Hx0s]].
  destruct (coefficient_row_term 0%nat x0s)
    as [c0 [res [Ec0 [Eres [Hres Hwf]]]]]; [lia|exact Hx0s|].
  rewrite Ec0. cbn [obind]. rewrite Ex0s. cbn [obind]. rewrite Eres.
  cbn [obind].
  destruct (Nat.ltb_spec 1 K) as [H1|H1].
  - destruct (coefficient_row_term 1%nat x)
      as [c1 [term [Ec1 [Eterm [Hterm _]]]]]; [lia|reflexivity|].
    rewrite Ec1. cbn [obind]. rewrite Eterm. cbn [obind].
    destruct (np_iadd_same_shape res term) as [res' [E' [H' Hwf']]];
      [congruence|].
    rewrite E'. cbn [obind]. eexists. split; [reflexivity|].
    cbn [x0 x1 result]. repeat split; try congruence.
    intros _. now exists x.
  - eexists. split; [reflexivity|]. cbn [x0 x1 result].
    repeat split; try assumption. lia.
Qed.

(** One turn of the loop returns. *)
Lemma recurrence_step_returns (k : nat) (st : recurrence) :
  (k < K)%nat ->
  recurrence_shapes x F st ->
  (exists v, x1 st = Some v /\ shape v = shape x) ->
  exists st',
    recurrence_step c x s k st = Ok st'
    /\ recurrence_shapes x F st'
    /\ exists v, x1 st' = Some v /\ shape v = shape x.
Proof.
  intros Hk [Ht0 [Htr _]] [v [Ev Hv]]. unfold recurrence_step.
  destruct (dot_scalar_signal x eq_refl) as [xs [Exs Hxs']].
  rewrite Exs. cbn [obind].
  destruct (elementwise_scalar_l Num.mul (Fin 2) xs) as [two_xs [E2 H2]].
  unfold np_mul at 1. rewrite E2. cbn [obind].
  unfold load_x1. rewrite Ev. cbn [obind].
  destruct (elementwise_ok Num.mul two_xs v (shape x)) as [p [Ep [Hp _]]];
    [rewrite H2, Hxs', Hv; apply broadcast_shapes_refl|].
  unfold np_mul at 1. rewrite Ep. cbn [obind].
  destruct (elementwise_ok Num.sub p (x0 st) (shape x)) as [x2 [Ex2 [Hx2 _]]];
    [rewrite Hp, Ht0; apply broadcast_shapes_refl|].
  unfold np_sub. rewrite Ex2. cbn [obind].
  destruct (coefficient_row_term k x2)
    as [ck [term [Eck [Eterm [Hterm _]]]]]; [lia|exact Hx2|].
  rewrite Eck. cbn [obind]. rewrite Eterm. cbn [obind].
  destruct (np_iadd_same_shape (result st) term) as [res' [E' [H' Hwf']]];
    [congruence|].
  rewrite E'. cbn [obind]. eexists. split; [reflexivity|].
  unfold recurrence_shapes. cbn [x0 x1 result].
  repeat split; try congruence. now exists x2.
Qed.

(** The loop returns. *)
Lemma recurrence_loop_returns (st : recurrence) :
  recurrence_shapes x F st ->
  ((2 <= K)%nat -> exists v, x1 st = Some v /\ shape v = shape x) ->
  exists st',
    for_each (range 2 K) (recurrence_step c x s) st = Ok st'
    /\ recurrence_shapes x F st'.
Proof.
  intros Hst H1.
  destruct (Nat.le_gt_cases 2 K) as [HK2|HK2];
    [|unfold range; replace (K - 2)%nat with 0%nat by lia;
      exists st; now split].
  destruct (for_each_total
              (fun st => recurrence_shapes x F st
                         /\ exists v, x1 st = Some v /\ shape v = shape x)
              (recurrence_step c x s) (range 2 K)) with (st := st)
    as [st' [E' [Hst' _]]].
  - intros k t Hk [Ht Hv]. unfold range in Hk. apply in_seq in Hk.
    destruct (recurrence_step_returns k t) as [t' [Et' [Ht' Hv']]];
      [lia|exact Ht|exact Hv|].
    exists t'. split; [exact Et'|]. split; assumption.
  - split; [exact Hst|now apply H1].
  - exists st'. now split.
Qed.

End ScalarSignal.

(** X12: with a scalar signal, the default one for instance, the recursive
    evaluator takes an [x] of any shape, a 0-d array and a matrix included,
    and returns one array of the shape of [x] for each filter. *)
Theorem evaluate_recursive_any_shape
  (self : Chebyshev) (coef x s : ndarray) (K F : nat) :
  _coefficients self = Some coef ->
  shape coef = [K; F] ->
  (1 <= K)%nat ->
  shape s = [] ->
  exists res,
    _evaluate_recursive self x s = Ok res
    /\ shape res = F :: shape x
    /\ well_formed res.
Proof.
  intros Hcoef Hshape HK Hs.
  unfold _evaluate_recursive, get_coefficients. rewrite Hcoef. cbn [obind].
  rewrite Hshape. cbn [shape_at nth_error obind].
  destruct (recurrence_init_returns coef x s K F Hshape Hs HK)
    as [st [-> [Hst H1]]].
  cbn [obind].
  destruct (recurrence_loop_returns coef x s K F Hshape Hs st Hst H1)
    as [st' [-> [_ [Hr Hwf]]]].
  cbn [obind]. exists (result st'). now repeat split.
Qed.

Lemma evaluate_recursive_any_shape_witness :
  exists res,
    _evaluate_recursive example_order2 identity2 default_s = Ok res
    /\ shape res = 1%nat :: shape identity2
    /\ well_formed res.
Proof.
  apply (evaluate_recursive_any_shape example_order2
           (matrix 1 [[Fin 1]; [Fin 2]; [Fin 3]]) identity2 default_s 3 1).
  - reflexivity.
  - reflexivity.
  - lia.
  - reflexivity.
Defined.

(** ** Where the two evaluators agree *)




(** ** Evaluation outside of the domain *)

Section OffDomain.

Variable self : Chebyshev.
Variable coef : ndarray.
Variables K F : nat.
Hypothesis Hcoef : _coefficients self = Some coef.
Hypothesis Hshape : shape coef = [K; F].






End OffDomain.




(** ** The evaluator that the operator entry point calls *)

(** Line 71 returns on a square [L]. *)
Lemma filter_rescale_returns (self : Chebyshev) (L : ndarray) (m : nat) :
  shape L = [m; m] ->
  exists L', filter_rescale self L (identity m) = Ok L'.
Proof.
  intros HL. unfold filter_rescale, np_mul, np_sub.
  destruct (elementwise_scalar_l Num.mul (Fin 2) L) as [a [-> Ha]].
  cbn [obind].
  destruct (elementwise_scalar_r Num.sub (Fin (lmax (G self) / 2)) a)
    as [b [-> Hb]].
  cbn [obind].
  destruct (elementwise_ok Num.sub b (identity m) [m; m]) as [L' [-> _]];
    [|now exists L'].
  rewrite Hb, Ha, HL. apply broadcast_shapes_refl.
Qed.

(** The body of [_filter], run where [L] is bound to a square array: it calls
    the direct evaluator on the rescaled [L] and the signal. *)
Lemma filter_body_bound (self : Chebyshev) (s : ndarray)
  (method : option string) (unused : pyval) (L L' : ndarray) (m : nat)
  (log : list event) :
  shape L = [m; m] ->
  filter_rescale self L (identity m) = Ok L' ->
  _filter_body
    (store_fast (filter_frame self s method unused) "L" (VArray L)) log
  = (_evaluate_direct self L' s, log ++ [Call "_evaluate_direct"]).
Proof.
  intros HL HL'. unfold _filter_body, store_fast, filter_frame.
  rewrite bind_lift. cbn [load_fast lookup String.eqb Ascii.eqb Bool.eqb].
  rewrite bind_lift. cbn [as_array]. rewrite bind_lift, HL.
  cbn [unpack2 fst snd].
  repeat (rewrite bind_lift;
          cbn [load_fast lookup String.eqb Ascii.eqb Bool.eqb as_array
               as_int as_self]).
  rewrite HL'.
  repeat (rewrite bind_lift;
          cbn [load_fast lookup String.eqb Ascii.eqb Bool.eqb as_array
               as_int as_self]).
  now rewrite invoke_run.
Qed.

(** C3: asked for the recursive method, as for any other, [_filter] invokes
    no evaluator: it raises at its first statement.  The one call that its
    body holds is [self._evaluate_direct(L, s)]: run where [L] is bound to a
    square array, the body returns what the direct evaluator returns on the
    rescaled [L], whatever [method] is; on the 2 x 2 identity, with the
    method 'recursive', that is a ValueError, where the recursive evaluator
    returns an array. *)
Theorem filter_dispatch :
  (forall self s method unused log,
      _filter self s method unused log = (Raise (UnboundLocalError "L"), log))
  /\ (forall self s method unused L m log,
         shape L = [m; m] ->
         exists L',
           filter_rescale self L (identity m) = Ok L'
           /\ _filter_body
                (store_fast (filter_frame self s method unused) "L" (VArray L))
                log
              = (_evaluate_direct self L' s, log ++ [Call "_evaluate_direct"]))
  /\ (exists L',
         filter_rescale example_order0 identity2 (identity 2) = Ok L'
         /\ _filter_body
              (store_fast
                 (filter_frame example_order0 (vector [Fin 1; Fin 0])
                    (Some "recursive"%string) VNone)
                 "L" (VArray identity2)) []
            = (Raise ValueError, [Call "_evaluate_direct"])
         /\ _evaluate_recursive example_order0 L' (vector [Fin 1; Fin 0])
            = Ok (mk_ndarray [1; 1; 2]%nat [Fin 1; Fin 1])).
Proof.
  split; [|split].
  - reflexivity.
  - intros self s method unused L m log HL.
    destruct (filter_rescale_returns self L m HL) as [L' HL'].
    exists L'. split; [exact HL'|]. now apply (filter_body_bound _ _ _ _ L L' m).
  - destruct (filter_rescale_returns example_order0 identity2 2 eq_refl)
      as [L' HL'].
    exists L'. split; [exact HL'|]. split.
    + rewrite (filter_body_bound _ _ _ _ identity2 L' 2 [] eq_refl HL').
      cbn [app]. f_equal.
      apply (evaluate_direct_more_axes example_order0 (matrix 1 [[Fin 1]])
               L' (vector [Fin 1; Fin 0]) 1 1);
        [reflexivity|reflexivity| |lia].
      assert (Hs : shape L' = [2; 2]%nat).
      { unfold filter_rescale in HL'. vm_compute in HL'.
        injection HL' as <-. reflexivity. }
      unfold ndim. rewrite Hs. simpl. lia.
    + assert (E : Ok L' = Ok (mk_ndarray [2; 2]%nat
                                [Fin (-1); Fin (-2); Fin (-2); Fin (-1)])).
      { rewrite <- HL'. array_eq. }
      injection E as ->. array_eq.
Qed.


(** ** What evaluation does to the store *)

Section FreshResults.

Import Store.

Lemma fresh_evaluate_direct (st0 : state) (x s : array) :
  frames st0 (_evaluate_direct x s) (fresh st0).
Proof.
  unfold _evaluate_direct. frame_steps.
  eapply frames_bind; [|intros; apply frames_ret; assumption].
  apply frames_for_each. intros k t. frame_steps. frame_prim.
Qed.

Lemma fresh_evaluate_recursive (st0 : state) (x s : array) :
  frames st0 (_evaluate_recursive x s) (fresh st0).
Proof.
  unfold _evaluate_recursive. frame_steps.
  eapply frames_bind with (P := fun _ => True).
  { destruct (1 <? _)%nat; [|frame_prim].
    frame_steps. frame_prim. }
  intros x1 _.
  eapply frames_bind; [|intros; apply frames_ret; assumption].
  apply frames_for_each. intros k t. unfold recurrence_step.
  frame_steps. frame_prim.
Qed.

Lemma fresh_evaluate_recursive_scalar (st0 : state) (x s : array) :
  frames st0 (_evaluate_recursive_scalar x s) (fresh st0).
Proof.
  unfold _evaluate_recursive_scalar. frame_steps.
  eapply frames_bind with (P := fun _ => True).
  { destruct (1 <? _)%nat; [|frame_prim].
    frame_steps. frame_prim. }
  intros x1 _.
  eapply frames_bind; [|intros; apply frames_ret; assumption].
  apply frames_for_each. intros k t. frame_prim.
Qed.

Lemma fresh_getattr_evaluate (st0 : state) (name : string) :
  frames st0 (lift (getattr_evaluate name))
    (fun f => forall x s, frames st0 (f x s) (fresh st0)).
Proof.
  intros st Hext. simpl. split; [exact Hext|].
  intros f. unfold getattr_evaluate, invoke.
  destruct (String.eqb name "_evaluate_direct").
  - intros E. inversion E; subst. intros x s.
    eapply frames_bind; [apply frames_emit|intros _ _].
    apply fresh_evaluate_direct.
  - destruct (String.eqb name "_evaluate_recursive"); [|discriminate].
    intros E. inversion E; subst. intros [x|x] s;
      (eapply frames_bind; [apply frames_emit|intros _ _]).
    + apply fresh_evaluate_recursive.
    + apply fresh_evaluate_recursive_scalar.
Qed.

Lemma fresh_evaluate (st0 : state) (x : array) (method : option string) :
  frames st0 (_evaluate x method) (fresh st0).
Proof.
  unfold _evaluate. frame_steps.
  eapply frames_bind with (P := fun _ => True).
  { destruct (Num.ltb _ _); [frame_prim|]. frame_steps. frame_prim. }
  intros out _.
  eapply frames_bind with (P := fun _ => True).
  { destruct out; frame_prim. }
  intros _ _. do 6 (eapply frames_bind; [frame_prim|intros ? ?]).
  eapply frames_bind; [apply fresh_getattr_evaluate|].
  intros f Hf. frame_steps. apply Hf.
Qed.

End FreshResults.

(** X13: the evaluators and the entry point write into no array that existed
    before the call, their arguments and the coefficients included, and
    assign no attribute; the array they return is a new one. *)
Theorem evaluation_leaves_its_arguments (st : Store.state) :
  (forall x method,
      Store.extends st (snd (Store._evaluate x method st))
      /\ forall r, fst (Store._evaluate x method st) = Ok r -> Store.fresh st r)
  /\ (forall x s,
         Store.extends st (snd (Store._evaluate_direct x s st))
         /\ forall r, fst (Store._evaluate_direct x s st) = Ok r ->
                      Store.fresh st r)
  /\ (forall x s,
         Store.extends st (snd (Store._evaluate_recursive x s st))
         /\ forall r, fst (Store._evaluate_recursive x s st) = Ok r ->
                      Store.fresh st r).
Proof.
  split; [|split].
  - intros x method. apply (fresh_evaluate st x method st), extends_refl.
  - intros x s. apply (fresh_evaluate_direct st x s st), extends_refl.
  - intros x s. apply (fresh_evaluate_recursive st x s st), extends_refl.
Qed.

(** ** Arrays that share memory *)

(** X14: over the store, where [c[k]] and the reshaped coefficients are views
    and [result] is updated in place, the evaluators return the array, or
    raise the exception, that they give on values: it makes no difference
    what memory [x] and [s] share with each other or with the coefficients. *)
Theorem store_evaluators_refine
  (st : Store.state) (self : Chebyshev) (x s : Store.array) (vx vs : ndarray) :
  represents st self -> models st x vx -> models st s vs ->
  Store.value_of (Store._evaluate_direct x s) st = _evaluate_direct self vx vs
  /\ Store.value_of (Store._evaluate_recursive x s) st
     = _evaluate_recursive self vx vs.
Proof.
  intros Hrep Hx Hs. split.
  - now apply store_evaluate_direct_refines.
  - now apply store_evaluate_recursive_refines.
Qed.

Lemma example_constructed_represents :
  represents example_constructed example_order2.
Proof.
  split; [reflexivity|]. split; [reflexivity|]. split; [reflexivity|].
  split; [simpl; lia|reflexivity].
Qed.

(** The points (1, 2, 3) and the signal 2 are read from the buffer of the
    coefficients. *)
Lemma store_evaluators_refine_witness :
  Store.value_of
    (Store._evaluate_direct (Store.mk_array 0 0 [3%nat])
       (Store.mk_array 0 1 []))
    example_constructed
  = _evaluate_direct example_order2 (points [1; 2; 3]) (scalar (Fin 2))
  /\ Store.value_of
       (Store._evaluate_recursive (Store.mk_array 0 0 [3%nat])
          (Store.mk_array 0 1 []))
       example_constructed
     = _evaluate_recursive example_order2 (points [1; 2; 3]) (scalar (Fin 2)).
Proof.
  apply (store_evaluators_refine example_constructed example_order2
           (Store.mk_array 0 0 [3%nat]) (Store.mk_array 0 1 [])
           (points [1; 2; 3]) (scalar (Fin 2))).
  - exact example_constructed_represents.
  - split; [simpl; lia|reflexivity].
  - split; [simpl; lia|reflexivity].
Defined.

(** The same for the entry point: its result over the store is its result on
    values. *)
Lemma store_evaluate_refines_witness :
  Store.value_of
    (Store._evaluate (Store.mk_array 0 0 [3%nat]) (Some "direct"%string))
    example_constructed
  = fst (_evaluate example_order2 (points [1; 2; 3]) (Some "direct"%string) []).
Proof.
  apply (store_evaluate_refines example_constructed example_order2
           (Store.mk_array 0 0 [3%nat]) (points [1; 2; 3])
           (Some "direct"%string) []).
  - exact example_constructed_represents.
  - split; [simpl; lia|reflexivity].
Defined.

Lemma store_init_represents_witness :
  match __init__ example_graph
          (ArrayLike (matrix 1 [[Fin 1]; [Fin 2]; [Fin 3]])) default_order with
  | Ok self =>
      exists st1,
        Store.__init__ example_graph
          (Store.ListLike (matrix 1 [[Fin 1]; [Fin 2]; [Fin 3]]))
          default_order example_store = (Ok tt, st1)
        /\ represents st1 self
  | Raise e =>
      exists st1,
        Store.__init__ example_graph
          (Store.ListLike (matrix 1 [[Fin 1]; [Fin 2]; [Fin 3]]))
          default_order example_store = (Raise e, st1)
  end.
Proof.
  apply (store_init_represents example_graph
           (Store.ListLike (matrix 1 [[Fin 1]; [Fin 2]; [Fin 3]]))
           (ArrayLike (matrix 1 [[Fin 1]; [Fin 2]; [Fin 3]]))
           default_order example_store).
  split; [reflexivity|]. unfold compact. simpl. lia.
Defined.

Section SharedCoefficients.

Import Store.

(** Reading after writing, through the same window. *)
Lemma deref_write (a : array) (v : ndarray) (st : state) :
  (base a < length (buffers st))%nat ->
  (offset a <= length (nth (base a) (buffers st) []))%nat ->
  well_formed v ->
  shape v = ashape a ->
  deref (buffers (snd (write a v st))) a = v.
Proof.
  intros Hb Ho Hwf Hs. unfold write, deref. cbn [snd buffers].
  rewrite nth_set_nth_eq by exact Hb.
  set (buf := nth (base a) (buffers st) []) in *.
  assert (Hlen : length (firstn (offset a) buf) = offset a)
    by (rewrite length_firstn; lia).
  rewrite skipn_app, skipn_all2 by lia.
  rewrite Hlen, Nat.sub_diag. cbn [skipn app].
  unfold well_formed in Hwf. rewrite <- Hs, <- Hwf.
  rewrite firstn_app, firstn_all, Nat.sub_diag. cbn [firstn].
  rewrite app_nil_r. now destruct v.
Qed.

End SharedCoefficients.

(** X17: [numpy.asarray] does not copy an array: the coefficients of the
    instance are the array the constructor was given, and what the caller
    writes into that array afterwards is what the instance holds.  A list of
    rows becomes a new array. *)
Theorem constructor_shares_its_array
  (g : Graph) (ord : Z) (st0 st1 : Store.state) :
  (forall a,
      Store.__init__ g (Store.ArrayLike a) ord st0 = (Ok tt, st1) ->
      Store._coefficients (Store.attrs st1) = Some a
      /\ Store.buffers st1 = Store.buffers st0
      /\ forall v,
           (Store.base a < length (Store.buffers st1))%nat ->
           (Store.offset a
            <= length (nth (Store.base a) (Store.buffers st1) []))%nat ->
           well_formed v ->
           shape v = Store.ashape a ->
           Store.observed_coefficients (snd (Store.write a v st1)) = Some v)
  /\ (forall rows,
         Store.__init__ g (Store.ListLike rows) ord st0 = (Ok tt, st1) ->
         exists c,
           Store._coefficients (Store.attrs st1) = Some c
           /\ Store.fresh st0 c
           /\ (compact rows -> Store.observed_coefficients st1 = Some rows)).
Proof.
  split.
  - intros a. unfold Store.__init__.
    cbv [Store.bind Store.setattr Store.try_except Store._compute_coefficients
         Store.ret Store.lift Store.get_Nf Store.np_asarray
         Store.getattr_coefficients Store.set_coefficients Store.set_Nf
         Store.attrs Store.buffers Store.logged Store.G Store.order
         Store._coefficients Store.Nf].
    destruct (shape_at (Store.ashape a) 1) as [nf|e]; [|discriminate].
    intros E. injection E as <-.
    cbn [Store.attrs Store._coefficients Store.buffers].
    split; [reflexivity|]. split; [reflexivity|].
    intros v Hb Ho Hwf Hs. unfold Store.observed_coefficients.
    cbn [Store.write snd Store.attrs Store._coefficients option_map].
    f_equal. now apply (deref_write a v (Store.mk_state _ _ _)).
  - intros rows. unfold Store.__init__.
    cbv [Store.bind Store.setattr Store.try_except Store._compute_coefficients
         Store.ret Store.lift Store.get_Nf Store.np_asarray Store.alloc
         Store.getattr_coefficients Store.set_coefficients Store.set_Nf
         Store.attrs Store.buffers Store.logged Store.G Store.order
         Store._coefficients Store.Nf Store.ashape].
    destruct (shape_at (shape rows) 1) as [nf|e]; [|discriminate].
    intros E. injection E as <-. eexists. split; [reflexivity|].
    split; [unfold Store.fresh; destruct st0; simpl; lia|].
    intros Hc. unfold Store.observed_coefficients. simpl. f_equal.
    exact (proj2 (models_alloc_new st0 rows Hc)).
Qed.

Lemma constructor_shares_its_array_witness :
  Store._coefficients (Store.attrs example_constructed)
  = Some example_coefficients
  /\ Store.buffers example_constructed = Store.buffers example_store
  /\ Store.observed_coefficients
       (snd (Store.write example_coefficients
               (matrix 1 [[Fin 7]; [Fin 8]; [Fin 9]]) example_constructed))
     = Some (matrix 1 [[Fin 7]; [Fin 8]; [Fin 9]]).
Proof.
  destruct (proj1 (constructor_shares_its_array example_graph default_order
                     example_store example_constructed)
              example_coefficients eq_refl) as [Hc [Hb Hw]].
  split; [exact Hc|]. split; [exact Hb|].
  apply Hw; [simpl; lia|simpl; lia|reflexivity|reflexivity].
Defined.

(** ** The graph Fourier transform *)

Section MatrixProducts.

Import Transforms.

Lemma rsum_ext (f g : nat -> R) (n : nat) :
  (forall k, (k < n)%nat -> f k = g k) -> rsum f n = rsum g n.
Proof.
  induction n as [|n IH]; intros H; simpl; [reflexivity|].
  rewrite IH by (intros; apply H; lia). now rewrite H by lia.
Qed.

Lemma rsum_plus (f g : nat -> R) (n : nat) :
  rsum (fun k => f k + g k) n = rsum f n + rsum g n.
Proof. induction n as [|n IH]; simpl; [ring|rewrite IH; ring]. Qed.

Lemma rsum_scal (a : R) (f : nat -> R) (n : nat) :
  rsum (fun k => a * f k) n = a * rsum f n.
Proof. induction n as [|n IH]; simpl; [ring|rewrite IH; ring]. Qed.

Lemma rsum_0 (n : nat) : rsum (fun _ => 0) n = 0.
Proof. induction n as [|n IH]; simpl; [reflexivity|rewrite IH; ring]. Qed.

Lemma rsum_swap (f : nat -> nat -> R) (n m : nat) :
  rsum (fun i => rsum (fun k => f i k) m) n
  = rsum (fun k => rsum (fun i => f i k) n) m.
Proof.
  induction n as [|n IH]; simpl.
  - now rewrite rsum_0.
  - rewrite IH, <- rsum_plus. reflexivity.
Qed.

(** The sum against a row of the identity picks one term. *)
Lemma rsum_delta (f : nat -> R) (j n : nat) :
  (j < n)%nat ->
  rsum (fun k => (if (j =? k)%nat then 1 else 0) * f k) n = f j.
Proof.
  induction n as [|n IH]; intros Hj; [lia|]. simpl.
  destruct (Nat.eqb_spec j n) as [->|Hne].
  - rewrite (rsum_ext _ (fun _ => 0)), rsum_0; [ring|].
    intros k Hk. destruct (Nat.eqb_spec n k); [lia|ring].
  - rewrite IH by lia. ring.
Qed.

(** The accumulation of [np_dot], on finite terms and in general. *)
Lemma fold_dot_seq (t : nat -> num) (m : nat) :
  forall j acc,
    fold_left (fun acc l => Num.add acc (t l)) (seq j (S m)) acc
    = Num.add (fold_left (fun acc l => Num.add acc (t l)) (seq j m) acc)
              (t (j + m)%nat).
Proof.
  induction m as [|m IH]; intros j acc.
  - simpl. now rewrite Nat.add_0_r.
  - change (seq j (S (S m))) with (j :: seq (S j) (S m)).
    cbn [fold_left]. rewrite IH. simpl. now rewrite Nat.add_succ_r.
Qed.

Lemma fold_dot_finite (t : nat -> R) (n : nat) :
  fold_left (fun acc l => Num.add acc (Fin (t l))) (seq 0 n) (Fin 0)
  = Fin (rsum t n).
Proof.
  induction n as [|n IH]; [reflexivity|].
  rewrite fold_dot_seq, IH. reflexivity.
Qed.

(** A finite sum has finite terms. *)
Lemma fold_dot_terms (t : nat -> num) (n : nat) (r : R) :
  fold_left (fun acc l => Num.add acc (t l)) (seq 0 n) (Fin 0) = Fin r ->
  forall l, (l < n)%nat -> is_finite (t l).
Proof.
  revert r. induction n as [|n IH]; intros r H l Hl; [lia|].
  rewrite fold_dot_seq in H. simpl in H.
  destruct (fold_left _ (seq 0 n) (Fin 0)) as [a|] eqn:E; [|discriminate].
  destruct (t n) as [b|] eqn:Et; [|discriminate].
  destruct (Nat.eq_dec l n) as [->|Hne].
  - now rewrite Et.
  - apply (IH a eq_refl). lia.
Qed.

End MatrixProducts.

Section Products.

Import Transforms.

Lemma fold_left_ext_in {A B : Type} (f g : A -> B -> A) (l : list B) :
  (forall a b, In b l -> f a b = g a b) ->
  forall a, fold_left f l a = fold_left g l a.
Proof.
  induction l as [|b l IH]; intros H a; simpl; [reflexivity|].
  rewrite H by now left. apply IH. intros a' b' Hb. apply H. now right.
Qed.

Lemma dot_sum_ext (p p' q q' : nat -> num) (n : nat) :
  (forall l, (l < n)%nat -> p l = p' l) ->
  (forall l, (l < n)%nat -> q l = q' l) ->
  dot_sum p q n = dot_sum p' q' n.
Proof.
  intros Hp Hq. unfold dot_sum. apply fold_left_ext_in.
  intros a l Hl. apply in_seq in Hl. rewrite Hp, Hq by lia. reflexivity.
Qed.

Lemma dot_sum_finite (p q : nat -> R) (n : nat) :
  dot_sum (fun l => Fin (p l)) (fun l => Fin (q l)) n
  = Fin (rsum (fun l => p l * q l) n).
Proof. unfold dot_sum. apply (fold_dot_finite (fun l => p l * q l)). Qed.

Lemma dot_sum_factors (p q : nat -> num) (n : nat) (r : R) :
  dot_sum p q n = Fin r ->
  forall l, (l < n)%nat -> is_finite (p l) /\ is_finite (q l).
Proof.
  intros H l Hl.
  pose proof (fold_dot_terms (fun l => Num.mul (p l) (q l)) n r H l Hl) as Hf.
  simpl in Hf. destruct (p l), (q l); simpl in *; tauto.
Qed.

Lemma np_dot_mat_vec (F N : nat) (g : nat -> nat -> num) (v : nat -> num) :
  np_dot (mat F N g) (vec N v)
  = Ok (vec F (fun i => dot_sum (g i) v N)).
Proof.
  unfold np_dot, ndim.
  change (shape (mat F N g)) with [F; N].
  change (shape (vec N v)) with [N].
  cbn [length last removelast Nat.sub Nat.eqb firstn nth app].
  rewrite Nat.eqb_refl. f_equal.
  apply tabulate_ext. intros idx Hb. index_cases idx Hb.
  cbn [length firstn skipn app].
  apply fold_left_ext_in. intros a l Hl. apply in_seq in Hl.
  rewrite get_mat, get_vec by lia. reflexivity.
Qed.

Lemma np_dot_mat_mat (F N M : nat) (g h : nat -> nat -> num) :
  np_dot (mat F N g) (mat N M h)
  = Ok (mat F M (fun i j => dot_sum (g i) (fun l => h l j) N)).
Proof.
  unfold np_dot, ndim.
  change (shape (mat F N g)) with [F; N].
  change (shape (mat N M h)) with [N; M].
  cbn [length last removelast Nat.sub Nat.eqb firstn nth app].
  rewrite Nat.eqb_refl. f_equal.
  apply tabulate_ext. intros idx Hb. index_cases idx Hb.
  cbn [length firstn skipn app].
  apply fold_left_ext_in. intros a l Hl. apply in_seq in Hl.
  rewrite !get_mat by lia. reflexivity.
Qed.

Lemma transpose_mat (F N : nat) (g : nat -> nat -> num) :
  transpose (mat F N g) = mat N F (fun i j => g j i).
Proof.
  unfold transpose. change (shape (mat F N g)) with [F; N].
  cbn [rev app]. apply tabulate_ext.
  intros idx Hb. index_cases idx Hb. cbn [rev app nth]. now apply get_mat.
Qed.

Lemma np_conjugate_id (a : ndarray) : np_conjugate a = a.
Proof.
  unfold np_conjugate, np_map, conjugate. rewrite map_id. now destruct a.
Qed.

Lemma matrix_mat (a : ndarray) (n m : nat) :
  shape a = [n; m] -> well_formed a ->
  a = mat n m (fun i j => get a [i; j]).
Proof.
  intros Hs Hwf. rewrite (ndarray_tabulate a Hwf) at 1. rewrite Hs.
  apply tabulate_ext. intros idx Hb. index_cases idx Hb. reflexivity.
Qed.

Lemma identity_mat (m : nat) :
  identity m = mat m m (fun i j => if (i =? j)%nat then Fin 1 else Fin 0).
Proof. reflexivity. Qed.

Lemma mat_inj (F N : nat) (g h : nat -> nat -> num) :
  mat F N g = mat F N h ->
  forall f n, (f < F)%nat -> (n < N)%nat -> g f n = h f n.
Proof.
  intros E f n Hf Hn.
  rewrite <- (get_mat F N g f n), <- (get_mat F N h f n) by assumption.
  now rewrite E.
Qed.

Lemma Ok_inj {A : Type} (a b : A) : Ok a = Ok b -> a = b.
Proof. intros E. now injection E. Qed.

(** If [P Q] is the identity, [P] undoes what [Q] does to a vector. *)
Lemma left_inverse (p q : nat -> nat -> num) (m n : nat) (rs : list R) :
  np_dot (mat m n p) (mat n m q) = Ok (identity m) ->
  length rs = m ->
  exists s,
    np_dot (mat n m q) (points rs) = Ok s
    /\ np_dot (mat m n p) s = Ok (points rs).
Proof.
  rewrite np_dot_mat_mat, identity_mat. intros H Hlen.
  apply Ok_inj in H. pose proof (mat_inj _ _ _ _ H) as Hid. clear H.
  assert (Hfin : forall j i, (j < m)%nat -> (i < n)%nat ->
             p j i = Fin (real_of (p j i)) /\ q i j = Fin (real_of (q i j))).
  { intros j i Hj Hi. specialize (Hid j j Hj Hj). cbv beta in Hid.
    rewrite Nat.eqb_refl in Hid.
    destruct (dot_sum_factors _ _ _ _ Hid i Hi) as [Hp Hq].
    split; now apply real_of_finite. }
  rewrite points_vec, Hlen. rewrite np_dot_mat_vec.
  eexists. split; [reflexivity|]. rewrite np_dot_mat_vec. f_equal.
  apply vec_ext. intros j Hj.
  rewrite (dot_sum_ext _ (fun i => Fin (real_of (p j i))) _
             (fun i => Fin (rsum (fun k => real_of (q i k) * nth k rs 0) m)) n).
  - rewrite dot_sum_finite. f_equal.
    rewrite (rsum_ext _ (fun i => rsum (fun k =>
               real_of (p j i) * real_of (q i k) * nth k rs 0) m))
      by (intros i Hi; rewrite <- rsum_scal; apply rsum_ext; intros; ring).
    rewrite rsum_swap.
    rewrite (rsum_ext _
               (fun k => (if (j =? k)%nat then 1 else 0) * nth k rs 0)).
    + now apply rsum_delta.
    + intros k Hk.
      rewrite (rsum_ext _ (fun i => nth k rs 0
                                    * (real_of (p j i) * real_of (q i k))))
        by (intros; ring).
      rewrite rsum_scal. specialize (Hid j k Hj Hk). cbv beta in Hid.
      rewrite (dot_sum_ext _ (fun i => Fin (real_of (p j i))) _
                 (fun i => Fin (real_of (q i k))) n) in Hid
        by (intros i Hi; now apply Hfin).
      rewrite dot_sum_finite in Hid.
      destruct (j =? k)%nat; injection Hid as ->; ring.
  - intros i Hi. now apply Hfin.
  - intros i Hi.
    rewrite (dot_sum_ext _ (fun k => Fin (real_of (q i k))) _
               (fun k => Fin (nth k rs 0)) m)
      by (intros; try reflexivity; now apply Hfin).
    now rewrite dot_sum_finite.
Qed.

End Products.

Section FourierTransform.

Import Transforms.

Lemma hermitian_mat (a : ndarray) (n m : nat) :
  shape a = [n; m] -> well_formed a ->
  np_conjugate (transpose a) = mat m n (fun j i => get a [i; j]).
Proof.
  intros Hs Hwf. rewrite np_conjugate_id.
  rewrite (matrix_mat a n m Hs Hwf) at 1. apply transpose_mat.
Qed.

Lemma basis_mat (a : ndarray) (n m : nat) :
  shape a = [n; m] -> well_formed a ->
  exists u,
    a = mat n m u
    /\ np_conjugate (transpose a) = mat m n (fun j i => u i j).
Proof.
  intros Hs Hwf. exists (fun i j => get a [i; j]).
  split; [now apply matrix_mat|now apply hermitian_mat].
Qed.

Lemma hermitian_shape (a : ndarray) :
  shape (np_conjugate (transpose a)) = rev (shape a).
Proof. reflexivity. Qed.

End FourierTransform.

(** X18: when the Fourier basis has orthonormal columns, [U* U = I], [gft]
    undoes [igft]; when it has orthonormal rows, [U U* = I], [igft] undoes
    [gft]. *)
Theorem gft_igft_round_trip (G : Transforms.graph_or_basis) (n m : nat) :
  shape (Transforms.fourier_basis G) = [n; m] ->
  well_formed (Transforms.fourier_basis G) ->
  (np_dot (Transforms.np_conjugate
             (Transforms.transpose (Transforms.fourier_basis G)))
          (Transforms.fourier_basis G)
   = Ok (identity m) ->
   forall rs, length rs = m ->
     exists s,
       Transforms.igft G (points rs) = Ok s
       /\ Transforms.gft G s = Ok (points rs))
  /\ (np_dot (Transforms.fourier_basis G)
             (Transforms.np_conjugate
                (Transforms.transpose (Transforms.fourier_basis G)))
      = Ok (identity n) ->
      forall rs, length rs = n ->
        exists s_hat,
          Transforms.gft G (points rs) = Ok s_hat
          /\ Transforms.igft G s_hat = Ok (points rs)).
Proof.
  intros Hs Hwf. unfold Transforms.gft, Transforms.igft.
  destruct (basis_mat _ n m Hs Hwf) as [u [HU HH]]. rewrite HH, HU.
  split; intros H rs Hlen; now apply left_inverse.
Qed.

Lemma example_basis_columns :
  np_dot (Transforms.np_conjugate (Transforms.transpose example_basis))
    example_basis
  = Ok (identity 2).
Proof. array_eq. Qed.

Lemma example_basis_rows :
  np_dot example_basis
    (Transforms.np_conjugate (Transforms.transpose example_basis))
  = Ok (identity 2).
Proof. array_eq. Qed.

Lemma gft_igft_round_trip_witness :
  (exists s,
      Transforms.igft (Transforms.ABasis example_basis) (points [1; 2]) = Ok s
      /\ Transforms.gft (Transforms.ABasis example_basis) s = Ok (points [1; 2]))
  /\ (exists s_hat,
         Transforms.gft (Transforms.AGraph (Transforms.mk_Graph example_basis))
           (points [1; 2]) = Ok s_hat
         /\ Transforms.igft (Transforms.AGraph (Transforms.mk_Graph example_basis))
              s_hat = Ok (points [1; 2])).
Proof.
  split.
  - apply (proj1 (gft_igft_round_trip (Transforms.ABasis example_basis) 2 2
                    eq_refl eq_refl)).
    + exact example_basis_columns.
    + reflexivity.
  - apply (proj2 (gft_igft_round_trip
                    (Transforms.AGraph (Transforms.mk_Graph example_basis)) 2 2
                    eq_refl eq_refl)).
    + exact example_basis_rows.
    + reflexivity.
Defined.

(** X19: the transforms entry by entry, for a basis and a signal of finite
    numbers: the [j]-th Fourier coefficient is the sum over the vertices [i]
    of [U[i, j] * s[i]], the [i]-th value of the inverse transform the sum
    over [j] of [U[i, j] * s_hat[j]]. *)
Theorem gft_igft_entries (G : Transforms.graph_or_basis) (n m : nat)
  (rs : list R) :
  shape (Transforms.fourier_basis G) = [n; m] ->
  well_formed (Transforms.fourier_basis G) ->
  Forall is_finite (data (Transforms.fourier_basis G)) ->
  (length rs = n ->
   Transforms.gft G (points rs)
   = Ok (vec m (fun j =>
           Fin (rsum (fun i =>
                  real_of (get (Transforms.fourier_basis G) [i; j])
                  * nth i rs 0) n))))
  /\ (length rs = m ->
      Transforms.igft G (points rs)
      = Ok (vec n (fun i =>
              Fin (rsum (fun j =>
                     real_of (get (Transforms.fourier_basis G) [i; j])
                     * nth j rs 0) m)))).
Proof.
  intros Hs Hwf Hfin. unfold Transforms.gft, Transforms.igft.
  assert (Hu : forall i j, (i < n)%nat -> (j < m)%nat ->
             get (Transforms.fourier_basis G) [i; j]
             = Fin (real_of (get (Transforms.fourier_basis G) [i; j]))).
  { intros i j Hi Hj. apply real_of_finite. apply get_finite; try assumption.
    rewrite Hs. simpl. tauto. }
  split; intros Hlen; rewrite points_vec, Hlen;
    [rewrite (hermitian_mat _ n m Hs Hwf)
    |rewrite (matrix_mat _ n m Hs Hwf) at 1];
    rewrite np_dot_mat_vec; f_equal; apply vec_ext; intros k Hk.
  - rewrite (dot_sum_ext _
               (fun i => Fin (real_of (get (Transforms.fourier_basis G) [i; k])))
               _ (fun i => Fin (nth i rs 0)) n)
      by (intros; try reflexivity; now apply Hu).
    now rewrite dot_sum_finite.
  - rewrite (dot_sum_ext _
               (fun j => Fin (real_of (get (Transforms.fourier_basis G) [k; j])))
               _ (fun j => Fin (nth j rs 0)) m)
      by (intros; try reflexivity; now apply Hu).
    now rewrite dot_sum_finite.
Qed.

Lemma example_basis_finite : Forall is_finite (data example_basis).
Proof. repeat (apply Forall_cons; [exact I|]). apply Forall_nil. Qed.

Lemma gft_igft_entries_witness :
  Transforms.gft (Transforms.ABasis example_basis) (points [1; 2])
  = Ok (vec 2 (fun j =>
          Fin (rsum (fun i => real_of (get example_basis [i; j])
                              * nth i [1; 2] 0) 2)))
  /\ Transforms.igft (Transforms.ABasis example_basis) (points [1; 2])
     = Ok (vec 2 (fun i =>
             Fin (rsum (fun j => real_of (get example_basis [i; j])
                                 * nth j [1; 2] 0) 2))).
Proof.
  destruct (gft_igft_entries (Transforms.ABasis example_basis) 2 2 [1; 2]
              eq_refl eq_refl example_basis_finite) as [Hg Hi].
  split; [apply Hg|apply Hi]; reflexivity.
Defined.

(** X20: a signal whose length is not the number of rows of the basis makes
    [gft] raise ValueError, one whose length is not the number of its columns
    makes [igft] raise ValueError; otherwise each returns one coefficient per
    column, or one value per row, for every column of the signal. *)
Theorem gft_igft_shapes (G : Transforms.graph_or_basis) (n m p : nat)
  (rest : list nat) (s : ndarray) :
  shape (Transforms.fourier_basis G) = [n; m] ->
  shape s = p :: rest ->
  (length rest <= 1)%nat ->
  (p = n -> exists r, Transforms.gft G s = Ok r /\ shape r = m :: rest)
  /\ (p <> n -> Transforms.gft G s = Raise ValueError)
  /\ (p = m -> exists r, Transforms.igft G s = Ok r /\ shape r = n :: rest)
  /\ (p <> m -> Transforms.igft G s = Raise ValueError).
Proof.
  intros HU Hs Hrest. unfold Transforms.gft, Transforms.igft, np_dot, ndim.
  rewrite hermitian_shape, HU, Hs.
  destruct rest as [|q [|? ?]]; [| |simpl in Hrest; lia];
    cbn [rev app length last removelast Nat.sub Nat.eqb firstn nth];
    (split; [|split; [|split]]); intros Hp.
  - subst p. rewrite Nat.eqb_refl. eexists. split; reflexivity.
  - destruct (Nat.eqb_spec n p); [congruence|reflexivity].
  - subst p. rewrite Nat.eqb_refl. eexists. split; reflexivity.
  - destruct (Nat.eqb_spec m p); [congruence|reflexivity].
  - subst p. rewrite Nat.eqb_refl. eexists. split; reflexivity.
  - destruct (Nat.eqb_spec n p); [congruence|reflexivity].
  - subst p. rewrite Nat.eqb_refl. eexists. split; reflexivity.
  - destruct (Nat.eqb_spec m p); [congruence|reflexivity].
Qed.

Lemma gft_igft_shapes_witness :
  Transforms.gft (Transforms.ABasis example_basis) (points [1; 2; 3])
  = Raise ValueError
  /\ Transforms.igft (Transforms.ABasis example_basis) (points [1; 2; 3])
     = Raise ValueError
  /\ (exists r,
         Transforms.gft (Transforms.ABasis example_basis) identity2 = Ok r
         /\ shape r = [2; 2]%nat).
Proof.
  destruct (gft_igft_shapes (Transforms.ABasis example_basis) 2 2 3 []
              (points [1; 2; 3]) eq_refl eq_refl (Nat.le_0_l 1))
    as [_ [Hg [_ Hi]]].
  destruct (gft_igft_shapes (Transforms.ABasis example_basis) 2 2 2 [2%nat]
              identity2 eq_refl eq_refl (Nat.le_refl 1))
    as [Hm _].
  split; [apply Hg; lia|]. split; [apply Hi; lia|]. now apply Hm.
Defined.


(** X21: a matrix of signals, one signal per column, is transformed column by
    column, in both directions. *)
Theorem gft_igft_columns (G : Transforms.graph_or_basis) (n m q : nat)
  (S : ndarray) :
  shape (Transforms.fourier_basis G) = [n; m] ->
  well_formed (Transforms.fourier_basis G) ->
  well_formed S ->
  (shape S = [n; q] ->
   exists R,
     Transforms.gft G S = Ok R
     /\ shape R = [m; q]
     /\ forall c, (c < q)%nat ->
          Transforms.gft G (vec n (fun i => get S [i; c]))
          = Ok (vec m (fun j => get R [j; c])))
  /\ (shape S = [m; q] ->
      exists R,
        Transforms.igft G S = Ok R
        /\ shape R = [n; q]
        /\ forall c, (c < q)%nat ->
             Transforms.igft G (vec m (fun j => get S [j; c]))
             = Ok (vec n (fun i => get R [i; c]))).
Proof.
  intros HU Hwf HwfS. unfold Transforms.gft, Transforms.igft.
  destruct (basis_mat _ n m HU Hwf) as [u [-> ->]].
  split; intros HS; eexists;
    (split; [rewrite (matrix_mat S _ q HS HwfS) at 1; apply np_dot_mat_mat|]);
    (split; [reflexivity|]); intros c Hc; rewrite np_dot_mat_vec; f_equal;
    apply vec_ext; intros k Hk; now rewrite get_mat.
Qed.

Lemma gft_igft_columns_witness :
  (exists R,
      Transforms.gft (Transforms.ABasis example_basis) identity2 = Ok R
      /\ shape R = [2; 2]%nat
      /\ forall c, (c < 2)%nat ->
           Transforms.gft (Transforms.ABasis example_basis)
             (vec 2 (fun i => get identity2 [i; c]))
           = Ok (vec 2 (fun j => get R [j; c])))
  /\ (exists R,
         Transforms.igft (Transforms.ABasis example_basis) identity2 = Ok R
         /\ shape R = [2; 2]%nat
         /\ forall c, (c < 2)%nat ->
              Transforms.igft (Transforms.ABasis example_basis)
                (vec 2 (fun j => get identity2 [j; c]))
              = Ok (vec 2 (fun i => get R [i; c]))).
Proof.
  destruct (gft_igft_columns (Transforms.ABasis example_basis) 2 2 2 identity2
              eq_refl eq_refl eq_refl) as [Hg Hi].
  split; [apply Hg|apply Hi]; reflexivity.
Defined.
